(** * ai-dead-code: extraction and classification of unused exports and functions

    A shallow embedding of [src/index.js]: the declaration and import
    extractors ([extractExports], [extractFunctions], [findImports]) and the
    two checks of [main], over the regular expressions of the source.

    JavaScript strings are sequences of UTF-16 code units.  Regular
    expressions are given a backtracking semantics as the priority-ordered
    list of ends a pattern can reach from a position, so that the first
    element is the match the engine reports; the patterns that the source
    builds at run time from a declaration's name go through a model of the
    [RegExp] constructor.  What the program takes from its environment is a
    parameter of the scan: the paths found by [scanFiles], the contents read
    by [fs.readFileSync], [path.relative], the options and the clock.  Console
    output is not modelled, nor is [findUsages], which the source never
    calls. *)

From Stdlib Require Import String Ascii.
From Stdlib Require Import List Bool Arith NArith Lia Permutation.
Import ListNotations.

Set Implicit Arguments.

(** ** Code units and strings *)

Definition char := N.
Definition str := list char.

Definition u (s : string) : str := map N_of_ascii (list_ascii_of_string s).

Local Open Scope N_scope.

Definition inRange (lo hi c : char) : bool := (N.leb lo c && N.leb c hi)%bool.

(** [\w] : ASCII letters, digits and underscore. *)
Definition isWord (c : char) : bool :=
  (inRange 97 122 c || inRange 65 90 c || inRange 48 57 c || N.eqb c 95)%bool.

Definition isDigit (c : char) : bool := inRange 48 57 c.

(** [\s] : WhiteSpace and LineTerminator code points of ECMAScript; the same
    set is stripped by [String.prototype.trim]. *)
Definition isSpace (c : char) : bool :=
  (inRange 9 13 c || N.eqb c 32 || N.eqb c 160 || N.eqb c 5760
   || inRange 8192 8202 c || N.eqb c 8232 || N.eqb c 8233 || N.eqb c 8239
   || N.eqb c 8287 || N.eqb c 12288 || N.eqb c 65279)%bool.

Definition isLineTerminator (c : char) : bool :=
  (N.eqb c 10 || N.eqb c 13 || N.eqb c 8232 || N.eqb c 8233)%bool.

(** Canonicalisation under the [i] flag, for ASCII letters.  A code unit of
    128 or more never canonicalises to one below 128, so this decides every
    comparison in which the pattern character is ASCII. *)
Definition canon (c : char) : char := if inRange 97 122 c then c - 32 else c.

Local Close Scope N_scope.

Fixpoint eqs (a b : str) : bool :=
  match a, b with
  | [], [] => true
  | x :: a', y :: b' => (N.eqb x y && eqs a' b')%bool
  | _, _ => false
  end.

(** ** Regular expressions *)

Inductive cesc := ESpace | EWord | EDigit.

Inductive citem := CChr (c : char) | CEsc (e : cesc).

Inductive regex :=
| Empty
| Chr (c : char)
| Any
| Class (neg : bool) (items : list citem)
| Seq (a b : regex)
| Alt (a b : regex)
| Star (a : regex)
| Plus (a : regex)
| Opt (a : regex)
| Group (n : nat) (a : regex)
| Bol
| Eol
| WordB
| NotWordB
| LookBehind (neg : bool) (a : regex).

(** A position in the subject: the text before it (nearest character first)
    and the text after it. *)
Record cursor := Cur { before : str; after : str }.

Definition subject (z : cursor) : str := rev (before z) ++ after z.
Definition index (z : cursor) : nat := length (before z).

Definition caps := list (nat * str).

Definition escMatch (e : cesc) (x : char) : bool :=
  match e with
  | ESpace => isSpace x
  | EWord => isWord x
  | EDigit => isDigit x
  end.

Definition chrMatch (ic : bool) (a x : char) : bool :=
  if ic then N.eqb (canon a) (canon x) else N.eqb a x.

Definition itemMatch (ic : bool) (i : citem) (x : char) : bool :=
  match i with
  | CChr a => chrMatch ic a x
  | CEsc e => escMatch e x
  end.

Definition classMatch (ic neg : bool) (items : list citem) (x : char) : bool :=
  xorb neg (existsb (fun i => itemMatch ic i x) items).

Definition step1 (p : char -> bool) (z : cursor) (c : caps) : list (cursor * caps) :=
  match after z with
  | x :: rest => if p x then [(Cur (x :: before z) rest, c)] else []
  | [] => []
  end.

Definition progress (z : cursor) (zc : cursor * caps) : bool :=
  length (after (fst zc)) <? length (after z).

(** Greedy iteration: one more round of [body] first, provided the round
    consumed something, and the current position last.  The code units left
    bound the rounds ([star_fuel]). *)
Fixpoint star (body : cursor -> caps -> list (cursor * caps)) (fuel : nat)
    (z : cursor) (c : caps) : list (cursor * caps) :=
  match fuel with
  | O => [(z, c)]
  | S f =>
      flat_map (fun zc => star body f (fst zc) (snd zc))
               (filter (progress z) (body z c))
      ++ [(z, c)]
  end.

Definition wordBefore (z : cursor) : bool :=
  match before z with x :: _ => isWord x | [] => false end.
Definition wordAfter (z : cursor) : bool :=
  match after z with x :: _ => isWord x | [] => false end.
Definition atBoundary (z : cursor) : bool := xorb (wordBefore z) (wordAfter z).

(** Every position at or to the left of the cursor, nearest first. *)
Fixpoint leftsOf (b a : str) : list cursor :=
  Cur b a :: match b with
             | [] => []
             | x :: b' => leftsOf b' (x :: a)
             end.

Definition consumed (z z1 : cursor) : str :=
  firstn (length (after z) - length (after z1)) (after z).

(** [ends ic r z c]: the positions at which a match of [r] started at [z]
    can end, in the order in which a backtracking matcher tries them. *)
Fixpoint ends (ic : bool) (r : regex) (z : cursor) (c : caps) {struct r}
    : list (cursor * caps) :=
  match r with
  | Empty => [(z, c)]
  | Chr a => step1 (chrMatch ic a) z c
  | Any => step1 (fun x => negb (isLineTerminator x)) z c
  | Class neg items => step1 (classMatch ic neg items) z c
  | Seq a b => flat_map (fun zc => ends ic b (fst zc) (snd zc)) (ends ic a z c)
  | Alt a b => ends ic a z c ++ ends ic b z c
  | Star a => star (ends ic a) (length (after z)) z c
  | Plus a =>
      flat_map (fun zc => star (ends ic a) (length (after (fst zc))) (fst zc) (snd zc))
               (ends ic a z c)
  | Opt a => filter (progress z) (ends ic a z c) ++ [(z, c)]
  | Group n a =>
      map (fun zc => (fst zc, (n, consumed z (fst zc)) :: snd zc)) (ends ic a z c)
  | Bol => match before z with [] => [(z, c)] | _ => [] end
  | Eol => match after z with [] => [(z, c)] | _ => [] end
  | WordB => if atBoundary z then [(z, c)] else []
  | NotWordB => if atBoundary z then [] else [(z, c)]
  | LookBehind neg a =>
      let hit :=
        existsb (fun z0 =>
                   existsb (fun zc => index (fst zc) =? index z) (ends ic a z0 c))
                (leftsOf (before z) (after z)) in
      if xorb neg hit then [(z, c)] else []
  end.

(** ** Searching *)

Record found := Found { mstart : cursor; mend : cursor; mcaps : caps }.

Definition matched (m : found) : str := consumed (mstart m) (mend m).

Fixpoint lookup (n : nat) (c : caps) : option str :=
  match c with
  | [] => None
  | (k, v) :: c' => if k =? n then Some v else lookup n c'
  end.

Definition group (n : nat) (m : found) : str :=
  match lookup n (mcaps m) with Some v => v | None => [] end.

(** The leftmost position from which the pattern matches, scanning from the
    given position to the end of the subject. *)
Fixpoint searchFrom (ic : bool) (r : regex) (b a : str) : option found :=
  match ends ic r (Cur b a) [] with
  | (z1, c1) :: _ => Some (Found (Cur b a) z1 c1)
  | [] => match a with
          | [] => None
          | x :: a' => searchFrom ic r (x :: b) a'
          end
  end.

(** [re.test(s)] and the truth value of [s.match(re)] for a pattern without
    the [g] flag. *)
Definition test (ic : bool) (r : regex) (s : str) : bool :=
  match searchFrom ic r [] s with Some _ => true | None => false end.

(** [while ((match = re.exec(s)) !== null)] for a pattern with the [g] flag:
    each search resumes at [lastIndex], the end of the previous match.  Every
    round of a pattern that cannot match the empty string moves forward, so
    the length of the subject bounds the rounds ([execLoop_fuel]); the
    patterns of the program are of that kind ([loop_patterns_consume]). *)
Fixpoint execLoop (fuel : nat) (ic : bool) (r : regex) (b a : str) : list found :=
  match fuel with
  | O => []
  | S f =>
      match searchFrom ic r b a with
      | None => []
      | Some m => m :: execLoop f ic r (before (mend m)) (after (mend m))
      end
  end.

Definition execAll (ic : bool) (r : regex) (s : str) : list found :=
  execLoop (S (length s)) ic r [] s.

(** [s.match(re)] for a pattern with the [g] flag: as above, but an empty
    match moves [lastIndex] one code unit forward ([matchLoop_fuel]); [null]
    when nothing matches. *)
Fixpoint matchLoop (fuel : nat) (ic : bool) (r : regex) (b a : str) : list found :=
  match fuel with
  | O => []
  | S f =>
      match searchFrom ic r b a with
      | None => []
      | Some m =>
          m :: (if index (mend m) =? index (mstart m)
                then match after (mend m) with
                     | [] => []
                     | x :: a' => matchLoop f ic r (x :: before (mend m)) a'
                     end
                else matchLoop f ic r (before (mend m)) (after (mend m)))
      end
  end.

Definition matchAll (ic : bool) (r : regex) (s : str) : option (list found) :=
  match matchLoop (S (length s)) ic r [] s with
  | [] => None
  | l => Some l
  end.

(** Builders for the patterns written out below. *)
Definition lits (s : string) : list regex := map Chr (u s).
Definition mkSeq (l : list regex) : regex := fold_right Seq Empty l.
Fixpoint mkAlt (l : list regex) : regex :=
  match l with
  | [] => Empty
  | [a] => a
  | a :: l' => Alt a (mkAlt l')
  end.
Definition word (s : string) : regex := mkSeq (lits s).
Definition sp : regex := Class false [CEsc ESpace].
Definition wd : regex := Class false [CEsc EWord].

(** ** The [RegExp] constructor

    [new RegExp(source)] for the fragment of pattern syntax met in this
    program: characters, [.], [^], [$], [|], greedy [*], [+] and [?], groups
    [( )], [(?: )], [(?<! )] and [(?<= )], classes without ranges, the
    escapes [\b \B \s \S \w \W \d \D] and escaped punctuation, and a brace that
    opens no counted quantifier, which stands for itself.  A pattern the
    engine rejects is [SyntaxError]; a pattern using anything else (a class
    range, a lazy or counted quantifier, a look-ahead, a back-reference, a
    named group, another escape) is [OutsideFragment], about which nothing is
    stated. *)

(** How a computation ends: with a value, or with the exception it throws.
    [SystemError] is the error of a file-system call; the only one that is not
    caught in this program is the one of [fs.writeFileSync]. *)
Inductive completion (A : Type) :=
| Normal (a : A)
| SyntaxError
| OutsideFragment
| SystemError.
Arguments SyntaxError {A}.
Arguments OutsideFragment {A}.
Arguments SystemError {A}.

Definition bind {A B} (x : completion A) (k : A -> completion B) : completion B :=
  match x with
  | Normal a => k a
  | SyntaxError => SyntaxError
  | OutsideFragment => OutsideFragment
  | SystemError => SystemError
  end.

Notation "x <- e ;; k" := (bind e (fun x => k))
  (at level 61, e at next level, right associativity).

Inductive akind := Plain | Quantified | Assertion.
Inductive gkind := GTop | GCapture (n : nat) | GNonCapture | GLookBehind (neg : bool).
Inductive pmode :=
| MNormal
| MEscape
| MClass (neg : bool) (items : list citem)
| MClassStart
| MClassEscape (neg : bool) (items : list citem)
| MGroup
| MGroupQ
| MGroupQLt
| MBrace (buf : list char) (comma : bool).

(** A disjunction being read: its finished alternatives and the terms of the
    current one, both latest first. *)
Record frame := Frame { fkind : gkind; falts : list regex; fseq : list (akind * regex) }.

Record pstate := PState { mode : pmode; cur : frame; stack : list frame; ngroups : nat }.

Definition isChar (a : ascii) (c : char) : bool := N.eqb c (N_of_ascii a).
Definition oneOf (s : string) (c : char) : bool := existsb (N.eqb c) (u s).

(** The characters with a meaning of their own in a pattern. *)
Definition special (c : char) : bool := oneOf "\^$.*+?()[{|" c.
(** The punctuation an escape turns into itself. *)
Definition punct (c : char) : bool := oneOf "\^$.*+?()[]{}|/" c.

Definition closeSeq (f : frame) : regex := mkSeq (rev (map snd (fseq f))).
Definition closeFrame (f : frame) : regex := mkAlt (rev (closeSeq f :: falts f)).

Definition setMode (m : pmode) (st : pstate) : pstate :=
  PState m (cur st) (stack st) (ngroups st).

Definition pushTerm (k : akind) (r : regex) (st : pstate) : pstate :=
  PState MNormal (Frame (fkind (cur st)) (falts (cur st)) ((k, r) :: fseq (cur st)))
         (stack st) (ngroups st).

Definition openGroup (k : gkind) (st : pstate) : pstate :=
  PState MNormal (Frame k [] []) (cur st :: stack st) (ngroups st).

Definition openCapture (st : pstate) : pstate :=
  PState MNormal (Frame (GCapture (S (ngroups st))) [] []) (cur st :: stack st)
         (S (ngroups st)).

Definition closeGroup (st : pstate) : completion pstate :=
  match stack st with
  | [] => SyntaxError
  | parent :: rest =>
      let body := closeFrame (cur st) in
      let term :=
        match fkind (cur st) with
        | GCapture n => (Plain, Group n body)
        | GLookBehind neg => (Assertion, LookBehind neg body)
        | _ => (Plain, body)
        end in
      Normal (PState MNormal
                (Frame (fkind parent) (falts parent) (term :: fseq parent))
                rest (ngroups st))
  end.

Definition nextAlt (st : pstate) : pstate :=
  PState MNormal (Frame (fkind (cur st)) (closeSeq (cur st) :: falts (cur st)) [])
         (stack st) (ngroups st).

Definition quantify (q : regex -> regex) (lazy : bool) (st : pstate) : completion pstate :=
  match fseq (cur st) with
  | (Plain, a) :: s =>
      Normal (PState MNormal (Frame (fkind (cur st)) (falts (cur st)) ((Quantified, q a) :: s))
                (stack st) (ngroups st))
  | (Quantified, _) :: _ => if lazy then OutsideFragment else SyntaxError
  | (Assertion, _) :: _ => SyntaxError
  | [] => SyntaxError
  end.

Definition specialStep (st : pstate) (c : char) : completion pstate :=
  if isChar "(" c then Normal (setMode MGroup st)
  else if isChar ")" c then closeGroup st
  else if isChar "|" c then Normal (nextAlt st)
  else if isChar "*" c then quantify Star false st
  else if isChar "+" c then quantify Plus false st
  else if isChar "?" c then quantify Opt true st
  else if isChar "[" c then Normal (setMode MClassStart st)
  else if isChar "{" c then Normal (setMode (MBrace [] false) st)
  else if isChar "\" c then Normal (setMode MEscape st)
  else if isChar "^" c then Normal (pushTerm Assertion Bol st)
  else if isChar "$" c then Normal (pushTerm Assertion Eol st)
  else if isChar "." c then Normal (pushTerm Plain Any st)
  else OutsideFragment.

Definition normalStep (st : pstate) (c : char) : completion pstate :=
  if special c then specialStep st c else Normal (pushTerm Plain (Chr c) st).

Definition escapeStep (st : pstate) (c : char) : completion pstate :=
  if isChar "b" c then Normal (pushTerm Assertion WordB st)
  else if isChar "B" c then Normal (pushTerm Assertion NotWordB st)
  else if isChar "s" c then Normal (pushTerm Plain (Class false [CEsc ESpace]) st)
  else if isChar "S" c then Normal (pushTerm Plain (Class true [CEsc ESpace]) st)
  else if isChar "w" c then Normal (pushTerm Plain (Class false [CEsc EWord]) st)
  else if isChar "W" c then Normal (pushTerm Plain (Class true [CEsc EWord]) st)
  else if isChar "d" c then Normal (pushTerm Plain (Class false [CEsc EDigit]) st)
  else if isChar "D" c then Normal (pushTerm Plain (Class true [CEsc EDigit]) st)
  else if punct c then Normal (pushTerm Plain (Chr c) st)
  else OutsideFragment.

Definition classStep (neg : bool) (items : list citem) (st : pstate) (c : char)
    : completion pstate :=
  if isChar "]" c then Normal (pushTerm Plain (Class neg (rev items)) st)
  else if isChar "\" c then Normal (setMode (MClassEscape neg items) st)
  else if isChar "-" c then OutsideFragment
  else Normal (setMode (MClass neg (CChr c :: items)) st).

Definition classEscapeStep (neg : bool) (items : list citem) (st : pstate) (c : char)
    : completion pstate :=
  if isChar "s" c then Normal (setMode (MClass neg (CEsc ESpace :: items)) st)
  else if isChar "w" c then Normal (setMode (MClass neg (CEsc EWord :: items)) st)
  else if isChar "d" c then Normal (setMode (MClass neg (CEsc EDigit :: items)) st)
  else if (punct c || isChar "-" c)%bool then Normal (setMode (MClass neg (CChr c :: items)) st)
  else OutsideFragment.

(** After an opening brace: [buf] holds what followed it so far, latest
    first, as long as that can still become a counted quantifier ([{n}],
    [{n,}] or [{n,m}]).  When it cannot, the brace and what followed it are
    characters like any other. *)
Definition pushLiterals (buf : list char) (st : pstate) : pstate :=
  fold_left (fun s x => pushTerm Plain (Chr x) s) (N_of_ascii "{" :: rev buf) st.

Definition braceStep (buf : list char) (comma : bool) (st : pstate) (c : char)
    : completion pstate :=
  let started := match buf with [] => false | _ => true end in
  if isDigit c then Normal (setMode (MBrace (c :: buf) comma) st)
  else if (isChar "," c && negb comma && started)%bool
  then Normal (setMode (MBrace (c :: buf) true) st)
  else if (isChar "}" c && started)%bool
  then match fseq (cur st) with
       | (Plain, _) :: _ => OutsideFragment
       | _ => SyntaxError
       end
  else normalStep (pushLiterals buf st) c.

Definition pstep (st : pstate) (c : char) : completion pstate :=
  match mode st with
  | MNormal => normalStep st c
  | MBrace buf comma => braceStep buf comma st c
  | MEscape => escapeStep st c
  | MClassStart =>
      if isChar "^" c then Normal (setMode (MClass true []) st) else classStep false [] st c
  | MClass neg items => classStep neg items st c
  | MClassEscape neg items => classEscapeStep neg items st c
  | MGroup =>
      if isChar "?" c then Normal (setMode MGroupQ st) else normalStep (openCapture st) c
  | MGroupQ =>
      if isChar ":" c then Normal (openGroup GNonCapture st)
      else if isChar "<" c then Normal (setMode MGroupQLt st)
      else OutsideFragment
  | MGroupQLt =>
      if isChar "!" c then Normal (openGroup (GLookBehind true) st)
      else if isChar "=" c then Normal (openGroup (GLookBehind false) st)
      else OutsideFragment
  end.

Fixpoint psteps (st : pstate) (p : str) : completion pstate :=
  match p with
  | [] => Normal st
  | c :: p' => st' <- pstep st c ;; psteps st' p'
  end.

Definition pfinish (st : pstate) : completion regex :=
  match mode st, stack st with
  | MNormal, [] => Normal (closeFrame (cur st))
  | MBrace buf _, [] => Normal (closeFrame (cur (pushLiterals buf st)))
  | _, _ => SyntaxError
  end.

Definition pinit : pstate := PState MNormal (Frame GTop [] []) [] 0.

Definition RegExp (source : str) : completion regex :=
  st <- psteps pinit source ;; pfinish st.

(** ** String operations *)

Fixpoint trimStart (s : str) : str :=
  match s with
  | x :: s' => if isSpace x then trimStart s' else s
  | [] => []
  end.

Definition trim (s : str) : str := rev (trimStart (rev (trimStart s))).

(** [s.split(sep)] for a separator of one code unit. *)
Fixpoint splitOn (sep : char) (s : str) : list str :=
  match s with
  | [] => [[]]
  | x :: s' =>
      if N.eqb x sep then [] :: splitOn sep s'
      else match splitOn sep s' with
           | h :: t => (x :: h) :: t
           | [] => [[x]]
           end
  end.

(** [s.split(re)] for a pattern without capturing groups.  [piece] holds the
    code units between the end of the last separator and the position being
    tried, latest first; a separator that is empty and found where the piece
    starts is passed over ([splitLoop_fuel] for the bound). *)
Fixpoint splitLoop (fuel : nat) (r : regex) (piece b a : str) : list str :=
  match fuel with
  | O => [rev piece ++ a]
  | S f =>
      match a with
      | [] => [rev piece]
      | x :: a' =>
          match ends false r (Cur b a) [] with
          | [] => splitLoop f r (x :: piece) (x :: b) a'
          | (z1, _) :: _ =>
              match piece, index z1 =? length b with
              | [], true => splitLoop f r [x] (x :: b) a'
              | _, _ => rev piece :: splitLoop f r [] (before z1) (after z1)
              end
          end
      end
  end.

Definition split (r : regex) (s : str) : list str :=
  match s with
  | [] => match ends false r (Cur [] []) [] with [] => [[]] | _ => [] end
  | _ => splitLoop (S (2 * length s)) r [] [] s
  end.

Definition nonEmpty (s : str) : bool := match s with [] => false | _ => true end.

(** ** The patterns of the program

    The literals of the source, as the [RegExp] model reads them
    ([patterns_from_source]). *)

(** "/export\s+(?:const|let|var|function|class|async\s+function)\s+(\w+)/g" *)
Definition namedExportRegex : regex :=
  mkSeq (lits "export" ++
         [Plus sp;
          mkAlt [word "const"; word "let"; word "var"; word "function"; word "class";
                 mkSeq (lits "async" ++ Plus sp :: lits "function")];
          Plus sp; Group 1 (mkSeq [Plus wd])]).

(** "/export\s*\{([^}]+)\}/g" *)
Definition exportListRegex : regex :=
  mkSeq (lits "export" ++
         [Star sp; Chr (N_of_ascii "{");
          Group 1 (mkSeq [Plus (Class true [CChr (N_of_ascii "}")])]);
          Chr (N_of_ascii "}")]).

(** "/export\s+default\s+(?:function|class|async\s+function)\s+(\w+)/g" *)
Definition defaultNamedRegex : regex :=
  mkSeq (lits "export" ++ Plus sp :: lits "default" ++
         [Plus sp;
          mkAlt [word "function"; word "class";
                 mkSeq (lits "async" ++ Plus sp :: lits "function")];
          Plus sp; Group 1 (mkSeq [Plus wd])]).

(** "/(?<!export\s+)function\s+(\w+)\s*\(/g" *)
Definition funcRegex : regex :=
  mkSeq (LookBehind true (mkSeq (lits "export" ++ [Plus sp])) ::
         lits "function" ++
         [Plus sp; Group 1 (mkSeq [Plus wd]); Star sp; Chr (N_of_ascii "(")]).

(** The binding keyword and the optional [async] of the two arrow patterns. *)
Definition declKeyword : regex := mkAlt [word "const"; word "let"; word "var"].
Definition optAsync : regex := Opt (mkSeq (lits "async" ++ [Star sp])).

(** A binding of an arrow function with a parenthesised parameter list. *)
Definition arrowRegex : regex :=
  mkSeq [declKeyword; Plus sp; Group 1 (mkSeq [Plus wd]); Star sp; Chr (N_of_ascii "=");
         Star sp; optAsync; Chr (N_of_ascii "(");
         Star (Class true [CChr (N_of_ascii ")")]); Chr (N_of_ascii ")");
         Star sp; Chr (N_of_ascii "="); Chr (N_of_ascii ">")].

(** A binding of an arrow function with one bare parameter. *)
Definition arrowSimpleRegex : regex :=
  mkSeq [declKeyword; Plus sp; Group 1 (mkSeq [Plus wd]); Star sp; Chr (N_of_ascii "=");
         Star sp; optAsync; Plus wd;
         Star sp; Chr (N_of_ascii "="); Chr (N_of_ascii ">")].

(** "/\s+as\s+/" and "/\s*:\s*/" *)
Definition asRegex : regex := mkSeq (Plus sp :: lits "as" ++ [Plus sp]).
Definition colonRegex : regex := mkSeq [Star sp; Chr (N_of_ascii ":"); Star sp].

(** "/import\s*\{([^}]+)\}\s*from/g" *)
Definition namedImportRegex : regex :=
  mkSeq (lits "import" ++
         [Star sp; Chr (N_of_ascii "{");
          Group 1 (mkSeq [Plus (Class true [CChr (N_of_ascii "}")])]);
          Chr (N_of_ascii "}"); Star sp] ++ lits "from").

(** "/import\s+(\w+)\s+from/g" *)
Definition defaultImportRegex : regex :=
  mkSeq (lits "import" ++ [Plus sp; Group 1 (mkSeq [Plus wd]); Plus sp] ++ lits "from").

(** "/import\s+\*\s+as\s+(\w+)\s+from/g" *)
Definition namespaceImportRegex : regex :=
  mkSeq (lits "import" ++ [Plus sp; Chr (N_of_ascii "*"); Plus sp] ++ lits "as" ++
         [Plus sp; Group 1 (mkSeq [Plus wd]); Plus sp] ++ lits "from").

(** "/(?:const|let|var)\s+(?:\{([^}]+)\}|(\w+))\s*=\s*require\(/g" *)
Definition requireRegex : regex :=
  mkSeq (declKeyword :: Plus sp ::
         mkAlt [mkSeq [Chr (N_of_ascii "{");
                       Group 1 (mkSeq [Plus (Class true [CChr (N_of_ascii "}")])]);
                       Chr (N_of_ascii "}")];
                mkSeq [Group 2 (mkSeq [Plus wd])]] ::
         Star sp :: Chr (N_of_ascii "=") :: Star sp :: lits "require" ++ [Chr (N_of_ascii "(")]).

(** "/index\.[jt]sx?$/", "/main\.[jt]sx?$/" and "/app\.[jt]sx?$/i" *)
Definition extClass : regex := Class false [CChr (N_of_ascii "j"); CChr (N_of_ascii "t")].
Definition extTail : list regex := [Chr (N_of_ascii "."); extClass; Chr (N_of_ascii "s");
                                    Opt (Chr (N_of_ascii "x")); Eol].
Definition indexRegex : regex := mkSeq (lits "index" ++ extTail).
Definition mainRegex : regex := mkSeq (lits "main" ++ extTail).
Definition appRegex : regex := mkSeq (lits "app" ++ extTail).

(** ** Declarations *)

(** The objects pushed by the extractors: [{ name, type, file }]. *)
Inductive dtype := named | default | function | arrow.

Record decl := Decl { name : str; type : dtype; file : str }.

Definition comma : char := N_of_ascii ",".

(** The names of one export list: for each comma-separated entry, the part
    before a rename. *)
Definition exportListNames (inner : str) : list str :=
  filter nonEmpty
    (map (fun n =>
            let trimmed := trim n in
            let asParts := split asRegex trimmed in
            trim (hd [] asParts))
         (splitOn comma inner)).

Definition namedExports (content filePath : str) : list decl :=
  map (fun m => Decl (group 1 m) named filePath) (execAll false namedExportRegex content).

Definition listExports (content filePath : str) : list decl :=
  flat_map (fun m =>
              map (fun n => Decl n named filePath)
                  (filter (fun n => negb (eqs n (u "default")))
                          (exportListNames (group 1 m))))
           (execAll false exportListRegex content).

Definition defaultExports (content filePath : str) : list decl :=
  map (fun m => Decl (group 1 m) default filePath) (execAll false defaultNamedRegex content).

Definition extractExports (content filePath : str) : list decl :=
  namedExports content filePath ++ listExports content filePath
  ++ defaultExports content filePath.

Definition extractFunctions (content filePath : str) : list decl :=
  map (fun m => Decl (group 1 m) function filePath) (execAll false funcRegex content)
  ++ map (fun m => Decl (group 1 m) arrow filePath) (execAll false arrowRegex content)
  ++ map (fun m => Decl (group 1 m) arrow filePath) (execAll false arrowSimpleRegex content).

(** ** Imports *)

(** A JavaScript [Set] of strings: no duplicates, in insertion order. *)
Definition has (s : list str) (x : str) : bool := existsb (eqs x) s.
Definition add (s : list str) (x : str) : list str := if has s x then s else s ++ [x].
Definition addAll (s : list str) (xs : list str) : list str := fold_left add xs s.

(** The names of one import list: for each entry, the part after a rename. *)
Definition importListNames (inner : str) : list str :=
  filter nonEmpty
    (map (fun n =>
            let trimmed := trim n in
            let asParts := split asRegex trimmed in
            trim (last asParts []))
         (splitOn comma inner)).

(** The names of one destructured [require]: for each entry, the part
    before a colon. *)
Definition requireListNames (inner : str) : list str :=
  filter nonEmpty (map (fun n => hd [] (split colonRegex (trim n))) (splitOn comma inner)).

(** Truth value of a string that may be [undefined]. *)
Definition truthy (v : option str) : bool :=
  match v with Some (_ :: _) => true | _ => false end.

Definition requireNames (m : found) : list str :=
  if truthy (lookup 1 (mcaps m)) then requireListNames (group 1 m)
  else if truthy (lookup 2 (mcaps m)) then [group 2 m]
  else [].

Definition findImports (content : str) : list str :=
  let imports := [] in
  let imports :=
    addAll imports (flat_map (fun m => importListNames (group 1 m))
                             (execAll false namedImportRegex content)) in
  let imports :=
    addAll imports (map (group 1) (execAll false defaultImportRegex content)) in
  let imports :=
    addAll imports (map (group 1) (execAll false namespaceImportRegex content)) in
  addAll imports (flat_map requireNames (execAll false requireRegex content)).

(** ** The scan *)

(** The options read by the scan: [--exports-only] and [--output]. *)
Record options := Options { exportsOnly : bool; output : option str }.

(** A JavaScript [Map] from paths to contents: [set] replaces the value of a
    key already present and keeps its place. *)
Fixpoint Map_set (m : list (str * str)) (k v : str) : list (str * str) :=
  match m with
  | [] => [(k, v)]
  | (k', v') :: m' => if eqs k' k then (k, v) :: m' else (k', v') :: Map_set m' k v
  end.

Fixpoint Map_get (m : list (str * str)) (k : str) : option str :=
  match m with
  | [] => None
  | (k', v) :: m' => if eqs k' k then Some v else Map_get m' k
  end.

(** What the first pass collects. *)
Record collected := Collected {
  allExports : list decl;
  allFunctions : list decl;
  fileContents : list (str * str) }.

(** The JSON report and its entries. *)
Record entry := Entry { ename : str; etype : dtype; efile : str }.

Record report := Report {
  timestamp : str;
  filesScanned : nat;
  totalExports : nat;
  totalFunctions : option nat;
  r_unusedExports : list entry;
  r_unusedFunctions : option (list entry) }.

(** What a run that returns has computed, and the report it wrote, if any. *)
Record outcome := Outcome {
  collectedDecls : collected;
  unusedExports : list decl;
  unusedFunctions : list decl;
  written : option report }.

Fixpoint foldM {A B} (f : B -> A -> completion B) (l : list A) (acc : B) : completion B :=
  match l with
  | [] => Normal acc
  | x :: l' => acc' <- f acc x ;; foldM f l' acc'
  end.

(** The condition under which the exports check skips a declaration. *)
Definition isEntryPoint (relPath : str) : bool :=
  (test false indexRegex relPath || test false mainRegex relPath
   || test true appRegex relPath)%bool.

(** The sources of the patterns built from a name by template literals. *)
Definition wordBoundaryOf (nm : str) : str := u "\b" ++ nm ++ u "\b".
Definition callPatternOf (nm : str) : str := u "\b" ++ nm ++ u "\s*\(".
Definition refPatternOf (nm : str) : str := u "[^\w]" ++ nm ++ u "[^\w(]".

(** [findUsages], which the scan never calls: the number of places where
    the name stands as a word of its own and not directly behind one of the
    declaring keywords listed in the look-behind.  The two paths are not
    used. *)
Definition usagePatternOf (nm : str) : str :=
  u "(?<!(?:export\s+(?:const|let|var|function|class|async\s+function)\s+|function\s+|const|let|var\s+))\b"
  ++ nm ++ u "\b".

Definition findUsages (nm content definingFile currentFile : str) : completion nat :=
  usageRegex <- RegExp (usagePatternOf nm) ;;
  Normal (match matchAll false usageRegex content with
          | Some matches => length matches
          | None => 0
          end).

(** ** The files to scan *)

(** The options read by [scanFiles]: [--dir], [--extensions] and [--ignore],
    strings all three (the last one empty unless given). *)
Module Search.
Record options := Options { dir : str; extensions : str; ignore : str }.
End Search.

(** The patterns that are always ignored. *)
Definition defaultIgnores : list str :=
  [u "**/node_modules/**"; u "**/dist/**"; u "**/build/**"; u "**/.git/**";
   u "**/coverage/**"; u "**/*.test.*"; u "**/*.spec.*"; u "**/__tests__/**";
   u "**/*.d.ts"].

(** [scanFiles], with the [glob] of the library taken from outside: it gets
    the patterns to match and the patterns to ignore. *)
Definition scanFiles (glob : list str -> list str -> list str) (opts : Search.options)
    : list str :=
  let extensions := map trim (splitOn comma (Search.extensions opts)) in
  let patterns := map (fun ext => Search.dir opts ++ u "/**/*." ++ ext) extensions in
  let ignorePatterns := defaultIgnores in
  let ignorePatterns :=
    if nonEmpty (Search.ignore opts)
    then ignorePatterns ++ map trim (splitOn comma (Search.ignore opts))
    else ignorePatterns in
  glob patterns ignorePatterns.

Section Scan.

(** What the scan takes from outside: [path.relative(opts.dir, .)], the result
    of [fs.readFileSync] ([None] when it throws), whether [fs.writeFileSync]
    to a path returns ([false] when it throws), the options, the paths
    returned by [scanFiles] and the time of the run. *)
Variable relative : str -> str.
Variable readFileSync : str -> option str.
Variable writeFileSync : str -> bool.
Variable opts : options.
Variable files : list str.
Variable now : str.

(** First pass, one path: an unreadable file is skipped. *)
Definition collectFile (acc : collected) (f : str) : collected :=
  match readFileSync f with
  | None => acc
  | Some content =>
      Collected (allExports acc ++ extractExports content f)
                (allFunctions acc ++
                 (if exportsOnly opts then [] else extractFunctions content f))
                (Map_set (fileContents acc) f content)
  end.

Definition collect : collected := fold_left collectFile files (Collected [] [] []).

(** The body of the loop over [fileContents] in the exports check. *)
Definition countUsage (exp : decl) (totalUsages : nat) (fc : str * str) : completion nat :=
  let (f, content) := fc in
  if eqs f (file exp) then Normal totalUsages
  else
    let imports := findImports content in
    let totalUsages := if has imports (name exp) then S totalUsages else totalUsages in
    regex <- RegExp (wordBoundaryOf (name exp)) ;;
    Normal (if (test false regex content && negb (eqs f (file exp)))%bool
            then S totalUsages else totalUsages).

(** The body of the loop over [allExports]. *)
Definition checkExport (c : collected) (unused : list decl) (exp : decl)
    : completion (list decl) :=
  let relPath := relative (file exp) in
  if isEntryPoint relPath then Normal unused
  else
    totalUsages <- foldM (countUsage exp) (fileContents c) 0 ;;
    Normal (if totalUsages =? 0 then unused ++ [exp] else unused).

(** [allExports.some(e => e.name === func.name && e.file === func.file)] *)
Definition alsoExported (c : collected) (func : decl) : bool :=
  existsb (fun e => (eqs (name e) (name func) && eqs (file e) (file func))%bool)
          (allExports c).

(** The body of the loop over [allFunctions]. *)
Definition checkFunction (c : collected) (unused : list decl) (func : decl)
    : completion (list decl) :=
  if alsoExported c func then Normal unused
  else
    match Map_get (fileContents c) (file func) with
    | None | Some [] => Normal unused
    | Some content =>
        funcNameRegex <- RegExp (callPatternOf (name func)) ;;
        let matches := matchAll false funcNameRegex content in
        let usageCount := match matches with Some l => length l - 1 | None => 0 end in
        if usageCount <=? 0 then
          refRegex <- RegExp (refPatternOf (name func)) ;;
          match matchAll false refRegex content with
          | None | Some [] => Normal (unused ++ [func])
          | Some _ => Normal unused
          end
        else Normal unused
    end.

Definition toEntry (d : decl) : entry := Entry (name d) (type d) (relative (file d)).

(** The path given to [--output], when there is one. *)
Definition outputPath : str := match output opts with Some p => p | None => [] end.

(** The two checks and the report.  A [SyntaxError] thrown by [new RegExp]
    leaves both loops and rejects the promise of [main]; so does the error of
    [fs.writeFileSync], which nothing catches either. *)
Definition main : completion outcome :=
  let c := collect in
  unusedExports <- foldM (checkExport c) (allExports c) [] ;;
  unusedFunctions <-
    (if exportsOnly opts then Normal [] else foldM (checkFunction c) (allFunctions c) []) ;;
  let totalExports := length (allExports c) in
  let totalFunctions := length (allFunctions c) in
  if ((length unusedExports =? 0) && (length unusedFunctions =? 0))%bool
  then Normal (Outcome c unusedExports unusedFunctions None)
  else if truthy (output opts)
  then
    let report :=
      Report now (length files) totalExports
        (if exportsOnly opts then None else Some totalFunctions)
        (map toEntry unusedExports)
        (if exportsOnly opts then None else Some (map toEntry unusedFunctions)) in
    if writeFileSync outputPath
    then Normal (Outcome c unusedExports unusedFunctions (Some report))
    else SystemError
  else Normal (Outcome c unusedExports unusedFunctions None).

End Scan.

(** * Notions used in the statements *)

Unset Implicit Arguments.

(** ** Positions, runs and captures *)

(** [reach z z1]: [z1] is [z] moved right over some run of code units;
    [moved run z z1] names the run. *)
Definition reach (z z1 : cursor) : Prop :=
  exists run, after z = run ++ after z1 /\ before z1 = rev run ++ before z.

Definition moved (run : str) (z z1 : cursor) : Prop :=
  after z = run ++ after z1 /\ before z1 = rev run ++ before z.

(** Patterns without capturing groups. *)
Fixpoint groupFree (r : regex) : bool :=
  match r with
  | Seq a b | Alt a b => (groupFree a && groupFree b)%bool
  | Star a | Plus a | Opt a => groupFree a
  | Group _ _ => false
  | _ => true
  end.

(** The least number of code units a match consumes. *)
Fixpoint minLen (r : regex) : nat :=
  match r with
  | Chr _ | Any | Class _ _ => 1
  | Seq a b => minLen a + minLen b
  | Alt a b => Nat.min (minLen a) (minLen b)
  | Plus a | Group _ a => minLen a
  | _ => 0
  end.

(** Whether the pattern matches from the position between [b] and [a]. *)
Definition matchesAt (ic : bool) (r : regex) (b a : str) : bool :=
  match ends ic r (Cur b a) [] with [] => false | _ => true end.

(** ** Names and the patterns built from them *)

(** A name free of pattern syntax, and a name of word characters only. *)
Definition plain (nm : str) : bool := forallb (fun c => negb (special c)) nm.
Definition wordOnly (nm : str) : bool := forallb isWord nm.

(** Identifiers, as [(\w+)] captures them, and runs of white space. *)
Definition identifier (w : str) : Prop := w <> [] /\ wordOnly w = true.
Definition blank (w : str) : Prop := forallb isSpace w = true.

(** The parser state after reading a name free of pattern syntax. *)
Definition pushChars (nm : str) (st : pstate) : pstate :=
  PState MNormal
    (Frame (fkind (cur st)) (falts (cur st))
           (rev (map (fun c => (Plain, Chr c)) nm) ++ fseq (cur st)))
    (stack st) (ngroups st).

(** The three patterns the scan builds from a name, when the name is free
    of pattern syntax: [\bname\b], [\bname\s*\(] and [[^\w]name[^\w(]]. *)
Definition wordBoundaryRegex (nm : str) : regex := mkSeq (WordB :: map Chr nm ++ [WordB]).
Definition callRegex (nm : str) : regex :=
  mkSeq (WordB :: map Chr nm ++ [Star sp; Chr (N_of_ascii "(")]).
Definition notWordClass : regex := Class true [CEsc EWord].
Definition notWordOrParen : regex := Class true [CEsc EWord; CChr (N_of_ascii "(")].
Definition refRegex (nm : str) : regex := mkSeq (notWordClass :: map Chr nm ++ [notWordOrParen]).

(** [declSite x s nm]: somewhere in [s] the word [nm] stands after a
    white-space character and before optional white space and [x]. *)
Definition declSite (x : char) (s nm : str) : Prop :=
  exists pre sp0 ws post,
    s = pre ++ sp0 :: nm ++ ws ++ x :: post
    /\ isSpace sp0 = true /\ forallb isSpace ws = true
    /\ nm <> [] /\ wordOnly nm = true.

(** The shape shared by [funcRegex], [arrowRegex] and [arrowSimpleRegex]:
    white space, the captured name, optional white space and [x]. *)
Definition binder (x : char) (pre rest : list regex) : regex :=
  mkSeq (pre ++ Plus sp :: Group 1 (mkSeq [Plus wd]) :: Star sp :: Chr x :: rest).

(** The number of matches of the call scan in a file. *)
Definition callCount (nm content : str) : nat :=
  match matchAll false (callRegex nm) content with Some l => length l | None => 0 end.

(** [wholeWord nm s]: the text [nm] occurs in [s] with a word boundary on
    either side. *)
Definition wholeWord (nm s : str) : Prop :=
  exists pre post,
    s = pre ++ nm ++ post
    /\ atBoundary (Cur (rev pre) (nm ++ post)) = true
    /\ atBoundary (Cur (rev nm ++ rev pre) post) = true.

(** ** Export lists *)


(** What the import-list loop makes of one comma-separated entry. *)
Definition importEntryName (n : str) : str :=
  let trimmed := trim n in
  let asParts := split asRegex trimmed in
  trim (last asParts []).


(** [items.join(sep)]. *)
Fixpoint join (sep : char) (items : list str) : str :=
  match items with
  | [] => []
  | [i] => i
  | i :: rest => i ++ sep :: join sep rest
  end.

(** A text that neither starts nor ends with white space. *)
Definition solidEnds (body : str) : Prop :=
  (exists h t, body = h :: t /\ isSpace h = false)
  /\ (exists l t, rev body = l :: t /\ isSpace l = false).

(** ** Entry points *)

(** [sameText ic w t]: [t] is the text [w], up to the case of ASCII letters
    when [ic] is set. *)
Fixpoint sameText (ic : bool) (w t : str) : bool :=
  match w, t with
  | [], [] => true
  | a :: w', x :: t' => (chrMatch ic a x && sameText ic w' t')%bool
  | _, _ => false
  end.

Definition extensions : list str := [u ".js"; u ".jsx"; u ".ts"; u ".tsx"].

(** [t] is [base] followed by one of the extensions. *)
Definition tailOf (ic : bool) (base : string) (t : str) : bool :=
  existsb (fun e => sameText ic (u base ++ e) t) extensions.

(** The file-name endings that make a path an entry point. *)
Definition entryTail (t : str) : bool :=
  (tailOf false "index" t || tailOf false "main" t || tailOf true "app" t)%bool.

(** ** The checks, one declaration at a time *)

(** The loops of the two checks push the declarations that a test flags;
    [flagExport] and [flagFunction] are these tests. *)
Definition flagged {A} (flag : A -> completion bool) (x : A) : bool :=
  match flag x with Normal true => true | _ => false end.

(** What the first pass collects from one path. *)
Definition exportsOfFile (readFileSync : str -> option str) (f : str) : list decl :=
  match readFileSync f with Some c => extractExports c f | None => [] end.

Definition functionsOfFile (readFileSync : str -> option str) (opts : options) (f : str)
    : list decl :=
  match readFileSync f with
  | Some c => if exportsOnly opts then [] else extractFunctions c f
  | None => []
  end.

Definition flagFunction (c : collected) (func : decl) : completion bool :=
  if alsoExported c func then Normal false
  else
    match Map_get (fileContents c) (file func) with
    | None | Some [] => Normal false
    | Some content =>
        funcNameRegex <- RegExp (callPatternOf (name func)) ;;
        let matches := matchAll false funcNameRegex content in
        let usageCount := match matches with Some l => length l - 1 | None => 0 end in
        if usageCount <=? 0 then
          refRegex <- RegExp (refPatternOf (name func)) ;;
          Normal (match matchAll false refRegex content with
                  | None | Some [] => true
                  | Some _ => false
                  end)
        else Normal false
    end.

Definition flagExport (relative : str -> str) (c : collected) (exp : decl)
    : completion bool :=
  if isEntryPoint (relative (file exp)) then Normal false
  else
    totalUsages <- foldM (countUsage exp) (fileContents c) 0 ;;
    Normal (totalUsages =? 0).

(** Whether one other file uses the name, once the pattern has compiled. *)
Definition usedIn (exp : decl) (regex : regex) (fc : str * str) : bool :=
  (negb (eqs (fst fc) (file exp))
   && (has (findImports (snd fc)) (name exp) || test false regex (snd fc)))%bool.

(** What the exports check needs of another file to keep a declaration
    unused: the name is not among its imports, and the pattern built from the
    name compiles and finds nothing in its text. *)
Definition notUsedBy (e : decl) (fc : str * str) : Prop :=
  has (findImports (snd fc)) (name e) = false
  /\ exists rg, RegExp (wordBoundaryOf (name e)) = Normal rg
                /\ test false rg (snd fc) = false.

(** Whether the file of a declaration exports its name. *)
Definition exportedInFile (content : str) (d : decl) : bool :=
  existsb (fun e => eqs (name e) (name d)) (extractExports content (file d)).

(** ** The content of a run *)



(** A run that ends in the error of [fs.writeFileSync]: there was an output
    path, and the write to it threw. *)
Definition writeFails (writeFileSync : str -> bool) (opts : options)
    (run : completion outcome) : Prop :=
  run = SystemError
  /\ truthy (output opts) = true
  /\ writeFileSync (outputPath opts) = false.

(** ** Scenarios *)

(** Runs on a file system given as a list of paths and contents, scanned
    from the current directory. *)
Definition cwd (p : str) : str := p.

Definition disk (l : list (str * str)) (f : str) : option str :=
  match find (fun e => eqs (fst e) f) l with
  | Some e => Some (snd e)
  | None => None
  end.

Definition paths (l : list (str * str)) : list str := map fst l.

(** Every output path can be written, or none. *)
Definition writes (p : str) : bool := true.
Definition readOnly (p : str) : bool := false.

Definition scan (eo : bool) (out : option str) (l : list (str * str))
    : completion outcome :=
  main cwd (disk l) writes (Options eo out) (paths l) (u "2024-01-01T00:00:00.000Z").

Definition arrowProject : list (str * str) :=
  [(u "src/a.js", u "const twice = (x) => x * 2; function idle(){ return 0 }")].

Definition arrowOutcome : outcome :=
  match scan false None arrowProject with
  | Normal out => out
  | _ => Outcome (Collected [] [] []) [] [] None
  end.

Definition dualProject : list (str * str) :=
  [(u "src/lib.js", u "function helper(){ return 1 } function spare(){ return 2 } export { helper }");
   (u "src/other.js", u "let z = 3")].

Definition dualOutcome : outcome :=
  match scan false None dualProject with
  | Normal out => out
  | _ => Outcome (Collected [] [] []) [] [] None
  end.

Definition mixedProject : list (str * str) :=
  [(u "src/util.js", u "export function helper(){ return 1 } function spare(){ return 2 }");
   (u "src/other.js", u "const pick = (x) => x")].

Definition exportsOnlyOutcome : outcome :=
  match scan true (Some (u "dead-code.json")) mixedProject with
  | Normal out => out
  | _ => Outcome (Collected [] [] []) [] [] None
  end.

Definition entryProject : list (str * str) :=
  [(u "src/util.ts", u "export function helper(){ return 1; }");
   (u "src/main.ts", u "export const unused = 2;");
   (u "src/myindex.ts", u "export const other = 3;")].

Definition entryOutcome : outcome :=
  match scan false None entryProject with
  | Normal out => out
  | _ => Outcome (Collected [] [] []) [] [] None
  end.

Definition callsProject : list (str * str) :=
  [(u "src/a.js", u "function idle(){ return 0 } function busy(){ return 1 } busy();")].

Definition callsOutcome : outcome :=
  match scan false None callsProject with
  | Normal out => out
  | _ => Outcome (Collected [] [] []) [] [] None
  end.

Definition unescapedProject : list (str * str) :=
  [(u "src/a.js", u "export { foo /* ( */ }");
   (u "src/b.js", u "let z = 1")].

Definition renamedList : str := u "export { a, b as c, default as d }".

Definition renamedMatch : found :=
  match execAll false exportListRegex renamedList with
  | m :: _ => m
  | [] => Found (Cur [] []) (Cur [] []) []
  end.

(** ** Files that cannot be read *)

(** The paths whose content the first pass gets. *)
Definition readable (readFileSync : str -> option str) (files : list str) : list str :=
  filter (fun f => match readFileSync f with Some _ => true | None => false end) files.

(** An outcome with another number of scanned files in the written report. *)
Definition recount (n : nat) (out : outcome) : outcome :=
  Outcome (collectedDecls out) (unusedExports out) (unusedFunctions out)
    (option_map (fun r => Report (timestamp r) n (totalExports r) (totalFunctions r)
                                 (r_unusedExports r) (r_unusedFunctions r))
                (written out)).

(** A scan of [mixedProject] handed one more path, which is not on disk. *)
Definition goneFiles : list str := paths mixedProject ++ [u "src/gone.js"].

Definition goneOutcome : outcome :=
  match main cwd (disk mixedProject) writes (Options false (Some (u "dead-code.json")))
             goneFiles (u "2024-01-01T00:00:00.000Z") with
  | Normal out => out
  | _ => Outcome (Collected [] [] []) [] [] None
  end.

(** A project of one file, whose export list has a name that is no pattern. *)
Definition loneProject : list (str * str) :=
  [(u "src/a.js", u "export { foo /* ( */ }; export const bar = 1")].

(** Two modules exporting the same name and a third importing it from one
    of them. *)
Definition sharedNameProject : list (str * str) :=
  [(u "src/a.js", u "export const load = 1");
   (u "src/b.js", u "export const load = 2; export const save = 3");
   (u "src/c.js", u "import { load } from './a'")].

(** An export list whose entry holds a brace, and a file that does not
    mention it. *)
Definition braceProject : list (str * str) :=
  [(u "src/a.js", u "export { a{ }"); (u "src/b.js", u "let z = 1")].

Definition braceOutcome : outcome :=
  match scan false None braceProject with
  | Normal out => out
  | _ => Outcome (Collected [] [] []) [] [] None
  end.

Definition sharedNameOutcome : outcome :=
  match scan false None sharedNameProject with
  | Normal out => out
  | _ => Outcome (Collected [] [] []) [] [] None
  end.

(** ** Declaration sites, by position *)

(** [afterExport pre]: the text [pre] ends with [export] and white space. *)
Definition afterExport (pre : str) : Prop :=
  exists p ws, pre = p ++ u "export" ++ ws /\ ws <> [] /\ blank ws.

(** [funcSite s pre nm]: after [pre], the text [s] goes on with [function],
    white space, the word [nm], optional white space and an opening
    parenthesis. *)
Definition funcSite (s pre nm : str) : Prop :=
  exists ws1 ws2 post,
    s = pre ++ u "function" ++ ws1 ++ nm ++ ws2 ++ N_of_ascii "(" :: post
    /\ ws1 <> [] /\ blank ws1 /\ blank ws2 /\ identifier nm.

(** [exportSite s nm]: somewhere after an [export] of [s] the word [nm]
    stands after a white-space character, and no word character follows it. *)
Definition exportSite (s nm : str) : Prop :=
  exists pre mid sp0 post,
    s = pre ++ u "export" ++ mid ++ sp0 :: nm ++ post
    /\ isSpace sp0 = true /\ identifier nm
    /\ match post with [] => True | x :: _ => isWord x = false end.

(** The shape shared by [namedExportRegex] and [defaultNamedRegex]: the
    captured name comes last, after white space. *)
Definition tailBinder (pre : list regex) : regex :=
  mkSeq (pre ++ [Plus sp; Group 1 (mkSeq [Plus wd])]).

(** ** The pattern of [findUsages] *)

(** What must not stand directly before a counted occurrence. *)
Definition usageGuard : regex :=
  mkSeq [mkAlt [mkSeq (lits "export" ++
                       [Plus sp;
                        mkAlt [word "const"; word "let"; word "var"; word "function";
                               word "class";
                               mkSeq (lits "async" ++ Plus sp :: lits "function")];
                        Plus sp]);
                mkSeq (lits "function" ++ [Plus sp]);
                word "const"; word "let";
                mkSeq (lits "var" ++ [Plus sp])]].

Definition usageRegex (nm : str) : regex :=
  mkSeq (LookBehind true usageGuard :: WordB :: map Chr nm ++ [WordB]).

(** ** Pieces of a text *)

(** [infix a b]: the text [a] is a contiguous piece of [b]. *)
Definition infix (a b : str) : Prop := exists p q, b = p ++ a ++ q.

(** The captures of [c1] that [c] does not have are pieces of [s]. *)
Definition capturedFrom (s : str) (c c1 : caps) : Prop :=
  forall n v, lookup n c1 = Some v -> lookup n c = Some v \/ infix v s.

(** ** Declarations that are found *)

(** The alternatives of keywords in [namedExportRegex]. *)
Definition exportKeywords : regex :=
  mkAlt [word "const"; word "let"; word "var"; word "function"; word "class";
         mkSeq (lits "async" ++ Plus sp :: lits "function")].

(** The texts these alternatives stand for. *)
Definition declaring (kw : str) : Prop :=
  In kw [u "const"; u "let"; u "var"; u "function"; u "class"]
  \/ exists ws, ws <> [] /\ blank ws /\ kw = u "async" ++ ws ++ u "function".

(** ** Discovery order and option lists *)



(** [padded body e]: the entry [e] of a comma-separated option is [body]
    with white space around it, where [body] neither starts nor ends with
    white space. *)
Definition padded (body e : str) : Prop :=
  exists lead trail,
    blank lead /\ blank trail /\ e = lead ++ body ++ trail
    /\ (body = [] \/ solidEnds body).

(** A command line that spaces its lists out. *)
Definition spacedOptions : Search.options :=
  Search.Options (u "src") (u " js, ts ,jsx") (u "tmp , **/*.min.js").

(** A file whose only function is defined with a space before its
    parameter list, and the same file without the space. *)
Definition spacedProject : list (str * str) := [(u "src/a.js", u "function idle (){}")].
Definition tightProject : list (str * str) := [(u "src/a.js", u "function idle(){}")].

(** The number of places of [s] at which the text [w] starts. *)
Fixpoint startsWith (w s : str) : bool :=
  match w, s with
  | [], _ => true
  | a :: w', x :: s' => (N.eqb a x && startsWith w' s')%bool
  | _ :: _, [] => false
  end.

Fixpoint occurrences (w s : str) : nat :=
  match s with
  | [] => 0
  | _ :: s' => (if startsWith w s then 1 else 0) + occurrences w s'
  end.

(** * Properties of the matcher *)

Lemma eqs_eq (a b : str) : eqs a b = true <-> a = b.
Proof.
  revert b; induction a as [|x a IH]; intros [|y b]; simpl; split; intro H;
    try discriminate; try reflexivity.
  - apply andb_true_iff in H as [Hx Hs]. apply N.eqb_eq in Hx. apply IH in Hs.
    now subst.
  - injection H as -> ->. rewrite N.eqb_refl. simpl. now apply IH.
Qed.

Lemma eqs_refl (a : str) : eqs a a = true.
Proof. now apply eqs_eq. Qed.

Lemma eqs_neq (a b : str) : eqs a b = false <-> a <> b.
Proof.
  split; intro H.
  - intro E. apply eqs_eq in E. congruence.
  - destruct (eqs a b) eqn:E; [|reflexivity]. apply eqs_eq in E. contradiction.
Qed.

Lemma reach_refl z : reach z z.
Proof. now exists []. Qed.

Lemma reach_trans z1 z2 z3 : reach z1 z2 -> reach z2 z3 -> reach z1 z3.
Proof.
  intros (r1 & A1 & B1) (r2 & A2 & B2). exists (r1 ++ r2). split.
  - rewrite A1, A2. now rewrite app_assoc.
  - rewrite B2, B1, rev_app_distr. now rewrite app_assoc.
Qed.

Lemma reach_subject z z1 : reach z z1 -> subject z1 = subject z.
Proof.
  intros (run & A & B). unfold subject. rewrite A, B, rev_app_distr, rev_involutive.
  now rewrite app_assoc.
Qed.

Lemma reach_length z z1 : reach z z1 -> length (after z1) <= length (after z).
Proof. intros (run & A & _). rewrite A, length_app. lia. Qed.

Lemma reach_index z z1 : reach z z1 -> index z <= index z1.
Proof. intros (run & _ & B). unfold index. rewrite B, length_app. lia. Qed.

Lemma step1_in p z c z1 c1 :
  In (z1, c1) (step1 p z c) <->
  exists x, after z = x :: after z1 /\ before z1 = x :: before z /\ p x = true /\ c1 = c.
Proof.
  unfold step1. destruct z as [b a]; simpl. destruct a as [|x rest].
  - split; [intros []|]. intros (x & H & _). discriminate.
  - destruct (p x) eqn:P; simpl; split.
    + intros [H|[]]. injection H as <- <-. exists x. simpl. auto.
    + intros (y & A & B & Py & ->). injection A as <- A. left.
      destruct z1 as [b1 a1]; simpl in *. now subst.
    + intros [].
    + intros (y & A & B & Py & ->). injection A as <- A. congruence.
Qed.

Lemma step1_reach p z c z1 c1 : In (z1, c1) (step1 p z c) -> reach z z1.
Proof.
  intro H. apply step1_in in H as (x & A & B & _). exists [x]. simpl. auto.
Qed.

Lemma star_reach body fuel :
  (forall z c z1 c1, In (z1, c1) (body z c) -> reach z z1) ->
  forall z c z1 c1, In (z1, c1) (star body fuel z c) -> reach z z1.
Proof.
  intro Hb. induction fuel as [|f IH]; intros z c z1 c1 H; simpl in H.
  - destruct H as [H|[]]. injection H as <- _. apply reach_refl.
  - apply in_app_or in H as [H|[H|[]]].
    + apply in_flat_map in H as ([z2 c2] & H2 & H). apply filter_In in H2 as [H2 _].
      eapply reach_trans; [eapply Hb; eassumption|]. eapply IH; eassumption.
    + injection H as <- _. apply reach_refl.
Qed.

Lemma ends_reach ic r : forall z c z1 c1, In (z1, c1) (ends ic r z c) -> reach z z1.
Proof.
  induction r; intros z c0 z1 c1 H; simpl in H;
    try (eapply step1_reach; eassumption).
  - destruct H as [H|[]]. injection H as <- _. apply reach_refl.
  - apply in_flat_map in H as ([z2 c2] & H2 & H).
    eapply reach_trans; [eapply IHr1|eapply IHr2]; eassumption.
  - apply in_app_or in H as [H|H]; [eapply IHr1|eapply IHr2]; eassumption.
  - eapply star_reach; eassumption.
  - apply in_flat_map in H as ([z2 c2] & H2 & H).
    eapply reach_trans; [eapply IHr; eassumption|]. eapply star_reach; eassumption.
  - apply in_app_or in H as [H|[H|[]]].
    + apply filter_In in H as [H _]. eapply IHr; eassumption.
    + injection H as <- _. apply reach_refl.
  - apply in_map_iff in H as ([z2 c2] & E & H). injection E as <- _.
    eapply IHr; eassumption.
  - destruct (before z); [|destruct H]. destruct H as [H|[]]. injection H as <- _.
    apply reach_refl.
  - destruct (after z); [|destruct H]. destruct H as [H|[]]. injection H as <- _.
    apply reach_refl.
  - destruct (atBoundary z); [|destruct H]. destruct H as [H|[]]. injection H as <- _.
    apply reach_refl.
  - destruct (atBoundary z); [destruct H|]. destruct H as [H|[]]. injection H as <- _.
    apply reach_refl.
  - match type of H with In _ (if ?b then _ else _) => destruct b end; [|destruct H].
    destruct H as [H|[]]. injection H as <- _. apply reach_refl.
Qed.

(** ** Searching *)

Lemma searchFrom_some ic r : forall a b m,
  searchFrom ic r b a = Some m ->
  reach (Cur b a) (mstart m) /\
  exists rest, ends ic r (mstart m) [] = (mend m, mcaps m) :: rest.
Proof.
  induction a as [|x a IH]; intros b m H; simpl in H.
  - destruct (ends ic r (Cur b []) []) as [|[z1 c1] rest] eqn:E; [discriminate|].
    injection H as <-. simpl. split; [apply reach_refl|]. now exists rest.
  - destruct (ends ic r (Cur b (x :: a)) []) as [|[z1 c1] rest] eqn:E.
    + apply IH in H as [R H]. split; [|exact H].
      eapply reach_trans; [|exact R]. exists [x]. simpl. auto.
    + injection H as <-. simpl. split; [apply reach_refl|]. now exists rest.
Qed.

Lemma searchFrom_none ic r : forall a b,
  searchFrom ic r b a = None ->
  forall z, reach (Cur b a) z -> ends ic r z [] = [].
Proof.
  induction a as [|x a IH]; intros b H z (run & A & B); simpl in *.
  - destruct (ends ic r (Cur b []) []) as [|[z1 c1] rest] eqn:E; [|discriminate].
    destruct run; [|discriminate]. simpl in *. destruct z as [zb za]; simpl in *.
    now subst.
  - destruct (ends ic r (Cur b (x :: a)) []) as [|[z1 c1] rest] eqn:E; [|discriminate].
    destruct run as [|y run]; simpl in *.
    + destruct z as [zb za]; simpl in *. now subst.
    + injection A as <- A. eapply IH; [exact H|]. exists run. split; [exact A|].
      rewrite B. now rewrite <- app_assoc.
Qed.

Lemma searchFrom_found ic r : forall a b z,
  reach (Cur b a) z -> ends ic r z [] <> [] -> searchFrom ic r b a <> None.
Proof.
  intros a b z R Hne Hs. apply Hne. eapply searchFrom_none; eassumption.
Qed.

(** A pattern matches somewhere in [s] exactly when it matches from one of the
    positions of [s]. *)
Lemma test_iff ic r s :
  test ic r s = true <->
  exists pre suf, s = pre ++ suf /\ ends ic r (Cur (rev pre) suf) [] <> [].
Proof.
  unfold test. destruct (searchFrom ic r [] s) as [m|] eqn:E; split; intro H;
    try reflexivity; try discriminate.
  - apply searchFrom_some in E as [(run & A & B) (rest & E)]. simpl in *.
    exists run, (after (mstart m)). split; [exact A|].
    rewrite app_nil_r in B. rewrite <- B. destruct (mstart m); simpl. now rewrite E.
  - destruct H as (pre & suf & -> & Hne). exfalso. apply Hne.
    eapply searchFrom_none; [exact E|]. exists pre. simpl. now rewrite app_nil_r.
Qed.

Lemma execLoop_in ic r : forall fuel b a m,
  In m (execLoop fuel ic r b a) ->
  reach (Cur b a) (mstart m) /\
  exists rest, ends ic r (mstart m) [] = (mend m, mcaps m) :: rest.
Proof.
  induction fuel as [|f IH]; intros b a m H; simpl in H; [destruct H|].
  destruct (searchFrom ic r b a) as [m0|] eqn:E; [|destruct H].
  destruct H as [<-|H]; [eapply searchFrom_some; exact E|].
  apply IH in H as [R H]. split; [|exact H].
  apply searchFrom_some in E as [R0 (rest0 & E0)].
  eapply reach_trans; [exact R0|]. eapply reach_trans; [|exact R].
  replace (Cur (before (mend m0)) (after (mend m0))) with (mend m0)
    by now destruct (mend m0).
  eapply ends_reach. rewrite E0. left. reflexivity.
Qed.

Lemma execAll_in ic r s m :
  In m (execAll ic r s) ->
  subject (mstart m) = s /\ In (mend m, mcaps m) (ends ic r (mstart m) []).
Proof.
  intro H. apply execLoop_in in H as [R (rest & E)]. split.
  - now apply reach_subject in R.
  - rewrite E. now left.
Qed.

Lemma matchAll_none ic r s : matchAll ic r s = None <-> test ic r s = false.
Proof.
  unfold matchAll, test. simpl. destruct (searchFrom ic r [] s); simpl; split; intro H;
    try discriminate; reflexivity.
Qed.

Lemma matchAll_some_nonempty ic r s l : matchAll ic r s = Some l -> l <> [].
Proof.
  unfold matchAll. destruct (matchLoop _ ic r [] s); [discriminate|].
  intro H. injection H as <-. discriminate.
Qed.

(** ** Sequences, literals and runs *)

Lemma moved_reach run z z1 : moved run z z1 -> reach z z1.
Proof. intro H. now exists run. Qed.

Lemma moved_consumed run z z1 : moved run z z1 -> consumed z z1 = run.
Proof.
  intros [A _]. unfold consumed. rewrite A, length_app.
  replace (length run + length (after z1) - length (after z1)) with (length run) by lia.
  rewrite firstn_app, firstn_all, Nat.sub_diag. simpl. now rewrite app_nil_r.
Qed.

Lemma subject_reach z : reach (Cur [] (subject z)) z.
Proof.
  exists (rev (before z)). unfold subject. simpl. now rewrite rev_involutive, app_nil_r.
Qed.

Lemma ends_seq_in ic a b z c y :
  In y (ends ic (Seq a b) z c) <->
  exists z1 c1, In (z1, c1) (ends ic a z c) /\ In y (ends ic b z1 c1).
Proof.
  simpl. rewrite in_flat_map. split.
  - intros ([z1 c1] & H1 & H2). now exists z1, c1.
  - intros (z1 & c1 & H1 & H2). now exists (z1, c1).
Qed.

Lemma ends_empty_in ic z c y : In y (ends ic Empty z c) <-> y = (z, c).
Proof. simpl. split; [intros [H|[]]; now symmetry | intros ->; now left]. Qed.

Lemma ends_chr_in a z c z1 c1 :
  In (z1, c1) (ends false (Chr a) z c) <-> moved [a] z z1 /\ c1 = c.
Proof.
  simpl. rewrite step1_in. unfold moved, chrMatch. simpl. split.
  - intros (x & A & B & E & ->). apply N.eqb_eq in E. subst. auto.
  - intros [[A B] ->]. exists a. rewrite N.eqb_refl. auto.
Qed.

(** A literal word in front of a sequence. *)
Lemma ends_lits_in w l : forall z c y,
  In y (ends false (mkSeq (map Chr w ++ l)) z c) <->
  exists z1, moved w z z1 /\ In y (ends false (mkSeq l) z1 c).
Proof.
  induction w as [|a w IH]; intros z c y.
  - simpl. split.
    + intro H. exists z. split; [now split|exact H].
    + intros (z1 & [A B] & H). simpl in *. destruct z, z1; simpl in *. now subst.
  - change (mkSeq (map Chr (a :: w) ++ l)) with (Seq (Chr a) (mkSeq (map Chr w ++ l))).
    rewrite ends_seq_in. split.
    + intros (z1 & c1 & H1 & H2). apply ends_chr_in in H1 as [[A1 B1] ->].
      apply IH in H2 as (z2 & [A2 B2] & H2). exists z2. split; [|exact H2].
      split; simpl.
      * rewrite A1, A2. reflexivity.
      * rewrite B2, B1. now rewrite <- app_assoc.
    + intros (z2 & [A B] & H). simpl in A, B.
      exists (Cur (a :: before z) (w ++ after z2)), c. split.
      * apply ends_chr_in. split; [|reflexivity]. now split.
      * apply IH. exists z2. split; [|exact H]. split; simpl; [reflexivity|].
        rewrite B. now rewrite <- app_assoc.
Qed.

Lemma star_step1_in p : forall fuel z c z1 c1,
  In (z1, c1) (star (step1 p) fuel z c) ->
  c1 = c /\ exists run, forallb p run = true /\ moved run z z1.
Proof.
  induction fuel as [|f IH]; intros z c z1 c1 H; simpl in H.
  - destruct H as [H|[]]. injection H as <- <-. split; [reflexivity|].
    exists []. now repeat split.
  - apply in_app_or in H as [H|[H|[]]].
    + apply in_flat_map in H as ([z2 c2] & H2 & H). apply filter_In in H2 as [H2 _].
      apply step1_in in H2 as (x & A & B & Px & ->). simpl in H.
      apply IH in H as [-> (run & Pr & [A' B'])]. split; [reflexivity|].
      exists (x :: run). simpl. rewrite Px, Pr. split; [reflexivity|]. split.
      * rewrite A, A'. reflexivity.
      * rewrite B', B. simpl. now rewrite <- app_assoc.
    + injection H as <- <-. split; [reflexivity|]. exists []. now repeat split.
Qed.

Lemma star_step1_intro p : forall run fuel b rest c,
  forallb p run = true -> length run <= fuel ->
  In (Cur (rev run ++ b) rest, c) (star (step1 p) fuel (Cur b (run ++ rest)) c).
Proof.
  induction run as [|x run IH]; intros fuel b rest c Hp Hf.
  - destruct fuel; simpl; [now left|]. apply in_or_app. right. now left.
  - destruct fuel as [|f]; [simpl in Hf; lia|]. simpl in Hp.
    apply andb_true_iff in Hp as [Px Pr]. cbn [star]. apply in_or_app. left.
    apply in_flat_map. exists (Cur (x :: b) (run ++ rest), c). split.
    + apply filter_In. split.
      * unfold step1. simpl. rewrite Px. now left.
      * unfold progress. simpl. apply Nat.ltb_lt. lia.
    + simpl. rewrite <- app_assoc. simpl. apply IH; [exact Pr|simpl in Hf; lia].
Qed.

Lemma ends_star_class_in ic neg items z c z1 c1 :
  In (z1, c1) (ends ic (Star (Class neg items)) z c) <->
  c1 = c /\ exists run, forallb (classMatch ic neg items) run = true /\ moved run z z1.
Proof.
  split.
  - apply star_step1_in.
  - intros [-> (run & Pr & [A B])]. simpl. destruct z as [b a], z1 as [b1 a1].
    simpl in *. subst. apply star_step1_intro; [exact Pr|]. rewrite length_app. lia.
Qed.

Lemma ends_plus_class_in ic neg items z c z1 c1 :
  In (z1, c1) (ends ic (Plus (Class neg items)) z c) <->
  c1 = c /\ exists run, run <> [] /\ forallb (classMatch ic neg items) run = true
                        /\ moved run z z1.
Proof.
  simpl. rewrite in_flat_map. split.
  - intros ([z2 c2] & H2 & H). apply step1_in in H2 as (x & A & B & Px & ->).
    simpl in H. apply star_step1_in in H as [-> (run & Pr & [A' B'])].
    split; [reflexivity|]. exists (x :: run). split; [discriminate|]. simpl.
    rewrite Px, Pr. split; [reflexivity|]. split.
    + rewrite A, A'. reflexivity.
    + rewrite B', B. simpl. now rewrite <- app_assoc.
  - intros [-> (run & Hne & Pr & [A B])]. destruct run as [|x run]; [congruence|].
    simpl in Pr. apply andb_true_iff in Pr as [Px Pr].
    destruct z as [b a], z1 as [b1 a1]. simpl in *. subst.
    exists (Cur (x :: b) (run ++ a1), c). split.
    + unfold step1. simpl. rewrite Px. now left.
    + simpl. rewrite <- app_assoc. simpl. apply star_step1_intro; [exact Pr|].
      rewrite length_app. lia.
Qed.

Lemma ends_group_in ic n a z c z1 c1 :
  In (z1, c1) (ends ic (Group n a) z c) <->
  exists c0, In (z1, c0) (ends ic a z c) /\ c1 = (n, consumed z z1) :: c0.
Proof.
  simpl. rewrite in_map_iff. split.
  - intros ([z2 c2] & E & H). simpl in E. injection E as <- <-. now exists c2.
  - intros (c0 & H & ->). now exists (z1, c0).
Qed.

(** ** Patterns without capturing groups leave the captures alone *)

Lemma star_caps body fuel :
  (forall z c z1 c1, In (z1, c1) (body z c) -> c1 = c) ->
  forall z c z1 c1, In (z1, c1) (star body fuel z c) -> c1 = c.
Proof.
  intro Hb. induction fuel as [|f IH]; intros z c z1 c1 H; simpl in H.
  - destruct H as [H|[]]. now injection H as _ <-.
  - apply in_app_or in H as [H|[H|[]]].
    + apply in_flat_map in H as ([z2 c2] & H2 & H). apply filter_In in H2 as [H2 _].
      apply Hb in H2. subst c2. eapply IH; eassumption.
    + now injection H as _ <-.
Qed.

Lemma ends_caps ic r : groupFree r = true ->
  forall z c z1 c1, In (z1, c1) (ends ic r z c) -> c1 = c.
Proof.
  induction r; intros G z c0 z1 c1 H; simpl in G, H;
    try (apply step1_in in H as (x & _ & _ & _ & ->); reflexivity);
    try discriminate.
  - destruct H as [H|[]]. now injection H as _ <-.
  - apply andb_true_iff in G as [G1 G2].
    apply in_flat_map in H as ([z2 c2] & H2 & H). apply (IHr1 G1) in H2. subst c2.
    eapply IHr2; eassumption.
  - apply andb_true_iff in G as [G1 G2].
    apply in_app_or in H as [H|H]; [eapply IHr1|eapply IHr2]; eassumption.
  - eapply star_caps; [|exact H]. now apply IHr.
  - apply in_flat_map in H as ([z2 c2] & H2 & H). apply (IHr G) in H2. subst c2.
    eapply star_caps; [|exact H]. now apply IHr.
  - apply in_app_or in H as [H|[H|[]]].
    + apply filter_In in H as [H _]. eapply IHr; eassumption.
    + now injection H as _ <-.
  - destruct (before z); [|destruct H]. destruct H as [H|[]]. now injection H as _ <-.
  - destruct (after z); [|destruct H]. destruct H as [H|[]]. now injection H as _ <-.
  - destruct (atBoundary z); [|destruct H]. destruct H as [H|[]]. now injection H as _ <-.
  - destruct (atBoundary z); [destruct H|]. destruct H as [H|[]]. now injection H as _ <-.
  - match type of H with In _ (if ?b then _ else _) => destruct b end; [|destruct H].
    destruct H as [H|[]]. now injection H as _ <-.
Qed.

(** ** Character classes *)

Ltac bool_to_prop :=
  repeat rewrite ?orb_true_iff, ?orb_false_iff, ?andb_true_iff, ?andb_false_iff,
    ?negb_true_iff, ?negb_false_iff, ?N.leb_le, ?N.leb_gt, ?N.eqb_eq, ?N.eqb_neq in *.

Ltac chars :=
  unfold isWord, isSpace, isDigit, inRange in *; bool_to_prop; lia.

Lemma oneOf_cons a s c : oneOf (String a s) c = (N.eqb c (N_of_ascii a) || oneOf s c)%bool.
Proof. reflexivity. Qed.

Lemma word_not_special c : isWord c = true -> special c = false.
Proof.
  intro H. unfold special. repeat rewrite oneOf_cons. unfold oneOf. simpl existsb.
  simpl N_of_ascii. chars.
Qed.

Lemma space_not_word c : isSpace c = true -> isWord c = false.
Proof. intro H. destruct (isWord c) eqn:E; [|reflexivity]. exfalso. chars. Qed.

Lemma word_not_space c : isWord c = true -> isSpace c = false.
Proof. intro H. destruct (isSpace c) eqn:E; [|reflexivity]. exfalso. chars. Qed.

(** ** Patterns built from a name *)

Lemma wordOnly_plain nm : wordOnly nm = true -> plain nm = true.
Proof.
  unfold wordOnly, plain. rewrite !forallb_forall. intros H c Hc.
  now rewrite word_not_special by auto.
Qed.

Lemma psteps_app a : forall b st,
  psteps st (a ++ b) = (st' <- psteps st a ;; psteps st' b).
Proof.
  induction a as [|c a IH]; intros b st; simpl; [reflexivity|].
  destruct (pstep st c); simpl; auto.
Qed.

Lemma psteps_plain nm : forall st,
  mode st = MNormal -> plain nm = true -> psteps st nm = Normal (pushChars nm st).
Proof.
  induction nm as [|c nm IH]; intros st M P.
  - simpl. destruct st as [m [k al sq] sk n]. simpl in M. now subst.
  - simpl in P. apply andb_true_iff in P as [Pc P]. apply negb_true_iff in Pc.
    simpl. unfold pstep. rewrite M. unfold normalStep. rewrite Pc. simpl.
    rewrite IH by (auto || reflexivity). unfold pushChars, pushTerm. simpl.
    now rewrite <- app_assoc.
Qed.

Lemma rev_terms nm tl :
  rev (map snd (rev (map (fun c => (Plain, Chr c)) nm) ++ tl))
  = rev (map snd tl) ++ map Chr nm.
Proof.
  rewrite map_app, rev_app_distr, map_rev, rev_involutive, map_map. simpl.
  reflexivity.
Qed.

Lemma RegExp_wordBoundary nm :
  plain nm = true -> RegExp (wordBoundaryOf nm) = Normal (wordBoundaryRegex nm).
Proof.
  intro P. unfold RegExp, wordBoundaryOf. rewrite psteps_app.
  change (psteps pinit (u "\b"))
    with (Normal (PState MNormal (Frame GTop [] [(Assertion, WordB)]) [] 0)).
  cbn [bind]. rewrite psteps_app, psteps_plain by (auto || reflexivity). cbn [bind].
  cbn. rewrite (rev_terms nm [(Assertion, WordB)]). reflexivity.
Qed.

Lemma RegExp_call nm :
  plain nm = true -> RegExp (callPatternOf nm) = Normal (callRegex nm).
Proof.
  intro P. unfold RegExp, callPatternOf. rewrite psteps_app.
  change (psteps pinit (u "\b"))
    with (Normal (PState MNormal (Frame GTop [] [(Assertion, WordB)]) [] 0)).
  cbn [bind]. rewrite psteps_app, psteps_plain by (auto || reflexivity). cbn [bind].
  cbn. rewrite (rev_terms nm [(Assertion, WordB)]). simpl. rewrite <- ?app_assoc.
  reflexivity.
Qed.

Lemma RegExp_ref nm :
  plain nm = true -> RegExp (refPatternOf nm) = Normal (refRegex nm).
Proof.
  intro P. unfold RegExp, refPatternOf. rewrite psteps_app.
  change (psteps pinit (u "[^\w]"))
    with (Normal (PState MNormal (Frame GTop [] [(Plain, notWordClass)]) [] 0)).
  cbn [bind]. rewrite psteps_app, psteps_plain by (auto || reflexivity). cbn [bind].
  cbn. rewrite (rev_terms nm [(Plain, notWordClass)]). simpl. rewrite <- ?app_assoc.
  reflexivity.
Qed.

(** The literals of the source, read by [RegExp], are the patterns above. *)
Lemma patterns_from_source :
  RegExp (u "export\s+(?:const|let|var|function|class|async\s+function)\s+(\w+)")
  = Normal namedExportRegex
  /\ RegExp (u "export\s*\{([^}]+)\}") = Normal exportListRegex
  /\ RegExp (u "export\s+default\s+(?:function|class|async\s+function)\s+(\w+)")
     = Normal defaultNamedRegex
  /\ RegExp (u "(?<!export\s+)function\s+(\w+)\s*\(") = Normal funcRegex
  /\ RegExp (u "(?:const|let|var)\s+(\w+)\s*=\s*(?:async\s*)?\([^)]*\)\s*=>")
     = Normal arrowRegex
  /\ RegExp (u "(?:const|let|var)\s+(\w+)\s*=\s*(?:async\s*)?\w+\s*=>")
     = Normal arrowSimpleRegex
  /\ RegExp (u "\s+as\s+") = Normal asRegex
  /\ RegExp (u "\s*:\s*") = Normal colonRegex
  /\ RegExp (u "import\s*\{([^}]+)\}\s*from") = Normal namedImportRegex
  /\ RegExp (u "import\s+(\w+)\s+from") = Normal defaultImportRegex
  /\ RegExp (u "import\s+\*\s+as\s+(\w+)\s+from") = Normal namespaceImportRegex
  /\ RegExp (u "(?:const|let|var)\s+(?:\{([^}]+)\}|(\w+))\s*=\s*require\(")
     = Normal requireRegex
  /\ RegExp (u "index\.[jt]sx?$") = Normal indexRegex
  /\ RegExp (u "main\.[jt]sx?$") = Normal mainRegex
  /\ RegExp (u "app\.[jt]sx?$") = Normal appRegex.
Proof. vm_compute. repeat split; reflexivity. Qed.

(** ** The bounds of the loops are enough *)

Lemma flat_map_ext_in {A B} (f g : A -> list B) l :
  (forall x, In x l -> f x = g x) -> flat_map f l = flat_map g l.
Proof.
  induction l as [|x l IH]; intro H; simpl; [reflexivity|].
  rewrite (H x) by now left. f_equal. apply IH. intros y Hy. apply H. now right.
Qed.

Lemma no_progress z (l : list (cursor * caps)) :
  length (after z) = 0 -> filter (progress z) l = [].
Proof.
  intro H. induction l as [|zc l IH]; simpl; [reflexivity|].
  unfold progress at 1. rewrite H.
  destruct (Nat.ltb_spec (length (after (fst zc))) 0); [lia|exact IH].
Qed.

Lemma star_fuel body : forall f1 f2 z c,
  length (after z) <= f1 -> length (after z) <= f2 ->
  star body f1 z c = star body f2 z c.
Proof.
  induction f1 as [|f1 IH]; intros f2 z c H1 H2.
  - destruct f2 as [|f2]; [reflexivity|]. simpl. rewrite no_progress by lia. reflexivity.
  - destruct f2 as [|f2].
    + simpl. rewrite no_progress by lia. reflexivity.
    + simpl. f_equal. apply flat_map_ext_in. intros zc Hin.
      apply filter_In in Hin as [_ P]. unfold progress in P. apply Nat.ltb_lt in P.
      apply IH; lia.
Qed.

(** Greedy iteration unfolds: one more round, then the iteration again. *)
Lemma ends_star_unfold ic a z c :
  ends ic (Star a) z c
  = flat_map (fun zc => ends ic (Star a) (fst zc) (snd zc))
             (filter (progress z) (ends ic a z c))
    ++ [(z, c)].
Proof.
  simpl. destruct (length (after z)) as [|n] eqn:E.
  - simpl. rewrite no_progress by exact E. reflexivity.
  - simpl. f_equal. apply flat_map_ext_in. intros zc Hin.
    apply filter_In in Hin as [_ P]. unfold progress in P. apply Nat.ltb_lt in P.
    apply star_fuel; lia.
Qed.

Lemma ends_minLen ic r : forall z c z1 c1,
  In (z1, c1) (ends ic r z c) -> index z + minLen r <= index z1.
Proof.
  induction r; intros z c0 z1 c1 H;
    try (apply ends_reach, reach_index in H; simpl; lia).
  - simpl in H. apply step1_in in H as (x & _ & B & _). unfold index. rewrite B.
    simpl. lia.
  - simpl in H. apply step1_in in H as (x & _ & B & _). unfold index. rewrite B.
    simpl. lia.
  - simpl in H. apply step1_in in H as (x & _ & B & _). unfold index. rewrite B.
    simpl. lia.
  - apply ends_seq_in in H as (z2 & c2 & H2 & H). apply IHr1 in H2. apply IHr2 in H.
    simpl. lia.
  - simpl in H. apply in_app_or in H as [H|H]; [apply IHr1 in H|apply IHr2 in H];
      simpl; lia.
  - simpl in H. apply in_flat_map in H as ([z2 c2] & H2 & H). apply IHr in H2.
    apply star_reach in H; [|intros; eapply ends_reach; eassumption].
    apply reach_index in H. simpl in *. lia.
  - apply ends_group_in in H as (c2 & H & _). apply IHr in H. simpl. lia.
Qed.

Lemma index_after z z1 : reach z z1 -> index z1 + length (after z1) = index z + length (after z).
Proof.
  intros (run & A & B). unfold index. rewrite A, B, !length_app, length_rev. lia.
Qed.

(** With a pattern that cannot match the empty string, the [exec] loop stops
    within the bound, whatever fuel above it is given. *)
Lemma execLoop_fuel ic r : 0 < minLen r ->
  forall f1 f2 b a, length a < f1 -> length a < f2 ->
  execLoop f1 ic r b a = execLoop f2 ic r b a.
Proof.
  intro Hmin. induction f1 as [|f1 IH]; intros f2 b a H1 H2; [lia|].
  destruct f2 as [|f2]; [lia|]. simpl.
  destruct (searchFrom ic r b a) as [m|] eqn:E; [|reflexivity]. f_equal.
  apply searchFrom_some in E as [R (rest & E)].
  assert (In (mend m, mcaps m) (ends ic r (mstart m) [])) as Hin by (rewrite E; now left).
  pose proof (ends_minLen _ _ _ _ _ _ Hin) as Hlen.
  pose proof (index_after _ _ (ends_reach _ _ _ _ _ _ Hin)) as I1.
  pose proof (index_after _ _ R) as I2. pose proof (reach_index _ _ R) as I4.
  unfold index in *. simpl in I2, I4. apply IH; lia.
Qed.

Lemma execAll_unfold ic r s : 0 < minLen r ->
  execAll ic r s
  = match searchFrom ic r [] s with
    | None => []
    | Some m => m :: execLoop (S (length (after (mend m)))) ic r
                       (before (mend m)) (after (mend m))
    end.
Proof.
  intro Hmin. unfold execAll.
  change (execLoop (S (length s)) ic r [] s)
    with (match searchFrom ic r [] s with
          | None => []
          | Some m => m :: execLoop (length s) ic r (before (mend m)) (after (mend m))
          end).
  destruct (searchFrom ic r [] s) as [m|] eqn:E; [|reflexivity]. f_equal.
  apply searchFrom_some in E as [R (rest & E)].
  assert (In (mend m, mcaps m) (ends ic r (mstart m) [])) as Hin by (rewrite E; now left).
  pose proof (ends_minLen _ _ _ _ _ _ Hin) as Hlen.
  pose proof (index_after _ _ (ends_reach _ _ _ _ _ _ Hin)) as I1.
  pose proof (index_after _ _ R) as I2. pose proof (reach_index _ _ R) as I4.
  unfold index in *. simpl in I2, I4. apply execLoop_fuel; [exact Hmin| |]; lia.
Qed.

Lemma loop_patterns_consume :
  Forall (fun r => 0 < minLen r)
    [namedExportRegex; exportListRegex; defaultNamedRegex; funcRegex; arrowRegex;
     arrowSimpleRegex; namedImportRegex; defaultImportRegex; namespaceImportRegex;
     requireRegex].
Proof. repeat constructor. Qed.

(** The loop of [String.prototype.match] always moves on. *)
Lemma matchLoop_fuel ic r : forall f1 f2 b a,
  length a < f1 -> length a < f2 ->
  matchLoop f1 ic r b a = matchLoop f2 ic r b a.
Proof.
  induction f1 as [|f1 IH]; intros f2 b a H1 H2; [lia|].
  destruct f2 as [|f2]; [lia|]. simpl.
  destruct (searchFrom ic r b a) as [m|] eqn:E; [|reflexivity]. f_equal.
  apply searchFrom_some in E as [R (rest & E)].
  assert (In (mend m, mcaps m) (ends ic r (mstart m) [])) as Hin by (rewrite E; now left).
  pose proof (index_after _ _ (ends_reach _ _ _ _ _ _ Hin)) as I1.
  pose proof (reach_index _ _ (ends_reach _ _ _ _ _ _ Hin)) as I3.
  pose proof (index_after _ _ R) as I2.
  pose proof (reach_index _ _ R) as I4. unfold index in *. simpl in I2, I4.
  destruct (length (before (mend m)) =? length (before (mstart m))) eqn:Q.
  - destruct (after (mend m)) as [|x a'] eqn:Ea; [reflexivity|]. simpl in I1.
    apply IH; lia.
  - apply Nat.eqb_neq in Q. apply IH; lia.
Qed.

(** The loop of [String.prototype.split]: twice the remaining length, and one
    more while a piece is open, bounds the steps left. *)
Lemma splitLoop_fuel r : forall f1 f2 piece b a,
  2 * length a + (match piece with [] => 0 | _ => 1 end) < f1 ->
  2 * length a + (match piece with [] => 0 | _ => 1 end) < f2 ->
  splitLoop f1 r piece b a = splitLoop f2 r piece b a.
Proof.
  induction f1 as [|f1 IH]; intros f2 piece b a H1 H2; [lia|].
  destruct f2 as [|f2]; [lia|]. cbn [splitLoop].
  destruct a as [|x a']; [reflexivity|].
  destruct (ends false r (Cur b (x :: a')) []) as [|[z1 c1] l] eqn:E.
  - apply IH; simpl in *; lia.
  - assert (In (z1, c1) (ends false r (Cur b (x :: a')) [])) as Hin
      by (rewrite E; now left).
    pose proof (index_after _ _ (ends_reach _ _ _ _ _ _ Hin)) as I1.
    pose proof (reach_index _ _ (ends_reach _ _ _ _ _ _ Hin)) as I3.
    unfold index in *. simpl in I1, I3.
    destruct piece as [|p piece].
    + destruct (length (before z1) =? length b) eqn:Q.
      * apply IH; simpl in *; lia.
      * apply Nat.eqb_neq in Q. f_equal. apply IH; simpl in *; lia.
    + f_equal. apply IH; simpl in *; lia.
Qed.

(** * Properties of the scan *)

(** ** Loops that push the flagged elements *)

Lemma foldM_push {A} (f : list A -> A -> completion (list A)) (flag : A -> completion bool) :
  (forall acc x, f acc x = (b <- flag x ;; Normal (if b then acc ++ [x] else acc))) ->
  forall l acc r, foldM f l acc = Normal r ->
    r = acc ++ filter (flagged flag) l /\ forall x, In x l -> exists b, flag x = Normal b.
Proof.
  intro Hf. induction l as [|x l IH]; intros acc r H; simpl in H.
  - injection H as <-. simpl. rewrite app_nil_r. split; [reflexivity|]. intros x [].
  - rewrite Hf in H. unfold flagged at 1. simpl. destruct (flag x) as [b| | |] eqn:E;
      simpl in H; try discriminate.
    apply IH in H as [-> Hall]. split.
    + destruct b; [|reflexivity]. now rewrite <- app_assoc.
    + intros y [<-|Hy]; [now exists b|auto].
Qed.

Lemma foldM_push_total {A} (f : list A -> A -> completion (list A)) (flag : A -> completion bool) :
  (forall acc x, f acc x = (b <- flag x ;; Normal (if b then acc ++ [x] else acc))) ->
  forall l acc, (forall x, In x l -> exists b, flag x = Normal b) ->
    foldM f l acc = Normal (acc ++ filter (flagged flag) l).
Proof.
  intro Hf. induction l as [|x l IH]; intros acc Hall; simpl.
  - now rewrite app_nil_r.
  - rewrite Hf. unfold flagged at 1. destruct (Hall x (or_introl eq_refl)) as [b E].
    rewrite E. simpl. rewrite IH by (intros; apply Hall; now right).
    destruct b; [|reflexivity]. now rewrite <- app_assoc.
Qed.

Lemma extractExports_file content f d : In d (extractExports content f) -> file d = f.
Proof.
  unfold extractExports, namedExports, listExports, defaultExports. intro H.
  repeat (apply in_app_or in H as [H|H]).
  - apply in_map_iff in H as (m & <- & _). reflexivity.
  - apply in_flat_map in H as (m & _ & H). apply in_map_iff in H as (n & <- & _).
    reflexivity.
  - apply in_map_iff in H as (m & <- & _). reflexivity.
Qed.

Lemma extractFunctions_file content f d : In d (extractFunctions content f) -> file d = f.
Proof.
  unfold extractFunctions. intro H. repeat (apply in_app_or in H as [H|H]);
    apply in_map_iff in H as (m & <- & _); reflexivity.
Qed.

Lemma Map_get_set m k v k' :
  Map_get (Map_set m k v) k' = if eqs k k' then Some v else Map_get m k'.
Proof.
  induction m as [|[k0 v0] m IH]; simpl.
  - reflexivity.
  - destruct (eqs k0 k) eqn:E; simpl.
    + apply eqs_eq in E. subst k0. destruct (eqs k k'); reflexivity.
    + rewrite IH. destruct (eqs k0 k') eqn:E'; [|reflexivity].
      destruct (eqs k k') eqn:E2; [|reflexivity].
      apply eqs_eq in E2. subst k'. congruence.
Qed.

Lemma Map_get_in m k v : Map_get m k = Some v -> In (k, v) m.
Proof.
  induction m as [|[k0 v0] m IH]; simpl; [discriminate|].
  destruct (eqs k0 k) eqn:E.
  - apply eqs_eq in E. subst. intro H. injection H as ->. now left.
  - intro H. right. auto.
Qed.

Lemma Map_set_in m k v k' v' :
  In (k', v') (Map_set m k v) -> (k', v') = (k, v) \/ In (k', v') m.
Proof.
  induction m as [|[k0 v0] m IH]; simpl.
  - intros [H|[]]. now left.
  - destruct (eqs k0 k); simpl.
    + intros [H|H]; [now left|now right; right].
    + intros [H|H]; [now right; left|]. apply IH in H as [H|H]; auto.
Qed.

Section ScanFacts.

Variable readFileSync : str -> option str.
Variable opts : options.

Lemma collect_from files : forall acc,
  let c := fold_left (collectFile readFileSync opts) files acc in
  allExports c = allExports acc ++ flat_map (exportsOfFile readFileSync) files
  /\ allFunctions c = allFunctions acc ++ flat_map (functionsOfFile readFileSync opts) files
  /\ (forall f v, In (f, v) (fileContents c) ->
        In (f, v) (fileContents acc) \/ (In f files /\ readFileSync f = Some v))
  /\ (forall f v, In f files -> readFileSync f = Some v ->
        Map_get (fileContents c) f = Some v)
  /\ (forall f v, ~ In f files -> Map_get (fileContents acc) f = Some v ->
        Map_get (fileContents c) f = Some v).
Proof.
  induction files as [|f0 files IH]; intros acc; simpl.
  - rewrite !app_nil_r. repeat split; auto. intros f v [].
  - destruct (IH (collectFile readFileSync opts acc f0)) as (E1 & E2 & I1 & I2 & I3).
    unfold collectFile, exportsOfFile, functionsOfFile in *.
    destruct (readFileSync f0) as [c0|] eqn:R; simpl in *.
    + rewrite E1, E2, <- !app_assoc.
      split; [reflexivity|]. split; [reflexivity|]. split; [|split].
      * intros f v H. apply I1 in H as [H|[H R']]; [|now auto].
        apply Map_set_in in H as [H|H]; [|now left]. injection H as -> ->. auto.
      * intros f v [<-|Hf] Rf.
        -- destruct (in_dec (list_eq_dec N.eq_dec) f0 files) as [Hi|Hn]; [now auto|].
           apply I3; [exact Hn|]. rewrite Map_get_set, eqs_refl. congruence.
        -- auto.
      * intros f v Hn Hg. apply I3; [tauto|]. rewrite Map_get_set.
        destruct (eqs f0 f) eqn:E; [|exact Hg]. apply eqs_eq in E. tauto.
    + rewrite E1, E2.
      split; [reflexivity|]. split; [reflexivity|]. split; [|split].
      * intros f v H. apply I1 in H as [H|[H R']]; auto.
      * intros f v [<-|Hf] Rf; [congruence|auto].
      * intros f v Hn Hg. apply I3; [tauto|exact Hg].
Qed.

Variable files : list str.

Let c := collect readFileSync opts files.

Lemma collect_exports : allExports c = flat_map (exportsOfFile readFileSync) files.
Proof. apply (collect_from files (Collected [] [] [])). Qed.

Lemma collect_functions :
  allFunctions c = flat_map (functionsOfFile readFileSync opts) files.
Proof. apply (collect_from files (Collected [] [] [])). Qed.

Lemma collect_contents f v :
  In (f, v) (fileContents c) <-> In f files /\ readFileSync f = Some v.
Proof.
  destruct (collect_from files (Collected [] [] [])) as (_ & _ & I1 & I2 & _).
  split.
  - intro H. apply I1 in H as [[]|H]. exact H.
  - intros [H R]. apply Map_get_in. now apply I2.
Qed.

Lemma collect_get f v :
  Map_get (fileContents c) f = Some v <-> In f files /\ readFileSync f = Some v.
Proof.
  destruct (collect_from files (Collected [] [] [])) as (_ & _ & I1 & I2 & _).
  split.
  - intro H. now apply collect_contents, Map_get_in.
  - intros [H R]. now apply I2.
Qed.

Lemma in_allExports d :
  In d (allExports c) <->
  exists content, In (file d) files /\ readFileSync (file d) = Some content
                  /\ In d (extractExports content (file d)).
Proof.
  rewrite collect_exports, in_flat_map. unfold exportsOfFile. split.
  - intros (f & Hf & H). destruct (readFileSync f) as [v|] eqn:R; [|destruct H].
    pose proof (extractExports_file _ _ _ H) as E. subst f. now exists v.
  - intros (v & Hf & R & H). exists (file d). now rewrite R.
Qed.

Lemma in_allFunctions d :
  In d (allFunctions c) <->
  exportsOnly opts = false /\
  exists content, In (file d) files /\ readFileSync (file d) = Some content
                  /\ In d (extractFunctions content (file d)).
Proof.
  rewrite collect_functions, in_flat_map. unfold functionsOfFile. split.
  - intros (f & Hf & H). destruct (readFileSync f) as [v|] eqn:R; [|destruct H].
    destruct (exportsOnly opts); [destruct H|]. split; [reflexivity|].
    pose proof (extractFunctions_file _ _ _ H) as E. subst f. now exists v.
  - intros (Eo & v & Hf & R & H). exists (file d). now rewrite R, Eo.
Qed.

End ScanFacts.

(** ** Declaration sites *)

Lemma ends_mkSeq_app_in ic l1 l2 : forall z c y,
  In y (ends ic (mkSeq (l1 ++ l2)) z c) <->
  exists z1 c1, In (z1, c1) (ends ic (mkSeq l1) z c) /\ In y (ends ic (mkSeq l2) z1 c1).
Proof.
  induction l1 as [|a l1 IH]; intros z c y.
  - simpl. split.
    + intro H. exists z, c. auto.
    + intros (z1 & c1 & [E|[]] & H). now injection E as -> ->.
  - change (mkSeq ((a :: l1) ++ l2)) with (Seq a (mkSeq (l1 ++ l2))).
    change (mkSeq (a :: l1)) with (Seq a (mkSeq l1)). rewrite ends_seq_in. split.
    + intros (z1 & c1 & H1 & H2). apply IH in H2 as (z2 & c2 & H2 & H3).
      exists z2, c2. split; [|exact H3]. apply ends_seq_in. now exists z1, c1.
    + intros (z2 & c2 & H12 & H3). apply ends_seq_in in H12 as (z1 & c1 & H1 & H2).
      exists z1, c1. split; [exact H1|]. apply IH. now exists z2, c2.
Qed.

Lemma classMatch_sp x : classMatch false false [CEsc ESpace] x = isSpace x.
Proof. unfold classMatch. simpl. now rewrite orb_false_r. Qed.

Lemma classMatch_wd x : classMatch false false [CEsc EWord] x = isWord x.
Proof. unfold classMatch. simpl. now rewrite orb_false_r. Qed.

Lemma forallb_ext_eq {A} (f g : A -> bool) l :
  (forall x, f x = g x) -> forallb f l = forallb g l.
Proof. intro H. induction l; simpl; [reflexivity|]. now rewrite H, IHl. Qed.

Lemma binder_site x pre rest z z' c' :
  groupFree (mkSeq pre) = true -> groupFree (mkSeq rest) = true ->
  In (z', c') (ends false (binder x pre rest) z []) ->
  exists nm, lookup 1 c' = Some nm /\ declSite x (subject z) nm.
Proof.
  intros Gp Gr H. unfold binder in H.
  apply ends_mkSeq_app_in in H as (z1 & c1 & H1 & H).
  pose proof (ends_caps _ _ Gp _ _ _ _ H1) as ->. apply ends_reach in H1.
  change (mkSeq (Plus sp :: ?l)) with (Seq (Plus sp) (mkSeq l)) in H.
  apply ends_seq_in in H as (z2 & c2 & H2 & H).
  apply ends_plus_class_in in H2 as [-> (ws1 & Hne1 & Hs1 & M1)].
  change (mkSeq (Group 1 ?g :: ?l)) with (Seq (Group 1 g) (mkSeq l)) in H.
  apply ends_seq_in in H as (z3 & c3 & H3 & H).
  apply ends_group_in in H3 as (c0 & H3 & ->).
  apply ends_seq_in in H3 as (z3' & c3' & H3 & H3e).
  apply ends_empty_in in H3e. injection H3e as <- <-.
  apply ends_plus_class_in in H3 as [-> (nm & Hne & Hw & M2)].
  change (mkSeq (Star sp :: ?l)) with (Seq (Star sp) (mkSeq l)) in H.
  apply ends_seq_in in H as (z4 & c4 & H4 & H).
  apply ends_star_class_in in H4 as [-> (ws & Hs & M3)].
  change (mkSeq (Chr x :: ?l)) with (Seq (Chr x) (mkSeq l)) in H.
  apply ends_seq_in in H as (z5 & c5 & H5 & H).
  apply ends_chr_in in H5 as [M4 ->].
  pose proof (ends_caps _ _ Gr _ _ _ _ H) as ->.
  rewrite (moved_consumed _ _ _ M2). exists nm. split; [simpl; reflexivity|].
  rewrite (forallb_ext_eq _ isSpace _ classMatch_sp) in Hs1.
  rewrite (forallb_ext_eq _ isSpace _ classMatch_sp) in Hs.
  rewrite (forallb_ext_eq _ isWord _ classMatch_wd) in Hw.
  destruct (exists_last Hne1) as (ws0 & sp0 & ->).
  rewrite forallb_app in Hs1. apply andb_true_iff in Hs1 as [_ Hsp]. simpl in Hsp.
  rewrite andb_true_r in Hsp.
  exists (rev (before z1) ++ ws0), sp0, ws, (after z5).
  split; [|now repeat split].
  rewrite <- (reach_subject _ _ H1). unfold subject.
  destruct M1 as [A1 _], M2 as [A2 _], M3 as [A3 _], M4 as [A4 _].
  rewrite A1, A2, A3, A4. rewrite <- !app_assoc. reflexivity.
Qed.

Lemma execAll_binder_site x pre rest s m :
  groupFree (mkSeq pre) = true -> groupFree (mkSeq rest) = true ->
  In m (execAll false (binder x pre rest) s) ->
  declSite x s (group 1 m).
Proof.
  intros Gp Gr H. apply execAll_in in H as [<- H].
  destruct (binder_site x pre rest _ _ _ Gp Gr H) as (nm & L & S). unfold group.
  now rewrite L.
Qed.

Lemma funcRegex_binder :
  funcRegex = binder (N_of_ascii "(")
                (LookBehind true (mkSeq (lits "export" ++ [Plus sp])) :: lits "function") [].
Proof. reflexivity. Qed.

Lemma arrowRegex_binder :
  arrowRegex = binder (N_of_ascii "=") [declKeyword]
                 [Star sp; optAsync; Chr (N_of_ascii "(");
                  Star (Class true [CChr (N_of_ascii ")")]); Chr (N_of_ascii ")");
                  Star sp; Chr (N_of_ascii "="); Chr (N_of_ascii ">")].
Proof. reflexivity. Qed.

Lemma arrowSimpleRegex_binder :
  arrowSimpleRegex = binder (N_of_ascii "=") [declKeyword]
                       [Star sp; optAsync; Plus wd;
                        Star sp; Chr (N_of_ascii "="); Chr (N_of_ascii ">")].
Proof. reflexivity. Qed.

(** Every function declaration sits at a declaration site of its file, and
    its name is made of word characters. *)
Lemma extractFunctions_site content f d :
  In d (extractFunctions content f) ->
  match type d with
  | function => declSite (N_of_ascii "(") content (name d)
  | arrow => declSite (N_of_ascii "=") content (name d)
  | _ => False
  end.
Proof.
  unfold extractFunctions. intro H. repeat (apply in_app_or in H as [H|H]);
    apply in_map_iff in H as (m & <- & H); simpl.
  - rewrite funcRegex_binder in H. eapply execAll_binder_site; [| |exact H]; reflexivity.
  - rewrite arrowRegex_binder in H. eapply execAll_binder_site; [| |exact H]; reflexivity.
  - rewrite arrowSimpleRegex_binder in H.
    eapply execAll_binder_site; [| |exact H]; reflexivity.
Qed.

Lemma declSite_word x s nm : declSite x s nm -> wordOnly nm = true /\ nm <> [] /\ s <> [].
Proof.
  intros (pre & sp0 & ws & post & -> & _ & _ & Hne & Hw). repeat split; auto.
  destruct pre; discriminate.
Qed.

Lemma notWordOrParen_match t :
  isWord t = false -> t <> N_of_ascii "(" ->
  classMatch false true [CEsc EWord; CChr (N_of_ascii "(")] t = true.
Proof.
  intros W P. unfold classMatch, existsb, itemMatch, escMatch, chrMatch.
  rewrite W, xorb_true_l. apply negb_true_iff. rewrite !orb_false_l, orb_false_r.
  apply N.eqb_neq. congruence.
Qed.

Lemma space_not_paren t : isSpace t = true -> t <> N_of_ascii "(".
Proof. intros H E. subst t. discriminate. Qed.

Lemma ref_at_site s nm :
  declSite (N_of_ascii "=") s nm -> test false (refRegex nm) s = true.
Proof.
  intros (pre & sp0 & ws & post & -> & Hsp & Hws & _ & _). apply test_iff.
  exists pre, (sp0 :: nm ++ ws ++ N_of_ascii "=" :: post). split; [reflexivity|].
  assert (exists t0 tl, ws ++ N_of_ascii "=" :: post = t0 :: tl
                        /\ classMatch false true [CEsc EWord; CChr (N_of_ascii "(")] t0 = true)
    as (t0 & tl & -> & Ht).
  { destruct ws as [|w ws]; simpl.
    - eexists _, _. split; reflexivity.
    - exists w, (ws ++ N_of_ascii "=" :: post). split; [reflexivity|].
      simpl in Hws. apply andb_true_iff in Hws as [Hw _].
      apply notWordOrParen_match; [now apply space_not_word|now apply space_not_paren]. }
  intro E.
  assert (In (Cur (t0 :: rev nm ++ sp0 :: rev pre) tl, @nil (nat * str))
             (ends false (refRegex nm) (Cur (rev pre) (sp0 :: nm ++ t0 :: tl)) [])) as HI.
  { unfold refRegex. change (mkSeq (notWordClass :: ?l)) with (Seq notWordClass (mkSeq l)).
    apply ends_seq_in. exists (Cur (sp0 :: rev pre) (nm ++ t0 :: tl)), [].
    split.
    - apply step1_in. exists sp0. simpl. repeat split; auto.
      unfold classMatch. simpl. rewrite orb_false_r. now rewrite space_not_word.
    - apply ends_lits_in. exists (Cur (rev nm ++ sp0 :: rev pre) (t0 :: tl)).
      split; [now split|]. apply ends_seq_in.
      exists (Cur (t0 :: rev nm ++ sp0 :: rev pre) tl), []. split.
      + apply step1_in. exists t0. simpl. auto.
      + now left. }
  rewrite E in HI. destruct HI.
Qed.

(** ** The functions check, one declaration at a time *)

Section Passes.

Variable relative : str -> str.
Variable c : collected.

Lemma checkFunction_flag unused func :
  checkFunction c unused func
  = (b <- flagFunction c func ;; Normal (if b then unused ++ [func] else unused)).
Proof.
  unfold checkFunction, flagFunction. destruct (alsoExported c func); [reflexivity|].
  destruct (Map_get (fileContents c) (file func)) as [[|x content]|]; try reflexivity.
  destruct (RegExp (callPatternOf (name func))) as [r1| | |]; try reflexivity. simpl.
  match goal with |- context [if ?b then _ else _] => destruct b end; [|reflexivity].
  destruct (RegExp (refPatternOf (name func))) as [r2| | |]; try reflexivity. simpl.
  destruct (matchAll false r2 (x :: content)) as [[|]|]; reflexivity.
Qed.

(** For a name of word characters both patterns compile, and the flag is
    decided by the two scans of the declaring file. *)
Lemma flagFunction_word func content :
  wordOnly (name func) = true ->
  Map_get (fileContents c) (file func) = Some content -> content <> [] ->
  flagFunction c func
  = Normal (negb (alsoExported c func)
            && (callCount (name func) content <=? 1)
            && negb (test false (refRegex (name func)) content))%bool.
Proof.
  intros W G Hne. unfold flagFunction. destruct (alsoExported c func); [reflexivity|].
  rewrite G. destruct content as [|x content]; [congruence|].
  rewrite RegExp_call, RegExp_ref by now apply wordOnly_plain. cbn [bind]. simpl negb.
  unfold callCount. cbn [andb].
  assert (forall l : list found, (length l - 1 <=? 0) = (length l <=? 1)) as Hl.
  { intro l. destruct (Nat.leb_spec (length l) 1), (Nat.leb_spec (length l - 1) 0);
      try reflexivity; lia. }
  destruct (matchAll false (callRegex (name func)) (x :: content)) as [l|] eqn:M1.
  - rewrite Hl. destruct (length l <=? 1); [|reflexivity]. simpl.
    destruct (matchAll false (refRegex (name func)) (x :: content)) as [[|m l2]|] eqn:M2.
    + now apply matchAll_some_nonempty in M2.
    + destruct (test false (refRegex (name func)) (x :: content)) eqn:T; [reflexivity|].
      apply matchAll_none in T. congruence.
    + apply matchAll_none in M2. now rewrite M2.
  - simpl.
    destruct (matchAll false (refRegex (name func)) (x :: content)) as [[|m l2]|] eqn:M2.
    + now apply matchAll_some_nonempty in M2.
    + destruct (test false (refRegex (name func)) (x :: content)) eqn:T; [reflexivity|].
      apply matchAll_none in T. congruence.
    + apply matchAll_none in M2. now rewrite M2.
Qed.

(** ** The exports check, one declaration at a time *)

Lemma checkExport_flag unused exp :
  checkExport relative c unused exp
  = (b <- flagExport relative c exp ;; Normal (if b then unused ++ [exp] else unused)).
Proof.
  unfold checkExport, flagExport. destruct (isEntryPoint (relative (file exp)));
    [reflexivity|].
  destruct (foldM (countUsage exp) (fileContents c) 0); reflexivity.
Qed.

Lemma countUsage_fold exp regex :
  RegExp (wordBoundaryOf (name exp)) = Normal regex ->
  forall fcs n, exists k,
    foldM (countUsage exp) fcs n = Normal (n + k)
    /\ (k = 0 <-> existsb (usedIn exp regex) fcs = false).
Proof.
  intro R. induction fcs as [|[f content] fcs IH]; intro n.
  - exists 0. simpl. rewrite Nat.add_0_r. now split.
  - simpl. unfold usedIn at 1. simpl. destruct (eqs f (file exp)) eqn:E.
    + simpl. destruct (IH n) as (k & F & K). exists k. now split.
    + rewrite R. simpl.
      set (a := has (findImports content) (name exp)).
      set (b := test false regex content).
      destruct (IH ((if b then S (if a then S n else n) else (if a then S n else n))))
        as (k & F & K).
      rewrite andb_true_r. rewrite F.
      exists ((if b then 1 else 0) + (if a then 1 else 0) + k). split.
      * f_equal. destruct a, b; lia.
      * destruct a, b; simpl; split; intro H; try lia; try discriminate;
          now apply K.
Qed.

Lemma countUsage_throws exp :
  forall fcs n, RegExp (wordBoundaryOf (name exp)) = SyntaxError ->
  existsb (fun fc => negb (eqs (fst fc) (file exp))) fcs = true ->
  foldM (countUsage exp) fcs n = SyntaxError.
Proof.
  intros fcs n R. revert n. induction fcs as [|[f content] fcs IH]; intros n H;
    simpl in *; [discriminate|].
  destruct (eqs f (file exp)); simpl in *; [now apply IH|]. now rewrite R.
Qed.

End Passes.

(** ** The two output lists *)

Section Run.

Variable relative : str -> str.
Variable readFileSync : str -> option str.
Variable writeFileSync : str -> bool.
Variable opts : options.
Variable files : list str.
Variable now : str.

Let c := collect readFileSync opts files.

Lemma main_lists out :
  main relative readFileSync writeFileSync opts files now = Normal out ->
  collectedDecls out = c
  /\ unusedExports out = filter (flagged (flagExport relative c)) (allExports c)
  /\ (forall e, In e (allExports c) -> exists b, flagExport relative c e = Normal b)
  /\ unusedFunctions out
     = (if exportsOnly opts then []
        else filter (flagged (flagFunction c)) (allFunctions c)).
Proof.
  unfold main. fold c. intro H.
  destruct (foldM (checkExport relative c) (allExports c) []) as [ue| | |] eqn:E;
    try discriminate.
  apply (foldM_push _ _ (checkExport_flag relative c)) in E as [-> He].
  cbn [bind] in H. destruct (exportsOnly opts) eqn:Eo.
  - cbn [bind] in H.
    match type of H with (if ?b then _ else _) = _ => destruct b end;
      [|destruct (truthy (output opts));
        [destruct (writeFileSync (outputPath opts)); [|discriminate]|]];
      injection H as <-; simpl; auto.
  - destruct (foldM (checkFunction c) (allFunctions c) []) as [uf| | |] eqn:F;
      try discriminate.
    apply (foldM_push _ _ (checkFunction_flag c)) in F as [-> _].
    cbn [bind] in H.
    match type of H with (if ?b then _ else _) = _ => destruct b end;
      [|destruct (truthy (output opts));
        [destruct (writeFileSync (outputPath opts)); [|discriminate]|]];
      injection H as <-; simpl; auto.
Qed.

Lemma main_written out r :
  main relative readFileSync writeFileSync opts files now = Normal out ->
  written out = Some r ->
  r = Report now (length files) (length (allExports c))
        (if exportsOnly opts then None else Some (length (allFunctions c)))
        (map (toEntry relative) (unusedExports out))
        (if exportsOnly opts then None
         else Some (map (toEntry relative) (unusedFunctions out))).
Proof.
  unfold main. fold c. intros H W.
  destruct (foldM (checkExport relative c) (allExports c) []) as [ue| | |];
    try discriminate.
  cbn [bind] in H.
  destruct (if exportsOnly opts then Normal []
            else foldM (checkFunction c) (allFunctions c) []) as [uf| | |];
    try discriminate.
  cbn [bind] in H.
  match type of H with (if ?b then _ else _) = _ => destruct b end;
    [injection H as <-; discriminate|].
  destruct (truthy (output opts)); [|injection H as <-; discriminate].
  destruct (writeFileSync (outputPath opts)); [|discriminate].
  injection H as <-. simpl in W. now injection W as <-.
Qed.

(** How a run ends once both checks have returned: it returns, unless it
    has something to report, an output path, and the write fails. *)
Lemma main_ends :
  (forall e, In e (allExports c) -> exists b, flagExport relative c e = Normal b) ->
  (forall d, In d (allFunctions c) -> exists b, flagFunction c d = Normal b) ->
  (exists out, main relative readFileSync writeFileSync opts files now = Normal out)
  \/ writeFails writeFileSync opts (main relative readFileSync writeFileSync opts files now).
Proof.
  intros HE HF. unfold writeFails, main. fold c.
  rewrite (foldM_push_total _ _ (checkExport_flag relative c) _ _ HE). cbn [bind].
  assert (exists uf,
            (if exportsOnly opts then Normal []
             else foldM (checkFunction c) (allFunctions c) []) = Normal uf) as (uf & ->).
  { destruct (exportsOnly opts); [now eexists|].
    rewrite (foldM_push_total _ _ (checkFunction_flag c) _ _ HF). now eexists. }
  cbn [bind].
  match goal with |- context [if ?b then _ else _] => destruct b end;
    [left; now eexists|].
  destruct (truthy (output opts)); [|left; now eexists].
  destruct (writeFileSync (outputPath opts)); [left; now eexists|right; auto].
Qed.

Lemma in_unusedFunctions out d :
  main relative readFileSync writeFileSync opts files now = Normal out ->
  (In d (unusedFunctions out) <->
   exportsOnly opts = false /\ In d (allFunctions c) /\ flagFunction c d = Normal true).
Proof.
  intro H. apply main_lists in H as (_ & _ & _ & ->).
  destruct (exportsOnly opts).
  - split; [intros []|intros [? _]; discriminate].
  - rewrite filter_In. unfold flagged. split.
    + intros [Hin F]. destruct (flagFunction c d) as [[|]| | |]; try discriminate. auto.
    + intros (_ & Hin & ->). auto.
Qed.

Lemma in_unusedExports out e :
  main relative readFileSync writeFileSync opts files now = Normal out ->
  (In e (unusedExports out) <->
   In e (allExports c) /\ flagExport relative c e = Normal true).
Proof.
  intro H. apply main_lists in H as (_ & -> & _ & _).
  rewrite filter_In. unfold flagged. split.
  - intros [Hin F]. destruct (flagExport relative c e) as [[|]| | |]; try discriminate. auto.
  - intros (Hin & ->). auto.
Qed.

(** What a function declaration of the scan brings with it. *)
Lemma function_decl d :
  In d (allFunctions c) ->
  exists content,
    readFileSync (file d) = Some content
    /\ Map_get (fileContents c) (file d) = Some content
    /\ In d (extractFunctions content (file d))
    /\ wordOnly (name d) = true /\ content <> [].
Proof.
  intro H. apply in_allFunctions in H as (_ & content & Hf & R & H).
  exists content. split; [exact R|]. split; [now apply collect_get|].
  split; [exact H|]. apply extractFunctions_site in H.
  destruct (type d); try contradiction; apply declSite_word in H as (W & N1 & N2);
    now split.
Qed.

(** A function declaration of the scan never makes the functions check
    throw: its name is captured by [(\w+)]. *)
Lemma functions_check_returns d :
  In d (allFunctions c) -> exists b, flagFunction c d = Normal b.
Proof.
  intro Hd. apply function_decl in Hd as (content & R & G & Hx & W & Hne).
  erewrite flagFunction_word by eassumption. now eexists.
Qed.

(** The scan returns whenever the names of the export declarations are free
    of pattern syntax, which the names captured by [(\w+)] always are, and the
    report, if there is one to write, can be written. *)
(** Nor does an export declaration whose name is free of pattern syntax make
    the exports check throw. *)
Lemma exports_check_returns e :
  plain (name e) = true -> exists b, flagExport relative c e = Normal b.
Proof.
  intro P. unfold flagExport.
  destruct (isEntryPoint (relative (file e))); [now exists false|].
  destruct (countUsage_fold e _ (RegExp_wordBoundary _ P) (fileContents c) 0)
    as (k & F & _).
  rewrite F. cbn [bind]. now eexists.
Qed.

Lemma main_returns :
  (forall e, In e (allExports c) -> plain (name e) = true) ->
  (truthy (output opts) = true -> writeFileSync (outputPath opts) = true) ->
  exists out, main relative readFileSync writeFileSync opts files now = Normal out.
Proof.
  intros Hplain Hw.
  destruct main_ends as [H|(_ & T & W)]; [| |exact H|].
  - intros e He. apply exports_check_returns. now apply Hplain.
  - apply functions_check_returns.
  - rewrite (Hw T) in W. discriminate.
Qed.

End Run.


(** ** Entry points *)

Ltac crunch :=
  repeat match goal with
  | |- context [chrMatch ?ic ?a ?x] => destruct (chrMatch ic a x); cbn -[chrMatch]
  end.

Lemma index_tail ic b t : matchesAt ic indexRegex b t = tailOf ic "index" t.
Proof.
  unfold matchesAt, tailOf, extensions, indexRegex, extTail, extClass.
  do 10 (destruct t as [|? t]; cbn -[chrMatch]; crunch; rewrite ?Nat.leb_refl;
         try reflexivity).
Qed.

Lemma main_tail ic b t : matchesAt ic mainRegex b t = tailOf ic "main" t.
Proof.
  unfold matchesAt, tailOf, extensions, mainRegex, extTail, extClass.
  do 9 (destruct t as [|? t]; cbn -[chrMatch]; crunch; rewrite ?Nat.leb_refl;
        try reflexivity).
Qed.

Lemma app_tail ic b t : matchesAt ic appRegex b t = tailOf ic "app" t.
Proof.
  unfold matchesAt, tailOf, extensions, appRegex, extTail, extClass.
  do 8 (destruct t as [|? t]; cbn -[chrMatch]; crunch; rewrite ?Nat.leb_refl;
        try reflexivity).
Qed.

Lemma test_matchesAt ic r s :
  test ic r s = true <-> exists pre t, s = pre ++ t /\ matchesAt ic r (rev pre) t = true.
Proof.
  rewrite test_iff. unfold matchesAt. split; intros (pre & t & E & H); exists pre, t;
    (split; [exact E|]); destruct (ends ic r (Cur (rev pre) t) []); congruence.
Qed.

Lemma sameText_exact w : forall t, sameText false w t = true <-> t = w.
Proof.
  induction w as [|a w IH]; intros [|x t]; simpl; split; intro H;
    try discriminate; try reflexivity.
  - apply andb_true_iff in H as [Hx Ht]. apply N.eqb_eq in Hx. apply IH in Ht.
    now subst.
  - injection H as -> ->. rewrite N.eqb_refl. simpl. now apply IH.
Qed.

Lemma sameText_nocase w : forall t, sameText true w t = true <-> map canon t = map canon w.
Proof.
  induction w as [|a w IH]; intros [|x t]; simpl; split; intro H;
    try discriminate; try reflexivity.
  - apply andb_true_iff in H as [Hx Ht]. apply N.eqb_eq in Hx. apply IH in Ht.
    now rewrite Hx, Ht.
  - injection H as Hx Ht. rewrite Hx, N.eqb_refl. simpl. now apply IH.
Qed.

(** ** The call scan at a definition site *)

Lemma call_at_site s nm :
  declSite (N_of_ascii "(") s nm -> test false (callRegex nm) s = true.
Proof.
  intros (pre & sp0 & ws & post & -> & Hsp & Hws & Hne & Hw). apply test_iff.
  exists (pre ++ [sp0]), (nm ++ ws ++ N_of_ascii "(" :: post).
  split; [now rewrite <- app_assoc|]. rewrite rev_app_distr.
  change (rev [sp0] ++ rev pre) with (sp0 :: rev pre). intro E.
  set (z0 := Cur (sp0 :: rev pre) (nm ++ ws ++ N_of_ascii "(" :: post)) in *.
  set (z1 := Cur (rev nm ++ sp0 :: rev pre) (ws ++ N_of_ascii "(" :: post)).
  set (z2 := Cur (rev ws ++ rev nm ++ sp0 :: rev pre) (N_of_ascii "(" :: post)).
  set (z3 := Cur (N_of_ascii "(" :: rev ws ++ rev nm ++ sp0 :: rev pre) post).
  assert (In (z3, @nil (nat * str)) (ends false (callRegex nm) z0 [])) as HI.
  { unfold callRegex. change (mkSeq (WordB :: ?l)) with (Seq WordB (mkSeq l)).
    apply ends_seq_in. exists z0, []. split.
    - simpl. unfold atBoundary, wordBefore, wordAfter, z0. simpl.
      rewrite (space_not_word _ Hsp). destruct nm as [|n nm]; [congruence|].
      simpl in Hw. apply andb_true_iff in Hw as [Hn _]. simpl. rewrite Hn. now left.
    - apply ends_lits_in. exists z1. split; [now split|].
      change (mkSeq [Star sp; Chr (N_of_ascii "(")])
        with (Seq (Star sp) (Seq (Chr (N_of_ascii "(")) Empty)).
      apply ends_seq_in. exists z2, []. split.
      + apply ends_star_class_in. split; [reflexivity|]. exists ws. split.
        * now rewrite (forallb_ext_eq _ isSpace _ classMatch_sp).
        * now split.
      + apply ends_seq_in. exists z3, []. split; [|now left].
        apply ends_chr_in. split; [now split|reflexivity]. }
  rewrite E in HI. destruct HI.
Qed.

Lemma callCount_positive nm s : test false (callRegex nm) s = true -> 1 <= callCount nm s.
Proof.
  intro T. unfold callCount.
  destruct (matchAll false (callRegex nm) s) as [l|] eqn:M.
  - apply matchAll_some_nonempty in M. destruct l; [congruence|simpl; lia].
  - apply matchAll_none in M. congruence.
Qed.

Lemma alsoExported_local readFileSync opts files d content :
  In (file d) files -> readFileSync (file d) = Some content ->
  alsoExported (collect readFileSync opts files) d = exportedInFile content d.
Proof.
  intros Hf R. unfold alsoExported, exportedInFile.
  apply eq_true_iff_eq. rewrite !existsb_exists. split.
  - intros (e & He & H). apply andb_true_iff in H as [Hn Hfile].
    apply eqs_eq in Hfile. apply in_allExports in He as (content' & _ & R' & He).
    rewrite Hfile in R', He. exists e. split; [congruence|exact Hn].
  - intros (e & He & Hn). exists e. pose proof (extractExports_file _ _ _ He) as Efile.
    split.
    + apply in_allExports. exists content. rewrite Efile. auto.
    + rewrite Hn, Efile, eqs_refl. reflexivity.
Qed.

(** ** Whole-word occurrences *)

Lemma ends_wordB_in ic z c y :
  In y (ends ic WordB z c) <-> atBoundary z = true /\ y = (z, c).
Proof.
  simpl. destruct (atBoundary z); simpl; split.
  - intros [H|[]]. auto.
  - intros [_ ->]. now left.
  - intros [].
  - intros [H _]. discriminate.
Qed.

Lemma wordBoundary_test nm s :
  test false (wordBoundaryRegex nm) s = true <-> wholeWord nm s.
Proof.
  rewrite test_iff. unfold wordBoundaryRegex, wholeWord.
  change (mkSeq (WordB :: ?l)) with (Seq WordB (mkSeq l)). split.
  - intros (pre & suf & -> & Hne).
    destruct (ends false (Seq WordB (mkSeq (map Chr nm ++ [WordB]))) (Cur (rev pre) suf) [])
      as [|y l] eqn:E; [congruence|].
    assert (In y (ends false (Seq WordB (mkSeq (map Chr nm ++ [WordB])))
                       (Cur (rev pre) suf) [])) as HI by (rewrite E; now left).
    apply ends_seq_in in HI as (z1 & c1 & H1 & HI).
    apply ends_wordB_in in H1 as [B1 H1]. injection H1 as -> ->.
    apply ends_lits_in in HI as (z2 & [A2 B2] & HI).
    apply ends_seq_in in HI as (z3 & c3 & H3 & _).
    apply ends_wordB_in in H3 as [B3 H3]. injection H3 as -> _.
    simpl in A2, B2. exists pre, (after z2). subst suf. split; [reflexivity|].
    split; [exact B1|]. rewrite <- B2. now destruct z2.
  - intros (pre & post & -> & B1 & B2). exists pre, (nm ++ post).
    split; [reflexivity|]. intro E.
    assert (In (Cur (rev nm ++ rev pre) post, @nil (nat * str))
               (ends false (Seq WordB (mkSeq (map Chr nm ++ [WordB])))
                     (Cur (rev pre) (nm ++ post)) [])) as HI.
    { apply ends_seq_in. exists (Cur (rev pre) (nm ++ post)), []. split.
      - now apply ends_wordB_in.
      - apply ends_lits_in. exists (Cur (rev nm ++ rev pre) post). split; [now split|].
        apply ends_seq_in. exists (Cur (rev nm ++ rev pre) post), []. split.
        + now apply ends_wordB_in.
        + now left. }
    rewrite E in HI. destruct HI.
Qed.

Lemma wholeWord_length nm s : wholeWord nm s -> length nm <= length s.
Proof. intros (pre & post & -> & _). rewrite !length_app. lia. Qed.

(** The exports check for a name free of pattern syntax: the declaration is
    listed exactly when its file is not an entry point and no other file that
    was read imports the name or holds a whole-word occurrence of it. *)
Lemma export_check_plain relative readFileSync writeFileSync opts files now out e :
  main relative readFileSync writeFileSync opts files now = Normal out ->
  In e (allExports (collectedDecls out)) ->
  plain (name e) = true ->
  (In e (unusedExports out) <->
   isEntryPoint (relative (file e)) = false
   /\ forall f content,
        In f files -> readFileSync f = Some content -> f <> file e ->
        has (findImports content) (name e) = false /\ ~ wholeWord (name e) content).
Proof.
  intros H He P. pose proof H as Ec. apply main_lists in Ec as (Ec & _).
  rewrite Ec in He. set (c := collect readFileSync opts files) in *.
  destruct (countUsage_fold e _ (RegExp_wordBoundary _ P) (fileContents c) 0)
    as (k & F & K). simpl in F.
  assert (existsb (usedIn e (wordBoundaryRegex (name e))) (fileContents c) = false <->
          forall f content,
            In f files -> readFileSync f = Some content -> f <> file e ->
            has (findImports content) (name e) = false /\ ~ wholeWord (name e) content)
    as Hused.
  { rewrite <- not_true_iff_false, existsb_exists. split.
    - intros Hn f content Hf R Hd.
      assert (usedIn e (wordBoundaryRegex (name e)) (f, content) = false) as U.
      { apply not_true_iff_false. intro U. apply Hn. exists (f, content).
        split; [|exact U]. apply collect_contents. auto. }
      unfold usedIn in U. simpl in U. apply eqs_neq in Hd. rewrite Hd in U. simpl in U.
      apply orb_false_iff in U as [U1 U2]. split; [exact U1|].
      intro W. apply wordBoundary_test in W. congruence.
    - intros Hall ([f content] & Hin & U). apply collect_contents in Hin as [Hf R].
      unfold usedIn in U. simpl in U. apply andb_true_iff in U as [Hd U].
      apply negb_true_iff, eqs_neq in Hd. destruct (Hall f content Hf R Hd) as [U1 U2].
      rewrite U1 in U. simpl in U. apply U2. now apply wordBoundary_test. }
  rewrite (in_unusedExports _ _ _ _ _ _ _ e H). fold c. unfold flagExport.
  destruct (isEntryPoint (relative (file e))).
  - split; [intros [_ D]; discriminate|intros [D _]; discriminate].
  - rewrite F. cbn [bind]. split.
    + intros [_ D]. injection D as D. apply Nat.eqb_eq in D. split; [reflexivity|].
      apply Hused. now apply K.
    + intros [_ D]. split; [exact He|]. f_equal. apply Nat.eqb_eq. apply K.
      now apply Hused.
Qed.

(** ** Entries of an export list *)


Lemma trimStart_blank lead s : blank lead -> trimStart (lead ++ s) = trimStart s.
Proof.
  unfold blank. induction lead as [|x lead IH]; simpl; intro H; [reflexivity|].
  apply andb_true_iff in H as [Hx H]. rewrite Hx. auto.
Qed.

Lemma blank_rev w : blank w -> blank (rev w).
Proof.
  unfold blank. rewrite !forallb_forall. intros H x Hx. apply H. now apply in_rev.
Qed.

Lemma trim_solid lead body trail :
  blank lead -> blank trail -> solidEnds body -> trim (lead ++ body ++ trail) = body.
Proof.
  intros Hl Ht [(h & t & -> & Hh) (l & t' & Er & Hlast)]. unfold trim.
  rewrite trimStart_blank by assumption. simpl. rewrite Hh.
  change (h :: t ++ trail) with ((h :: t) ++ trail).
  rewrite rev_app_distr, trimStart_blank by now apply blank_rev.
  rewrite Er. simpl. rewrite Hlast. rewrite <- Er. apply rev_involutive.
Qed.

Lemma identifier_head w : identifier w -> exists h t, w = h :: t /\ isSpace h = false.
Proof.
  intros [Hne Hw]. destruct w as [|h t]; [congruence|]. exists h, t.
  simpl in Hw. apply andb_true_iff in Hw as [Hh _]. split; [reflexivity|].
  now apply word_not_space.
Qed.

Lemma identifier_rev w : identifier w -> identifier (rev w).
Proof.
  intros [Hne Hw]. split.
  - intro E. apply Hne. rewrite <- (rev_involutive w), E. reflexivity.
  - unfold wordOnly in *. rewrite forallb_forall in *. intros x Hx. apply Hw.
    now apply in_rev.
Qed.

Lemma identifier_solid w : identifier w -> solidEnds w.
Proof.
  intro H. split; [now apply identifier_head|]. now apply identifier_head, identifier_rev.
Qed.

Lemma identifier_no_space w x : identifier w -> In x w -> isSpace x = false.
Proof.
  intros [_ Hw] Hx. unfold wordOnly in Hw. rewrite forallb_forall in Hw.
  now apply word_not_space, Hw.
Qed.

Lemma asRegex_needs_space b x a : isSpace x = false -> ends false asRegex (Cur b (x :: a)) [] = [].
Proof.
  intro H. destruct (ends false asRegex (Cur b (x :: a)) []) as [|y l] eqn:E;
    [reflexivity|]. exfalso.
  assert (In y (ends false asRegex (Cur b (x :: a)) [])) as HI by (rewrite E; now left).
  unfold asRegex in HI. change (mkSeq (Plus sp :: ?l)) with (Seq (Plus sp) (mkSeq l)) in HI.
  apply ends_seq_in in HI as (z1 & c1 & H1 & _).
  apply ends_plus_class_in in H1 as [_ (run & Hne & Hs & [A _])]. simpl in A.
  destruct run as [|r run]; [congruence|]. injection A as <- _. cbn [forallb] in Hs.
  rewrite classMatch_sp, H in Hs. discriminate.
Qed.


Lemma splitLoop_solid : forall s fuel piece b,
  (forall x, In x s -> isSpace x = false) ->
  splitLoop fuel asRegex piece b s = [rev piece ++ s].
Proof.
  induction s as [|x s IH]; intros fuel piece b H; destruct fuel as [|f];
    cbn [splitLoop]; try reflexivity.
  - now rewrite app_nil_r.
  - rewrite asRegex_needs_space by (apply H; now left).
    rewrite IH by (intros; apply H; now right). simpl. now rewrite <- app_assoc.
Qed.



Lemma splitOn_solid sep s : ~ In sep s -> splitOn sep s = [s].
Proof.
  induction s as [|x s IH]; simpl; intro H; [reflexivity|].
  destruct (N.eqb_spec x sep) as [->|Hx]; [tauto|]. rewrite IH by tauto. reflexivity.
Qed.

Lemma splitOn_app sep s rest :
  ~ In sep s -> splitOn sep (s ++ sep :: rest) = s :: splitOn sep rest.
Proof.
  induction s as [|x s IH]; simpl; intro H.
  - now rewrite N.eqb_refl.
  - destruct (N.eqb_spec x sep) as [->|Hx]; [tauto|]. rewrite IH by tauto. reflexivity.
Qed.

Lemma splitOn_join sep items :
  items <> [] -> (forall i, In i items -> ~ In sep i) ->
  splitOn sep (join sep items) = items.
Proof.
  induction items as [|i items IH]; intros Hne H; [congruence|].
  destruct items as [|j items].
  - simpl. apply splitOn_solid. apply H. now left.
  - change (join sep (i :: j :: items)) with (i ++ sep :: join sep (j :: items)).
    rewrite splitOn_app by (apply H; now left). f_equal. apply IH; [discriminate|].
    intros k Hk. apply H. now right.
Qed.





(** ** Entries of an import list *)

Lemma importListNames_entries inner :
  importListNames inner = filter nonEmpty (map importEntryName (splitOn comma inner)).
Proof. reflexivity. Qed.

(** Over a whole run the greedy iteration ends first at the end of the run. *)
Lemma star_step1_hd p : forall run fuel b rest c,
  forallb p run = true -> length run <= fuel ->
  match rest with [] => True | x :: _ => p x = false end ->
  exists tl, star (step1 p) fuel (Cur b (run ++ rest)) c
             = (Cur (rev run ++ b) rest, c) :: tl.
Proof.
  induction run as [|x run IH]; intros fuel b rest c Hp Hf Hr.
  - destruct fuel as [|f]; [now exists []|]. cbn [star app rev].
    replace (filter (progress (Cur b rest)) (step1 p (Cur b rest) c))
      with (@nil (cursor * caps)); [now exists []|].
    unfold step1. simpl. destruct rest as [|y rest]; [reflexivity|]. now rewrite Hr.
  - destruct fuel as [|f]; [simpl in Hf; lia|]. simpl in Hp, Hf.
    apply andb_true_iff in Hp as [Px Pr]. cbn [star app rev].
    change (step1 p (Cur b (x :: run ++ rest)) c)
      with (if p x then [(Cur (x :: b) (run ++ rest), c)] else []).
    rewrite Px. cbn [filter].
    replace (progress (Cur b (x :: run ++ rest)) (Cur (x :: b) (run ++ rest), c))
      with true by (unfold progress; simpl; symmetry; apply Nat.ltb_lt; lia).
    cbn [flat_map fst snd]. destruct (IH f (x :: b) rest c Pr) as (tl & E); [lia|exact Hr|].
    rewrite E, <- (app_assoc (rev run) [x] b). simpl. eexists. reflexivity.
Qed.

Lemma plus_sp_hd run b rest c :
  run <> [] -> blank run ->
  match rest with [] => True | x :: _ => isSpace x = false end ->
  exists tl, ends false (Plus sp) (Cur b (run ++ rest)) c
             = (Cur (rev run ++ b) rest, c) :: tl.
Proof.
  intros Hne Hb Hr. destruct run as [|x run]; [congruence|]. unfold blank in Hb.
  simpl in Hb. apply andb_true_iff in Hb as [Hx Hb].
  change (ends false (Plus sp) (Cur b ((x :: run) ++ rest)) c)
    with (flat_map (fun zc => star (step1 (classMatch false false [CEsc ESpace]))
                                   (length (after (fst zc))) (fst zc) (snd zc))
                   (step1 (classMatch false false [CEsc ESpace])
                          (Cur b (x :: run ++ rest)) c)).
  change (step1 (classMatch false false [CEsc ESpace]) (Cur b (x :: run ++ rest)) c)
    with (if classMatch false false [CEsc ESpace] x
          then [(Cur (x :: b) (run ++ rest), c)] else []).
  rewrite classMatch_sp, Hx. cbn [flat_map fst snd after].
  destruct (star_step1_hd (classMatch false false [CEsc ESpace]) run
              (length (run ++ rest)) (x :: b) rest c) as (tl & E).
  - now rewrite (forallb_ext_eq _ isSpace _ classMatch_sp).
  - rewrite length_app. lia.
  - destruct rest; [exact I|]. now rewrite classMatch_sp.
  - rewrite E. cbn [rev]. rewrite <- (app_assoc (rev run) [x] b). simpl.
    eexists. reflexivity.
Qed.

(** At a rename the separator found first takes all the white space on
    both sides of [as]. *)
Lemma asRegex_hd b w1 w2 rest :
  blank w1 -> w1 <> [] -> blank w2 -> w2 <> [] ->
  match rest with [] => True | x :: _ => isSpace x = false end ->
  exists tl, ends false asRegex (Cur b (w1 ++ u "as" ++ w2 ++ rest)) []
             = (Cur (rev w2 ++ rev (u "as") ++ rev w1 ++ b) rest, []) :: tl.
Proof.
  intros B1 N1 B2 N2 Hr.
  destruct (plus_sp_hd w1 b (u "as" ++ w2 ++ rest) [] N1 B1) as (tl1 & E1);
    [reflexivity|].
  destruct (plus_sp_hd w2 (rev (u "as") ++ rev w1 ++ b) rest [] N2 B2 Hr) as (tl2 & E2).
  change (ends false asRegex ?z [])
    with (flat_map (fun zc => ends false (mkSeq (lits "as" ++ [Plus sp])) (fst zc) (snd zc))
                   (ends false (Plus sp) z [])).
  rewrite E1. cbn [flat_map fst snd].
  change (ends false (mkSeq (lits "as" ++ [Plus sp])) (Cur (rev w1 ++ b) (u "as" ++ w2 ++ rest)) [])
    with (flat_map (fun zc => ends false (Seq (Plus sp) Empty) (fst zc) (snd zc))
                   [(Cur (rev (u "as") ++ rev w1 ++ b) (w2 ++ rest), @nil (nat * str))] ++ []).
  cbn [flat_map fst snd].
  change (ends false (Seq (Plus sp) Empty) ?z ?c)
    with (flat_map (fun zc => [(fst zc, snd zc)]) (ends false (Plus sp) z c)).
  rewrite E2. cbn [flat_map fst snd app]. eexists. reflexivity.
Qed.

Lemma splitLoop_at : forall w fuel piece b rest z1 c1 tl,
  (forall x, In x w -> isSpace x = false) ->
  length w < fuel -> rev piece ++ w <> [] -> rest <> [] ->
  ends false asRegex (Cur (rev w ++ b) rest) [] = (z1, c1) :: tl ->
  splitLoop fuel asRegex piece b (w ++ rest)
  = (rev piece ++ w) :: splitLoop (fuel - length w - 1) asRegex [] (before z1) (after z1).
Proof.
  induction w as [|x w IH]; intros fuel piece b rest z1 c1 tl Hw Hf Hp Hr He;
    (destruct fuel as [|f]; [simpl in Hf; lia|]).
  - cbn [app rev length] in *. destruct rest as [|y rest]; [congruence|]. cbn [splitLoop].
    rewrite He. rewrite app_nil_r in *. replace (S f - 0 - 1) with f by lia.
    destruct piece as [|q piece]; [simpl in Hp; congruence|]. reflexivity.
  - cbn [app splitLoop].
    rewrite asRegex_needs_space by (apply Hw; now left).
    rewrite (IH f (x :: piece) (x :: b) rest z1 c1 tl).
    + simpl. now rewrite <- app_assoc.
    + intros; apply Hw; now right.
    + simpl in Hf. lia.
    + simpl. rewrite <- app_assoc. simpl. destruct (rev piece); discriminate.
    + exact Hr.
    + cbn [rev] in He. now rewrite <- app_assoc in He.
Qed.

Lemma split_nonempty r s :
  s <> [] -> split r s = splitLoop (S (2 * length s)) r [] [] s.
Proof. destruct s; [congruence|reflexivity]. Qed.

Lemma split_rename orig w1 w2 alias :
  identifier orig -> blank w1 -> w1 <> [] -> blank w2 -> w2 <> [] -> identifier alias ->
  split asRegex (orig ++ w1 ++ u "as" ++ w2 ++ alias) = [orig; alias].
Proof.
  intros Ho B1 N1 B2 N2 Ha.
  destruct (identifier_head _ Ha) as (h & t & Ea & Hh).
  destruct (asRegex_hd (rev orig ++ []) w1 w2 alias B1 N1 B2 N2) as (tl & E).
  { rewrite Ea. exact Hh. }
  rewrite split_nonempty
    by (destruct Ho as [Hne _]; destruct orig; [congruence|discriminate]).
  rewrite (splitLoop_at orig _ [] [] (w1 ++ u "as" ++ w2 ++ alias)
             (Cur (rev w2 ++ rev (u "as") ++ rev w1 ++ rev orig ++ []) alias) [] tl
             (fun x Hx => identifier_no_space _ _ Ho Hx)).
  - cbn [rev app before after]. f_equal.
    rewrite splitLoop_solid by (intros x Hx; exact (identifier_no_space _ _ Ha Hx)).
    reflexivity.
  - rewrite length_app. lia.
  - simpl. destruct Ho as [Hne _]. exact Hne.
  - destruct w1; [congruence|discriminate].
  - exact E.
Qed.

(** A renamed entry of an import list is recorded under its alias, an entry
    without rename under its name. *)
Lemma importEntryName_renamed lead orig w1 w2 alias trail :
  blank lead -> identifier orig -> blank w1 -> w1 <> [] -> blank w2 -> w2 <> [] ->
  identifier alias -> blank trail ->
  importEntryName (lead ++ (orig ++ w1 ++ u "as" ++ w2 ++ alias) ++ trail) = alias.
Proof.
  intros Hl Ho B1 N1 B2 N2 Ha Ht. unfold importEntryName.
  rewrite trim_solid; try assumption.
  - rewrite split_rename by assumption. cbn [last].
    rewrite <- (app_nil_r alias) at 1. apply (trim_solid [] alias []); try reflexivity.
    now apply identifier_solid.
  - split.
    + destruct (identifier_head _ Ho) as (h & t & -> & Hh). exists h. eexists.
      split; [reflexivity|exact Hh].
    + destruct (identifier_head _ (identifier_rev _ Ha)) as (l & t & El & Hlast).
      exists l. eexists. split; [|exact Hlast].
      rewrite !app_assoc, rev_app_distr, El. reflexivity.
Qed.

Lemma importEntryName_plain lead orig trail :
  blank lead -> identifier orig -> blank trail ->
  importEntryName (lead ++ orig ++ trail) = orig.
Proof.
  intros Hl Ho Ht. unfold importEntryName.
  rewrite trim_solid by (auto using identifier_solid).
  destruct Ho as [Hne Hw]. unfold split. destruct orig as [|o orig]; [congruence|].
  rewrite splitLoop_solid
    by (intros x Hx; exact (identifier_no_space _ _ (conj Hne Hw) Hx)).
  cbn [last rev app]. rewrite <- (app_nil_r (o :: orig)) at 1.
  apply (trim_solid [] (o :: orig) []); try reflexivity.
  apply identifier_solid. now split.
Qed.

(** * The claims *)

(** C1, at a name that is not free of pattern syntax.  The export list of
    [src/a.js] records the name [foo /* ( */]; no other file imports it or
    mentions it, and the file is not an entry point, yet the scan ends in the
    [SyntaxError] thrown by [new RegExp] and lists nothing. *)
Theorem unescaped_name_throws :
  let e := Decl (u "foo /* ( */") named (u "src/a.js") in
  In e (allExports (collect (disk unescapedProject) (Options false None)
                            (paths unescapedProject)))
  /\ isEntryPoint (cwd (file e)) = false
  /\ (forall f content,
         In f (paths unescapedProject) -> disk unescapedProject f = Some content ->
         f <> file e ->
         has (findImports content) (name e) = false /\ ~ wholeWord (name e) content)
  /\ RegExp (wordBoundaryOf (name e)) = SyntaxError
  /\ scan false None unescapedProject = SyntaxError.
Proof.
  intro e. split; [vm_compute; auto|]. split; [vm_compute; reflexivity|].
  split; [|split; vm_compute; reflexivity].
  intros f content Hf R Hd. simpl in Hf. destruct Hf as [<-|[<-|[]]].
  - now elim Hd.
  - assert (Some content = Some (u "let z = 1")) as E by (rewrite <- R; reflexivity).
    injection E as ->. split; [vm_compute; reflexivity|].
    intro W. apply wholeWord_length in W. vm_compute in W. lia.
Qed.

(** C2, at an exported asynchronous function and at a named default export:
    the look-behind of [funcRegex] only sees [export] when it stands directly
    before [function], so each of the two snippets yields a plain-function
    declaration next to its export.  The other snippets, one construct each,
    yield the one declaration expected. *)
Theorem exported_function_counted_twice :
  let f := u "src/a.js" in
  let both := fun content => (extractExports content f, extractFunctions content f) in
  both (u "export async function foo(){}")
  = ([Decl (u "foo") named f], [Decl (u "foo") function f])
  /\ both (u "export default function Bar(){}")
     = ([Decl (u "Bar") default f], [Decl (u "Bar") function f])
  /\ both (u "export function foo(){}") = ([Decl (u "foo") named f], [])
  /\ both (u "export const foo = 1") = ([Decl (u "foo") named f], [])
  /\ both (u "export class Foo {}") = ([Decl (u "Foo") named f], [])
  /\ both (u "export default class Bar {}") = ([Decl (u "Bar") default f], [])
  /\ both (u "export { x as y }") = ([Decl (u "x") named f], [])
  /\ both (u "function foo(){}") = ([], [Decl (u "foo") function f])
  /\ both (u "const foo = (a, b) => a") = ([], [Decl (u "foo") arrow f])
  /\ both (u "const foo = async x => x") = ([], [Decl (u "foo") arrow f]).
Proof. vm_compute. repeat split; reflexivity. Qed.

(** What the functions check does with a plain function: it is judged by
    its own file alone; the call scan [\bname\s*\(] finds its definition (so
    at least one match), and the function is put in the list of unused
    functions exactly when that scan finds nothing more than one match and
    the reference scan [[^\w]name[^\w(]] finds nothing anywhere in the file,
    the definition included.  A second call-shaped occurrence therefore keeps
    it out of the list. *)
Lemma plain_function_check relative readFileSync writeFileSync opts files now out d :
  main relative readFileSync writeFileSync opts files now = Normal out ->
  In d (allFunctions (collectedDecls out)) ->
  type d = function ->
  exists content,
    readFileSync (file d) = Some content
    /\ RegExp (callPatternOf (name d)) = Normal (callRegex (name d))
    /\ RegExp (refPatternOf (name d)) = Normal (refRegex (name d))
    /\ 1 <= callCount (name d) content
    /\ (In d (unusedFunctions out) <->
        exportedInFile content d = false
        /\ callCount (name d) content - 1 <= 0
        /\ test false (refRegex (name d)) content = false)
    /\ (2 <= callCount (name d) content -> ~ In d (unusedFunctions out)).
Proof.
  intros H Hd Ht. pose proof H as Ec. apply main_lists in Ec as (Ec & _).
  rewrite Ec in Hd. pose proof Hd as Hall.
  apply in_allFunctions in Hall as (Eo & content0 & Hfiles & R0 & _).
  apply function_decl in Hd as (content & R & G & Hx & W & Hne).
  pose proof Hx as S. apply extractFunctions_site in S. rewrite Ht in S.
  assert (In d (unusedFunctions out) <->
          exportedInFile content d = false
          /\ callCount (name d) content - 1 <= 0
          /\ test false (refRegex (name d)) content = false) as Hiff.
  { split.
    - intro Hu. eapply in_unusedFunctions in Hu as (_ & _ & F); [|exact H].
      erewrite flagFunction_word in F by eassumption.
      injection F as F. apply andb_true_iff in F as [F F3].
      apply andb_true_iff in F as [F1 F2].
      rewrite (alsoExported_local _ _ _ _ _ Hfiles R) in F1.
      apply negb_true_iff in F1, F3. apply Nat.leb_le in F2. repeat split; auto. lia.
    - intros (F1 & F2 & F3). eapply in_unusedFunctions; [exact H|].
      split; [exact Eo|]. split.
      + apply in_allFunctions. split; [exact Eo|]. exists content. auto.
      + erewrite flagFunction_word by eassumption.
        rewrite (alsoExported_local _ _ _ _ _ Hfiles R), F1, F3.
        replace (callCount (name d) content <=? 1) with true; [reflexivity|].
        symmetry. apply Nat.leb_le. lia. }
  exists content. split; [exact R|].
  split; [now apply RegExp_call, wordOnly_plain|].
  split; [now apply RegExp_ref, wordOnly_plain|].
  split; [now apply callCount_positive, call_at_site|].
  split; [exact Hiff|].
  intros H2 Hu. apply Hiff in Hu as (_ & Hc & _). lia.
Qed.

Lemma plain_function_check_witness :
  In (Decl (u "idle") function (u "src/a.js")) (unusedFunctions callsOutcome)
  /\ exists content,
      disk callsProject (u "src/a.js") = Some content
      /\ callCount (u "idle") content = 1
      /\ callCount (u "busy") content = 2
      /\ (2 <= callCount (u "busy") content ->
          ~ In (Decl (u "busy") function (u "src/a.js")) (unusedFunctions callsOutcome)).
Proof.
  split; [vm_compute; auto|].
  destruct (plain_function_check cwd (disk callsProject) writes (Options false None)
              (paths callsProject) (u "2024-01-01T00:00:00.000Z") callsOutcome
              (Decl (u "busy") function (u "src/a.js")))
    as (content & R & _ & _ & _ & _ & H2).
  - vm_compute. reflexivity.
  - vm_compute. auto.
  - reflexivity.
  - exists content. split; [exact R|].
    assert (Some content
            = Some (u "function idle(){ return 0 } function busy(){ return 1 } busy();"))
      as E by (rewrite <- R; reflexivity).
    injection E as ->.
    split; [vm_compute; reflexivity|]. split; [vm_compute; reflexivity|]. exact H2.
Defined.

(** ** A definition written with a space before its parenthesis *)

Lemma ref_between s nm pre a b post :
  s = pre ++ a :: nm ++ b :: post ->
  isWord a = false -> isWord b = false -> b <> N_of_ascii "(" ->
  test false (refRegex nm) s = true.
Proof.
  intros -> Ha Hb Hp. apply test_iff.
  exists pre, (a :: nm ++ b :: post). split; [reflexivity|]. intro E.
  assert (In (Cur (b :: rev nm ++ a :: rev pre) post, @nil (nat * str))
             (ends false (refRegex nm) (Cur (rev pre) (a :: nm ++ b :: post)) [])) as HI.
  { unfold refRegex. change (mkSeq (notWordClass :: ?l)) with (Seq notWordClass (mkSeq l)).
    apply ends_seq_in. exists (Cur (a :: rev pre) (nm ++ b :: post)), [].
    split.
    - apply step1_in. exists a. simpl. repeat split; auto.
      unfold classMatch. simpl. rewrite orb_false_r. now rewrite Ha.
    - apply ends_lits_in. exists (Cur (rev nm ++ a :: rev pre) (b :: post)).
      split; [now split|]. apply ends_seq_in.
      exists (Cur (b :: rev nm ++ a :: rev pre) post), []. split.
      + apply step1_in. exists b. simpl. repeat split; auto.
        now apply notWordOrParen_match.
      + now left. }
  rewrite E in HI. destruct HI.
Qed.

(** Whatever else its file holds, a function whose name stands between
    white space in its own definition is never listed: the reference scan
    takes the definition for a use. *)
Lemma spaced_definition_kept relative readFileSync writeFileSync opts files now out d
    content pre sp0 ws post :
  main relative readFileSync writeFileSync opts files now = Normal out ->
  readFileSync (file d) = Some content ->
  content = pre ++ sp0 :: name d ++ ws ++ N_of_ascii "(" :: post ->
  isSpace sp0 = true -> ws <> [] -> blank ws ->
  ~ In d (unusedFunctions out).
Proof.
  intros H R E Hsp Hne Hb Hu.
  eapply in_unusedFunctions in Hu as (_ & Hd & F); [|exact H].
  apply function_decl in Hd as (content' & R' & G & _ & W & Hc).
  assert (content' = content) as -> by congruence.
  erewrite flagFunction_word in F by eassumption.
  destruct ws as [|w ws]; [congruence|]. unfold blank in Hb. simpl in Hb.
  apply andb_true_iff in Hb as [Hw _].
  rewrite (ref_between content (name d) pre sp0 w (ws ++ N_of_ascii "(" :: post)) in F.
  - rewrite andb_false_r in F. discriminate F.
  - exact E.
  - now apply space_not_word.
  - now apply space_not_word.
  - now apply space_not_paren.
Qed.

(** C3, at a function defined with a space before its parameter list.
    The file holds the name once, in the definition, which is also the only
    match of the call scan; the function is not exported and never called,
    and it is not put in the list of unused functions, because the reference
    scan matches the definition itself.  Written without the space, the same
    function is listed. *)
Theorem spaced_definition_not_listed :
  let idle := Decl (u "idle") function (u "src/a.js") in
  (exists out,
     scan false None spacedProject = Normal out
     /\ allFunctions (collectedDecls out) = [idle]
     /\ allExports (collectedDecls out) = []
     /\ unusedFunctions out = [])
  /\ callCount (u "idle") (u "function idle (){}") = 1
  /\ occurrences (u "idle") (u "function idle (){}") = 1
  /\ test false (refRegex (u "idle")) (u "function idle (){}") = true
  /\ (exists out,
        scan false None tightProject = Normal out
        /\ unusedFunctions out = [idle])
  /\ test false (refRegex (u "idle")) (u "function idle(){}") = false.
Proof.
  cbv zeta. split; [eexists; split; [vm_compute; reflexivity|repeat split]|].
  repeat split; try (vm_compute; reflexivity).
  eexists. split; [vm_compute; reflexivity|reflexivity].
Qed.

(** C4. An arrow-function declaration is never put in the list of unused
    functions: the reference scan [[^\w]name[^\w(]] always matches in the
    declaring file, at the binding itself. *)
Theorem arrow_never_unused relative readFileSync writeFileSync opts files now out d :
  main relative readFileSync writeFileSync opts files now = Normal out ->
  In d (allFunctions (collectedDecls out)) ->
  type d = arrow ->
  (exists content,
      readFileSync (file d) = Some content
      /\ RegExp (refPatternOf (name d)) = Normal (refRegex (name d))
      /\ test false (refRegex (name d)) content = true)
  /\ ~ In d (unusedFunctions out).
Proof.
  intros H Hd Ht. pose proof H as Ec. apply main_lists in Ec as (Ec & _).
  rewrite Ec in Hd. apply function_decl in Hd as (content & R & G & Hx & W & Hne).
  pose proof Hx as S. apply extractFunctions_site in S. rewrite Ht in S.
  apply ref_at_site in S. split.
  - exists content. repeat split; auto. now apply RegExp_ref, wordOnly_plain.
  - intro Hu. eapply in_unusedFunctions in Hu as (_ & _ & F); [|exact H].
    erewrite flagFunction_word in F by eassumption. rewrite S, andb_false_r in F.
    discriminate.
Qed.

Lemma arrow_never_unused_witness :
  ~ In (Decl (u "twice") arrow (u "src/a.js")) (unusedFunctions arrowOutcome).
Proof.
  apply (arrow_never_unused cwd (disk arrowProject) writes (Options false None)
           (paths arrowProject) (u "2024-01-01T00:00:00.000Z")
           arrowOutcome (Decl (u "twice") arrow (u "src/a.js"))).
  - vm_compute. reflexivity.
  - vm_compute. auto.
  - reflexivity.
Defined.

Example export_rename_example :
  extractExports (u "export { x as y }") (u "src/a.js") = [Decl (u "x") named (u "src/a.js")].
Proof. vm_compute. reflexivity. Qed.

(** C6, at a destructured [require] with a rename: the set holds the
    property name before the colon, not the local binding; a renamed import
    records the alias. *)
Theorem require_rename_records_key :
  findImports (u "const { a: b } = require('m')") = [u "a"]
  /\ findImports (u "import { a as b } from 'm'") = [u "b"].
Proof. vm_compute. split; reflexivity. Qed.

(** C7. A function declaration whose name and file coincide with those of a
    recorded export is skipped by the functions check and never enters the
    list of unused functions; hence no name-and-file pair, and no
    declaration, appears in both output lists. *)
Theorem exported_function_not_duplicated relative readFileSync writeFileSync opts files now out :
  main relative readFileSync writeFileSync opts files now = Normal out ->
  (forall e f, In e (allExports (collectedDecls out)) ->
               name e = name f -> file e = file f ->
               ~ In f (unusedFunctions out))
  /\ (forall e f, In e (unusedExports out) -> In f (unusedFunctions out) ->
                  ~ (name e = name f /\ file e = file f))
  /\ (forall d, ~ (In d (unusedExports out) /\ In d (unusedFunctions out))).
Proof.
  intro H. pose proof H as Ec. apply main_lists in Ec as (Ec & Eu & _).
  assert (forall e f, In e (allExports (collectedDecls out)) ->
                      name e = name f -> file e = file f ->
                      ~ In f (unusedFunctions out)) as Hskip.
  { intros e f He En Ef Hf. rewrite Ec in He.
    eapply in_unusedFunctions in Hf as (_ & _ & F); [|exact H]. unfold flagFunction in F.
    destruct (alsoExported (collect readFileSync opts files) f) eqn:A; [discriminate|].
    unfold alsoExported in A. rewrite <- not_true_iff_false in A. apply A.
    apply existsb_exists. exists e. split; [exact He|].
    rewrite En, Ef, !eqs_refl. reflexivity. }
  assert (forall e, In e (unusedExports out) -> In e (allExports (collectedDecls out)))
    as Hsub.
  { intros e He. rewrite Eu in He. apply filter_In in He as [He _]. now rewrite Ec. }
  split; [exact Hskip|]. split.
  - intros e f He Hf [En Ef]. apply (Hskip e f); auto.
  - intros d [He Hf]. apply (Hskip d d); auto.
Qed.

Lemma exported_function_not_duplicated_witness :
  In (Decl (u "helper") function (u "src/lib.js")) (allFunctions (collectedDecls dualOutcome))
  /\ In (Decl (u "helper") named (u "src/lib.js")) (unusedExports dualOutcome)
  /\ ~ In (Decl (u "helper") function (u "src/lib.js")) (unusedFunctions dualOutcome).
Proof.
  split; [vm_compute; auto|]. split; [vm_compute; auto|].
  destruct (exported_function_not_duplicated cwd (disk dualProject) writes (Options false None)
              (paths dualProject) (u "2024-01-01T00:00:00.000Z") dualOutcome)
    as (Hskip & _).
  - vm_compute. reflexivity.
  - apply (Hskip (Decl (u "helper") named (u "src/lib.js"))).
    + vm_compute. auto.
    + reflexivity.
    + reflexivity.
Defined.

(** C8. In exports-only mode no function is collected or reported, and a
    report that gets written carries [null] for [totalFunctions] and for
    [unusedFunctions]. *)
Theorem exports_only_skips_functions relative readFileSync writeFileSync opts files now out :
  exportsOnly opts = true ->
  main relative readFileSync writeFileSync opts files now = Normal out ->
  allFunctions (collectedDecls out) = []
  /\ unusedFunctions out = []
  /\ forall r, written out = Some r ->
               totalFunctions r = None /\ r_unusedFunctions r = None.
Proof.
  intros Eo H. pose proof H as Ec. apply main_lists in Ec as (Ec & _ & _ & Ef).
  rewrite Eo in Ef. split; [|split; [exact Ef|]].
  - rewrite Ec. destruct (allFunctions (collect readFileSync opts files)) as [|d l] eqn:E;
      [reflexivity|].
    assert (In d (allFunctions (collect readFileSync opts files))) as Hd
      by (rewrite E; now left).
    apply in_allFunctions in Hd as [Hd _]. congruence.
  - intros r W. eapply main_written in W; [|exact H]. rewrite Eo in W. subst r.
    simpl. auto.
Qed.

Lemma exports_only_skips_functions_witness :
  (exists r, written exportsOnlyOutcome = Some r)
  /\ unusedFunctions exportsOnlyOutcome = []
  /\ forall r, written exportsOnlyOutcome = Some r ->
               totalFunctions r = None /\ r_unusedFunctions r = None.
Proof.
  split; [eexists; vm_compute; reflexivity|].
  apply (exports_only_skips_functions cwd (disk mixedProject) writes
           (Options true (Some (u "dead-code.json")))
           (paths mixedProject) (u "2024-01-01T00:00:00.000Z") exportsOnlyOutcome).
  - reflexivity.
  - vm_compute. reflexivity.
Defined.

(** ** The order of discovery *)













(** C10. The entry-point test is a suffix test on the relative path: a path
    is an entry point exactly when it ends in [index], [main] or [app]
    followed by [.js], [.jsx], [.ts] or [.tsx], whatever precedes, with the
    case of ASCII letters ignored for [app] only; the exports check skips the
    declarations of such files. *)
Theorem entry_point_suffix :
  (forall relPath,
      isEntryPoint relPath = true <->
      exists pre t, relPath = pre ++ t /\ entryTail t = true)
  /\ (forall t,
         entryTail t = true <->
         (exists e, In e extensions /\ (t = u "index" ++ e \/ t = u "main" ++ e))
         \/ (exists e, In e extensions /\ map canon t = map canon (u "app" ++ e)))
  /\ isEntryPoint (u "myindex.ts") = true
  /\ isEntryPoint (u "src/App.TSX") = true
  /\ isEntryPoint (u "src/Index.ts") = false
  /\ isEntryPoint (u "src/MAIN.js") = false
  /\ (forall relative readFileSync writeFileSync opts files now out e,
         main relative readFileSync writeFileSync opts files now = Normal out ->
         In e (unusedExports out) -> isEntryPoint (relative (file e)) = false).
Proof.
  split; [|split; [|repeat split; try (vm_compute; reflexivity)]].
  - intro relPath. unfold isEntryPoint, entryTail.
    rewrite !orb_true_iff, !test_matchesAt. split.
    + intros [[(pre & t & E & H)|(pre & t & E & H)]|(pre & t & E & H)];
        exists pre, t; (split; [exact E|]);
        rewrite ?index_tail, ?main_tail, ?app_tail in H; rewrite H;
        rewrite ?orb_true_r; reflexivity.
    + intros (pre & t & E & H). rewrite !orb_true_iff in H.
      destruct H as [[H|H]|H]; [left; left|left; right|right]; exists pre, t;
        (split; [exact E|]); now rewrite ?index_tail, ?main_tail, ?app_tail.
  - intro t. unfold entryTail, tailOf. rewrite !orb_true_iff, !existsb_exists. split.
    + intros [[(e & He & H)|(e & He & H)]|(e & He & H)].
      * left. exists e. split; [exact He|]. left. now apply sameText_exact.
      * left. exists e. split; [exact He|]. right. now apply sameText_exact.
      * right. exists e. split; [exact He|]. now apply sameText_nocase.
    + intros [(e & He & [H|H])|(e & He & H)].
      * left. left. exists e. split; [exact He|]. now apply sameText_exact.
      * left. right. exists e. split; [exact He|]. now apply sameText_exact.
      * right. exists e. split; [exact He|]. now apply sameText_nocase.
  - intros relative readFileSync writeFileSync opts files now out e H He.
    eapply in_unusedExports in He as [_ F]; [|exact H]. unfold flagExport in F.
    destruct (isEntryPoint (relative (file e))); [discriminate|reflexivity].
Qed.

Lemma entry_point_suffix_witness :
  In (Decl (u "helper") named (u "src/util.ts")) (unusedExports entryOutcome)
  /\ isEntryPoint (cwd (u "src/util.ts")) = false.
Proof.
  assert (In (Decl (u "helper") named (u "src/util.ts")) (unusedExports entryOutcome))
    as H by (vm_compute; auto).
  split; [exact H|].
  destruct entry_point_suffix as (_ & _ & _ & _ & _ & _ & Hskip).
  apply (Hskip cwd (disk entryProject) writes (Options false None) (paths entryProject)
           (u "2024-01-01T00:00:00.000Z") entryOutcome
           (Decl (u "helper") named (u "src/util.ts"))).
  - vm_compute. reflexivity.
  - exact H.
Defined.

Example entry_points_skipped :
  map (fun d => (name d, file d)) (unusedExports entryOutcome)
  = [(u "helper", u "src/util.ts")].
Proof. vm_compute. reflexivity. Qed.

(** * Further properties of the scan *)

(** ** The exports check for any name *)

Lemma countUsage_none e : forall fcs n,
  (forall fc, In fc fcs -> eqs (fst fc) (file e) = false -> notUsedBy e fc) ->
  foldM (countUsage e) fcs n = Normal n.
Proof.
  induction fcs as [|[f content] fcs IH]; intros n H; simpl; [reflexivity|].
  destruct (eqs f (file e)) eqn:E.
  - simpl. apply IH. intros fc Hfc. apply H. now right.
  - destruct (H (f, content) (or_introl eq_refl) E) as (Hi & rg & R & T). simpl in Hi, T.
    rewrite Hi, R. cbn [bind]. rewrite T. simpl. apply IH.
    intros fc Hfc. apply H. now right.
Qed.

Lemma countUsage_grows e : forall fcs n m,
  foldM (countUsage e) fcs n = Normal m ->
  n <= m
  /\ (m = n -> forall fc, In fc fcs -> eqs (fst fc) (file e) = false -> notUsedBy e fc).
Proof.
  induction fcs as [|[f content] fcs IH]; intros n m H; simpl in H.
  - injection H as <-. split; [lia|]. intros _ fc [].
  - destruct (eqs f (file e)) eqn:E.
    + simpl in H. apply IH in H as [Hle Hz]. split; [exact Hle|].
      intros Hm fc [<-|Hfc] Hs; [simpl in Hs; congruence|auto].
    + destruct (RegExp (wordBoundaryOf (name e))) as [rg| | |] eqn:R; try discriminate.
      cbn [bind] in H. apply IH in H as [Hle Hz].
      destruct (has (findImports content) (name e)) eqn:Hi;
        destruct (test false rg content) eqn:T; simpl in Hle, Hz;
        (split; [lia|]); intros Hm; try lia.
      intros fc [<-|Hfc] Hs; [|now apply Hz].
      split; [exact Hi|]. exists rg. now split.
Qed.

Lemma flagExport_true relative c e :
  flagExport relative c e = Normal true <->
  isEntryPoint (relative (file e)) = false
  /\ forall fc, In fc (fileContents c) -> eqs (fst fc) (file e) = false -> notUsedBy e fc.
Proof.
  unfold flagExport. destruct (isEntryPoint (relative (file e))).
  - split; [discriminate|intros [D _]; discriminate].
  - split.
    + intro H. split; [reflexivity|].
      destruct (foldM (countUsage e) (fileContents c) 0) as [m| | |] eqn:F; try discriminate.
      cbn [bind] in H. injection H as H. apply Nat.eqb_eq in H.
      apply countUsage_grows in F as [_ Hz]. now apply Hz.
    + intros [_ H]. now rewrite (countUsage_none e _ 0 H).
Qed.

(** The scan gets past both checks as soon as the exports check does: the
    functions check has no way to throw. *)
Lemma main_ends_when relative readFileSync writeFileSync opts files now :
  (forall e, In e (allExports (collect readFileSync opts files)) ->
             exists b, flagExport relative (collect readFileSync opts files) e = Normal b) ->
  (exists out, main relative readFileSync writeFileSync opts files now = Normal out)
  \/ writeFails writeFileSync opts (main relative readFileSync writeFileSync opts files now).
Proof.
  intro HE. apply main_ends; [exact HE|apply functions_check_returns].
Qed.

Lemma flagExport_contents relative c1 c2 e :
  fileContents c1 = fileContents c2 -> flagExport relative c1 e = flagExport relative c2 e.
Proof. unfold flagExport. now intros ->. Qed.

Lemma collect_mode readFileSync o1 o2 : forall files acc1 acc2,
  allExports acc1 = allExports acc2 -> fileContents acc1 = fileContents acc2 ->
  allExports (fold_left (collectFile readFileSync o1) files acc1)
  = allExports (fold_left (collectFile readFileSync o2) files acc2)
  /\ fileContents (fold_left (collectFile readFileSync o1) files acc1)
     = fileContents (fold_left (collectFile readFileSync o2) files acc2).
Proof.
  induction files as [|f files IH]; intros acc1 acc2 E1 E2; simpl; [now split|].
  apply IH; unfold collectFile; destruct (readFileSync f); simpl; congruence.
Qed.

Lemma collect_readable readFileSync opts files :
  collect readFileSync opts files = collect readFileSync opts (readable readFileSync files).
Proof.
  unfold collect. generalize (Collected [] [] []).
  induction files as [|f files IH]; intro acc; [reflexivity|].
  unfold readable. simpl. destruct (readFileSync f) eqn:R.
  - simpl. apply IH.
  - unfold collectFile at 2. rewrite R. apply IH.
Qed.

Lemma main_recount relative readFileSync writeFileSync opts files1 files2 now out :
  collect readFileSync opts files1 = collect readFileSync opts files2 ->
  main relative readFileSync writeFileSync opts files1 now = Normal out ->
  main relative readFileSync writeFileSync opts files2 now = Normal (recount (length files2) out).
Proof.
  unfold main. intros E H. rewrite <- E.
  destruct (foldM (checkExport relative (collect readFileSync opts files1))
                  (allExports (collect readFileSync opts files1)) []) as [ue| | |];
    try discriminate.
  cbn [bind] in *.
  destruct (if exportsOnly opts then Normal []
            else foldM (checkFunction (collect readFileSync opts files1))
                       (allFunctions (collect readFileSync opts files1)) []) as [uf| | |];
    try discriminate.
  cbn [bind] in *.
  match type of H with (if ?b then _ else _) = _ => destruct b end;
    [injection H as <-; reflexivity|].
  destruct (truthy (output opts)); [|injection H as <-; reflexivity].
  destruct (writeFileSync (outputPath opts)); [|discriminate].
  injection H as <-. reflexivity.
Qed.

Lemma filter_all {A} (p : A -> bool) (l : list A) :
  (forall x, In x l -> p x = true) -> filter p l = l.
Proof.
  induction l as [|x l IH]; intro H; simpl; [reflexivity|].
  rewrite (H x (or_introl eq_refl)). f_equal. apply IH. intros y Hy. apply H. now right.
Qed.

Lemma filter_none {A} (p : A -> bool) (l : list A) :
  (forall x, In x l -> p x = false) -> filter p l = [].
Proof.
  induction l as [|x l IH]; intro H; simpl; [reflexivity|].
  rewrite (H x (or_introl eq_refl)). apply IH. intros y Hy. apply H. now right.
Qed.

Lemma filter_shorter {A} (p : A -> bool) (l : list A) : length (filter p l) <= length l.
Proof. induction l as [|x l IH]; simpl; [lia|]. destruct (p x); simpl; lia. Qed.

(** ** The report *)

(** X1. A run that returns writes its report exactly when an output path is
    given and something was found unused: with nothing unused the run ends
    before the report.  A written report counts every path it was handed, and
    its lists are never longer than its totals. *)
Theorem report_only_when_unused relative readFileSync writeFileSync opts files now out :
  main relative readFileSync writeFileSync opts files now = Normal out ->
  (written out = None <->
   truthy (output opts) = false \/ (unusedExports out = [] /\ unusedFunctions out = []))
  /\ forall r, written out = Some r ->
       filesScanned r = length files
       /\ length (r_unusedExports r) <= totalExports r
       /\ match totalFunctions r, r_unusedFunctions r with
          | Some n, Some l => exportsOnly opts = false /\ length l <= n
          | None, None => exportsOnly opts = true
          | _, _ => False
          end.
Proof.
  intro H. split.
  - clear - H. unfold main in H.
    destruct (foldM _ _ _) as [ue| | |]; try discriminate. cbn [bind] in H.
    destruct (if exportsOnly opts then _ else _) as [uf| | |]; try discriminate.
    cbn [bind] in H.
    destruct (truthy (output opts)) eqn:T;
      destruct ue as [|e ue], uf as [|d uf]; simpl in H;
      try (destruct (writeFileSync (outputPath opts)); [|discriminate H]);
      injection H as <-; simpl; split; auto; try discriminate;
      intros [D|[D1 D2]]; discriminate.
  - intros r W. pose proof (main_written _ _ _ _ _ _ _ _ H W) as ->. simpl.
    apply main_lists in H as (_ & -> & _ & ->).
    split; [reflexivity|]. rewrite !length_map. split; [apply filter_shorter|].
    destruct (exportsOnly opts); [reflexivity|]. split; [reflexivity|].
    rewrite length_map. apply filter_shorter.
Qed.

Lemma report_only_when_unused_witness :
  written exportsOnlyOutcome <> None
  /\ forall r, written exportsOnlyOutcome = Some r -> filesScanned r = 2.
Proof.
  destruct (report_only_when_unused cwd (disk mixedProject) writes
              (Options true (Some (u "dead-code.json")))
              (paths mixedProject) (u "2024-01-01T00:00:00.000Z") exportsOnlyOutcome)
    as [Hw Hr].
  - vm_compute. reflexivity.
  - split.
    + intro W. apply Hw in W as [W|[W _]]; vm_compute in W; discriminate.
    + intros r W. now apply Hr in W as [W _].
Defined.

(** X2. A path whose file cannot be read contributes no declaration and no
    text to the scan: the run ends as the run on the readable paths alone
    does, with the same declarations and the same lists.  The report still
    counts it among the files scanned. *)
Theorem unreadable_skipped_but_counted relative readFileSync writeFileSync opts files now out :
  main relative readFileSync writeFileSync opts files now = Normal out ->
  collectedDecls out = collect readFileSync opts (readable readFileSync files)
  /\ main relative readFileSync writeFileSync opts (readable readFileSync files) now
     = Normal (recount (length (readable readFileSync files)) out)
  /\ forall r, written out = Some r -> filesScanned r = length files.
Proof.
  intro H. split; [|split].
  - apply main_lists in H as [-> _]. apply collect_readable.
  - now apply main_recount with (files1 := files); [apply collect_readable|].
  - intros r W. now rewrite (main_written _ _ _ _ _ _ _ _ H W).
Qed.

Lemma unreadable_skipped_but_counted_witness :
  length (readable (disk mixedProject) goneFiles) = 2
  /\ forall r, written goneOutcome = Some r -> filesScanned r = 3.
Proof.
  split; [reflexivity|].
  apply (unreadable_skipped_but_counted cwd (disk mixedProject) writes
           (Options false (Some (u "dead-code.json"))) goneFiles
           (u "2024-01-01T00:00:00.000Z") goneOutcome).
  vm_compute. reflexivity.
Defined.

(** ** The exports check *)

(** X3. Neither option of the scan reaches the exports check.  When a run
    returns, a run over the same files with any other [--exports-only],
    [--output], clock and writable paths gets past both checks as well: it
    returns with the same export declarations and the same unused exports in
    the same order, unless it has a report to write and [fs.writeFileSync]
    throws. *)
Theorem exports_check_ignores_options relative readFileSync writeFileSync1 writeFileSync2
    files opts1 opts2 now1 now2 out1 :
  main relative readFileSync writeFileSync1 opts1 files now1 = Normal out1 ->
  (exists out2,
     main relative readFileSync writeFileSync2 opts2 files now2 = Normal out2
     /\ allExports (collectedDecls out2) = allExports (collectedDecls out1)
     /\ unusedExports out2 = unusedExports out1)
  \/ writeFails writeFileSync2 opts2
       (main relative readFileSync writeFileSync2 opts2 files now2).
Proof.
  intro H. apply main_lists in H as (-> & -> & HE & _).
  destruct (collect_mode readFileSync opts1 opts2 files (Collected [] [] [])
              (Collected [] [] []) eq_refl eq_refl) as [Ea Ec].
  fold (collect readFileSync opts1 files) in Ea, Ec.
  fold (collect readFileSync opts2 files) in Ea, Ec.
  destruct (main_ends_when relative readFileSync writeFileSync2 opts2 files now2)
    as [[out2 H2]|W]; [|left|now right].
  { intros e He. rewrite <- Ea in He.
    rewrite <- (flagExport_contents relative _ _ e Ec). now apply HE. }
  exists out2. split; [exact H2|].
  apply main_lists in H2 as (-> & -> & _ & _). split; [now rewrite Ea|].
  rewrite <- Ea. apply filter_ext. intro e. unfold flagged.
  now rewrite (flagExport_contents relative _ _ e Ec).
Qed.

Lemma exports_check_ignores_options_witness :
  (exists out2,
     scan false None mixedProject = Normal out2
     /\ allExports (collectedDecls out2) = allExports (collectedDecls exportsOnlyOutcome)
     /\ unusedExports out2 = unusedExports exportsOnlyOutcome)
  /\ main cwd (disk mixedProject) readOnly (Options false (Some (u "dead-code.json")))
          (paths mixedProject) (u "2024-01-01T00:00:00.000Z") = SystemError.
Proof.
  split.
  - destruct (exports_check_ignores_options cwd (disk mixedProject) writes writes
                (paths mixedProject)
                (Options true (Some (u "dead-code.json"))) (Options false None)
                (u "2024-01-01T00:00:00.000Z") (u "2024-01-01T00:00:00.000Z")
                exportsOnlyOutcome) as [H|(_ & _ & W)].
    + vm_compute. reflexivity.
    + exact H.
    + discriminate W.
  - destruct (exports_check_ignores_options cwd (disk mixedProject) writes readOnly
                (paths mixedProject)
                (Options true (Some (u "dead-code.json")))
                (Options false (Some (u "dead-code.json")))
                (u "2024-01-01T00:00:00.000Z") (u "2024-01-01T00:00:00.000Z")
                exportsOnlyOutcome) as [(out2 & H & _)|(H & _)].
    + vm_compute. reflexivity.
    + vm_compute in H. discriminate H.
    + exact H.
Defined.

(** X4. The unused exports of a run that this model follows to its return,
    which is a run whose names all give patterns of the fragment read by
    [RegExp] that compile: an export declaration, whether or not its name
    holds pattern syntax, is listed exactly when its file is no entry point
    and every other file read by the scan keeps the name out of its imports
    and out of the reach of the pattern built from the name.  The imports are
    compared by name alone: the module they come from plays no part. *)
Theorem unused_export_iff relative readFileSync writeFileSync opts files now out e :
  main relative readFileSync writeFileSync opts files now = Normal out ->
  (In e (unusedExports out) <->
   In e (allExports (collectedDecls out))
   /\ isEntryPoint (relative (file e)) = false
   /\ forall f content, In f files -> readFileSync f = Some content -> f <> file e ->
        has (findImports content) (name e) = false
        /\ exists rg, RegExp (wordBoundaryOf (name e)) = Normal rg
                      /\ test false rg content = false).
Proof.
  intro H. rewrite (in_unusedExports _ _ _ _ _ _ _ _ H), flagExport_true.
  apply main_lists in H as (-> & _). split.
  - intros (Hin & He & Hall). split; [exact Hin|]. split; [exact He|].
    intros f content Hf R Hne.
    apply (Hall (f, content)); [now apply collect_contents|]. now apply eqs_neq.
  - intros (Hin & He & Hall). split; [exact Hin|]. split; [exact He|].
    intros [f content] Hfc Hne. apply collect_contents in Hfc as [Hf R].
    apply (Hall f content Hf R). now apply eqs_neq.
Qed.

Lemma unused_export_iff_witness :
  map name (unusedExports sharedNameOutcome) = [u "save"]
  /\ (In (Decl (u "load") named (u "src/b.js")) (unusedExports sharedNameOutcome) <->
      In (Decl (u "load") named (u "src/b.js")) (allExports (collectedDecls sharedNameOutcome))
      /\ isEntryPoint (cwd (u "src/b.js")) = false
      /\ forall f content, In f (paths sharedNameProject) ->
           disk sharedNameProject f = Some content -> f <> u "src/b.js" ->
           has (findImports content) (u "load") = false
           /\ exists rg, RegExp (wordBoundaryOf (u "load")) = Normal rg
                         /\ test false rg content = false)
  /\ map name (unusedExports braceOutcome) = [u "a{"]
  /\ (In (Decl (u "a{") named (u "src/a.js")) (unusedExports braceOutcome) <->
      In (Decl (u "a{") named (u "src/a.js")) (allExports (collectedDecls braceOutcome))
      /\ isEntryPoint (cwd (u "src/a.js")) = false
      /\ forall f content, In f (paths braceProject) ->
           disk braceProject f = Some content -> f <> u "src/a.js" ->
           has (findImports content) (u "a{") = false
           /\ exists rg, RegExp (wordBoundaryOf (u "a{")) = Normal rg
                         /\ test false rg content = false).
Proof.
  split; [vm_compute; reflexivity|]. split.
  - apply (unused_export_iff cwd (disk sharedNameProject) writes (Options false None)
             (paths sharedNameProject) (u "2024-01-01T00:00:00.000Z") sharedNameOutcome
             (Decl (u "load") named (u "src/b.js"))).
    vm_compute. reflexivity.
  - split; [vm_compute; reflexivity|].
    apply (unused_export_iff cwd (disk braceProject) writes (Options false None)
             (paths braceProject) (u "2024-01-01T00:00:00.000Z") braceOutcome
             (Decl (u "a{") named (u "src/a.js"))).
    vm_compute. reflexivity.
Defined.

(** X5. Scanning more files never adds an unused export among the
    declarations of the smaller scan: an export of the smaller file set that
    the larger run lists is listed by the smaller run as well. *)
Theorem more_files_fewer_unused relative readFileSync writeFileSync opts files1 files2 now out1 out2 e :
  incl files1 files2 ->
  main relative readFileSync writeFileSync opts files1 now = Normal out1 ->
  main relative readFileSync writeFileSync opts files2 now = Normal out2 ->
  In e (allExports (collectedDecls out1)) ->
  In e (unusedExports out2) ->
  In e (unusedExports out1).
Proof.
  intros Hi H1 H2 He Hu.
  rewrite (in_unusedExports _ _ _ _ _ _ _ _ H2), flagExport_true in Hu.
  rewrite (in_unusedExports _ _ _ _ _ _ _ _ H1), flagExport_true.
  apply main_lists in H1 as (E1 & _). rewrite E1 in He.
  destruct Hu as (_ & Hentry & Hall). split; [exact He|]. split; [exact Hentry|].
  intros [f content] Hfc Hne. apply Hall; [|exact Hne].
  apply collect_contents in Hfc as [Hf R]. apply collect_contents. split; [|exact R].
  now apply Hi.
Qed.

Lemma more_files_fewer_unused_witness :
  exists out1,
    main cwd (disk sharedNameProject) writes (Options false None) [u "src/b.js"]
         (u "2024-01-01T00:00:00.000Z") = Normal out1
    /\ In (Decl (u "save") named (u "src/b.js")) (unusedExports out1).
Proof.
  eexists. split; [vm_compute; reflexivity|].
  apply (more_files_fewer_unused cwd (disk sharedNameProject) writes (Options false None)
           [u "src/b.js"] (paths sharedNameProject) (u "2024-01-01T00:00:00.000Z")
           _ sharedNameOutcome (Decl (u "save") named (u "src/b.js"))).
  - intros f [<-|[]]. vm_compute. auto.
  - vm_compute. reflexivity.
  - vm_compute. reflexivity.
  - vm_compute. auto.
  - vm_compute. auto.
Defined.

(** X6. When at most one of the scanned paths can be read, no pattern is
    built from any name, so that [new RegExp] has nothing to throw at: the
    run gets past both checks whatever the names are and, unless
    [fs.writeFileSync] throws on the report, returns with every export
    declaration of that file listed, or none if the file is an entry
    point. *)
Theorem single_file_scan relative readFileSync writeFileSync opts files now p :
  (forall f content, In f files -> readFileSync f = Some content -> f = p) ->
  (exists out,
     main relative readFileSync writeFileSync opts files now = Normal out
     /\ unusedExports out
        = if isEntryPoint (relative p) then []
          else allExports (collect readFileSync opts files))
  \/ writeFails writeFileSync opts (main relative readFileSync writeFileSync opts files now).
Proof.
  intro Hp. set (c := collect readFileSync opts files).
  assert (forall e, In e (allExports c) ->
            flagExport relative c e = Normal (negb (isEntryPoint (relative p)))) as HE.
  { intros e He. apply in_allExports in He as (content & Hf & R & _).
    rewrite <- (Hp _ _ Hf R). unfold flagExport.
    destruct (isEntryPoint (relative (file e))); [reflexivity|].
    rewrite (countUsage_none e (fileContents c) 0); [reflexivity|].
    intros [f v] Hfc Hne. apply collect_contents in Hfc as [Hf' R'].
    simpl in Hne. apply eqs_neq in Hne.
    rewrite (Hp _ _ Hf' R'), (Hp _ _ Hf R) in Hne. congruence. }
  destruct (main_ends_when relative readFileSync writeFileSync opts files now)
    as [[out H]|W]; [|left|now right].
  { intros e He. eexists. now apply HE. }
  exists out. split; [exact H|].
  apply main_lists in H as (_ & -> & _). fold c.
  destruct (isEntryPoint (relative p)).
  - apply filter_none. intros e He. unfold flagged. now rewrite (HE e He).
  - apply filter_all. intros e He. unfold flagged. now rewrite (HE e He).
Qed.

Lemma single_file_scan_witness :
  (exists out,
     scan false None loneProject = Normal out
     /\ map name (unusedExports out) = [u "bar"; u "foo /* ( */"])
  /\ main cwd (disk loneProject) readOnly (Options false (Some (u "dead-code.json")))
          (paths loneProject) (u "2024-01-01T00:00:00.000Z") = SystemError.
Proof.
  split.
  - destruct (single_file_scan cwd (disk loneProject) writes (Options false None)
                (paths loneProject) (u "2024-01-01T00:00:00.000Z") (u "src/a.js"))
      as [(out & H & E)|(_ & T & _)].
    + intros f content [<-|[]] _. reflexivity.
    + exists out. split; [exact H|]. rewrite E. vm_compute. reflexivity.
    + discriminate T.
  - destruct (single_file_scan cwd (disk loneProject) readOnly
                (Options false (Some (u "dead-code.json")))
                (paths loneProject) (u "2024-01-01T00:00:00.000Z") (u "src/a.js"))
      as [(out & H & _)|(H & _)].
    + intros f content [<-|[]] _. reflexivity.
    + vm_compute in H. discriminate H.
    + exact H.
Defined.

(** * Further properties of the extractors *)

(** ** Look-behind *)

Lemma leftsOf_in : forall run b0 a, In (Cur b0 (run ++ a)) (leftsOf (rev run ++ b0) a).
Proof.
  induction run as [|x run IH] using rev_ind; intros b0 a.
  - simpl. destruct b0; simpl; now left.
  - rewrite rev_app_distr. simpl. right. rewrite <- app_assoc. simpl. apply IH.
Qed.

Lemma lookbehind_neg_in ic a z c y :
  In y (ends ic (LookBehind true a) z c) ->
  y = (z, c)
  /\ forall z0 z1 c1, reach z0 z -> In (z1, c1) (ends ic a z0 c) -> index z1 <> index z.
Proof.
  cbn [ends].
  destruct (existsb (fun z0 => existsb (fun zc => index (fst zc) =? index z)
                                       (ends ic a z0 c))
                    (leftsOf (before z) (after z))) eqn:E; simpl; [intros []|].
  intros [<-|[]]. split; [reflexivity|].
  intros z0 z1 c1 (run & Ha & Hb) H Hi.
  apply not_true_iff_false in E. apply E. apply existsb_exists. exists z0. split.
  - destruct z0 as [b0 a0]. simpl in Ha, Hb. subst a0. rewrite Hb. apply leftsOf_in.
  - apply existsb_exists. exists (z1, c1). split; [exact H|]. now apply Nat.eqb_eq.
Qed.

Lemma funcRegex_at z z' c' :
  In (z', c') (ends false funcRegex z []) ->
  ~ afterExport (rev (before z))
  /\ exists nm, lookup 1 c' = Some nm /\ funcSite (subject z) (rev (before z)) nm.
Proof.
  unfold funcRegex.
  change (mkSeq (LookBehind true ?a :: ?l)) with (Seq (LookBehind true a) (mkSeq l)).
  intro H. apply ends_seq_in in H as (z0 & c0 & H0 & H).
  apply lookbehind_neg_in in H0 as [E0 Hno]. injection E0 as -> ->. split.
  - intros (p & ws & E & Hne & Hb).
    assert (before z = rev ws ++ rev (u "export") ++ rev p) as Eb.
    { rewrite <- (rev_involutive (before z)), E, !rev_app_distr.
      now rewrite <- app_assoc. }
    apply (Hno (Cur (rev p) (u "export" ++ ws ++ after z)) z []); [| |reflexivity].
    + exists (u "export" ++ ws). split.
      * cbn [after]. now rewrite <- app_assoc.
      * cbn [before]. now rewrite Eb, rev_app_distr, <- app_assoc.
    + unfold lits. apply ends_lits_in.
      exists (Cur (rev (u "export") ++ rev p) (ws ++ after z)).
      split; [now split|].
      change (mkSeq [Plus sp]) with (Seq (Plus sp) Empty).
      apply ends_seq_in. exists z, []. split; [|now apply ends_empty_in].
      apply ends_plus_class_in. split; [reflexivity|]. exists ws.
      split; [exact Hne|]. split.
      * now rewrite (forallb_ext_eq _ isSpace _ classMatch_sp).
      * split; [reflexivity|]. exact Eb.
  - unfold lits in H. apply ends_lits_in in H as (z1 & M0 & H).
    change (mkSeq (Plus sp :: ?l)) with (Seq (Plus sp) (mkSeq l)) in H.
    apply ends_seq_in in H as (z2 & c2 & H2 & H).
    apply ends_plus_class_in in H2 as [-> (ws1 & Hne1 & Hs1 & M1)].
    change (mkSeq (Group 1 ?g :: ?l)) with (Seq (Group 1 g) (mkSeq l)) in H.
    apply ends_seq_in in H as (z3 & c3 & H3 & H).
    apply ends_group_in in H3 as (c0 & H3 & ->).
    apply ends_seq_in in H3 as (z3' & c3' & H3 & H3e).
    apply ends_empty_in in H3e. injection H3e as <- <-.
    apply ends_plus_class_in in H3 as [-> (nm & Hne & Hw & M2)].
    change (mkSeq (Star sp :: ?l)) with (Seq (Star sp) (mkSeq l)) in H.
    apply ends_seq_in in H as (z4 & c4 & H4 & H).
    apply ends_star_class_in in H4 as [-> (ws & Hs & M3)].
    change (mkSeq [Chr ?x]) with (Seq (Chr x) Empty) in H.
    apply ends_seq_in in H as (z5 & c5 & H5 & H).
    apply ends_chr_in in H5 as [M4 ->].
    apply ends_empty_in in H. injection H as -> ->.
    rewrite (moved_consumed _ _ _ M2). exists nm. split; [simpl; reflexivity|].
    rewrite (forallb_ext_eq _ isSpace _ classMatch_sp) in Hs1.
    rewrite (forallb_ext_eq _ isSpace _ classMatch_sp) in Hs.
    rewrite (forallb_ext_eq _ isWord _ classMatch_wd) in Hw.
    exists ws1, ws, (after z5). split; [|now repeat split].
    unfold subject.
    destruct M0 as [A0 _], M1 as [A1 _], M2 as [A2 _], M3 as [A3 _], M4 as [A4 _].
    rewrite A0, A1, A2, A3, A4. reflexivity.
Qed.

(** ** The first match of a pattern that ends with a captured word *)

Lemma hd_flat_map_all {A B} (P : B -> Prop) (f : A -> list B) : forall l,
  (forall x y tl, In x l -> f x = y :: tl -> P y) ->
  forall y tl, flat_map f l = y :: tl -> P y.
Proof.
  induction l as [|x l IH]; intros H y tl E; simpl in E; [discriminate|].
  destruct (f x) as [|y0 tl0] eqn:F.
  - simpl in E. eapply IH; [|exact E]. intros x' y' tl' Hx. apply H. now right.
  - simpl in E. injection E as <- _. eapply (H x); [now left|exact F].
Qed.

Lemma flat_map_single {A B} (g : A -> B) (l : list A) :
  flat_map (fun x => [g x]) l = map g l.
Proof. induction l as [|x l IH]; simpl; [reflexivity|]. now rewrite IH. Qed.

Lemma flat_map_assoc {A B C} (f : A -> list B) (g : B -> list C) (l : list A) :
  flat_map g (flat_map f l) = flat_map (fun x => flat_map g (f x)) l.
Proof.
  induction l as [|x l IH]; simpl; [reflexivity|]. now rewrite flat_map_app, IH.
Qed.

Lemma ends_mkSeq_app ic l1 l2 : forall z c,
  ends ic (mkSeq (l1 ++ l2)) z c
  = flat_map (fun zc => ends ic (mkSeq l2) (fst zc) (snd zc)) (ends ic (mkSeq l1) z c).
Proof.
  induction l1 as [|a l1 IH]; intros z c.
  - simpl. now rewrite app_nil_r.
  - change (mkSeq ((a :: l1) ++ l2)) with (Seq a (mkSeq (l1 ++ l2))).
    change (mkSeq (a :: l1)) with (Seq a (mkSeq l1)).
    cbn [ends]. rewrite flat_map_assoc. apply flat_map_ext. intros [z1 c1]. apply IH.
Qed.

Lemma span_run (p : char -> bool) : forall l,
  exists run rest, l = run ++ rest /\ forallb p run = true
                   /\ match rest with [] => True | x :: _ => p x = false end.
Proof.
  induction l as [|x l (run & rest & -> & Hr & Hp)].
  - now exists [], [].
  - destruct (p x) eqn:Px.
    + exists (x :: run), rest. simpl. now rewrite Px.
    + exists [], (x :: run ++ rest). now simpl.
Qed.

Lemma plus_class_hd neg items z c y tl :
  ends false (Plus (Class neg items)) z c = y :: tl ->
  match after (fst y) with
  | [] => True
  | x :: _ => classMatch false neg items x = false
  end.
Proof.
  destruct z as [b a].
  change (ends false (Plus (Class neg items)) (Cur b a) c)
    with (flat_map (fun zc => star (step1 (classMatch false neg items))
                                   (length (after (fst zc))) (fst zc) (snd zc))
                   (step1 (classMatch false neg items) (Cur b a) c)).
  destruct a as [|x a]; [discriminate|].
  change (step1 (classMatch false neg items) (Cur b (x :: a)) c)
    with (if classMatch false neg items x then [(Cur (x :: b) a, c)] else []).
  destruct (classMatch false neg items x); [|discriminate].
  cbn [flat_map fst snd after]. rewrite app_nil_r.
  destruct (span_run (classMatch false neg items) a) as (run & rest & -> & Hr & Hp).
  destruct (star_step1_hd (classMatch false neg items) run (length (run ++ rest))
              (x :: b) rest c Hr) as (tl' & E); [rewrite length_app; lia|exact Hp|].
  rewrite E. intro H. injection H as <- _. exact Hp.
Qed.

Lemma ends_capture_word z c :
  ends false (mkSeq [Group 1 (mkSeq [Plus wd])]) z c
  = map (fun zc => (fst zc, (1, consumed z (fst zc)) :: snd zc)) (ends false (Plus wd) z c).
Proof.
  change (ends false (mkSeq [Group 1 (mkSeq [Plus wd])]) z c)
    with (flat_map (fun zc => [(fst zc, snd zc)])
            (map (fun zc => (fst zc, (1, consumed z (fst zc)) :: snd zc))
                 (flat_map (fun zc => [(fst zc, snd zc)]) (ends false (Plus wd) z c)))).
  rewrite !flat_map_single, !map_map. apply map_ext. now intros [z1 c1].
Qed.

Lemma tailBinder_at pre z z' c' tl :
  groupFree (mkSeq pre) = true ->
  ends false (tailBinder pre) z [] = (z', c') :: tl ->
  exists z1 ws nm,
    In (z1, []) (ends false (mkSeq pre) z [])
    /\ after z1 = ws ++ nm ++ after z'
    /\ ws <> [] /\ blank ws /\ identifier nm
    /\ lookup 1 c' = Some nm /\ wordAfter z' = false.
Proof.
  intros Gp E.
  assert (wordAfter z' = false) as Hmax.
  { unfold tailBinder in E. rewrite ends_mkSeq_app in E.
    apply (hd_flat_map_all (fun y => wordAfter (fst y) = false)) in E; [exact E|].
    intros [z1 c1] y tl1 _. cbn [fst snd].
    change (mkSeq [Plus sp; Group 1 (mkSeq [Plus wd])])
      with (mkSeq ([Plus sp] ++ [Group 1 (mkSeq [Plus wd])])).
    rewrite ends_mkSeq_app.
    apply (hd_flat_map_all (fun y => wordAfter (fst y) = false)).
    intros [z2 c2] y2 tl2 _. cbn [fst snd]. rewrite ends_capture_word.
    destruct (ends false (Plus wd) z2 c2) as [|[z3 c3] l3] eqn:E3; [discriminate|].
    apply plus_class_hd in E3. cbn [map fst snd]. intro H. injection H as <- _.
    cbn [fst]. unfold wordAfter. cbn [fst] in E3. destruct (after z3); [reflexivity|].
    now rewrite classMatch_wd in E3. }
  assert (In (z', c') (ends false (tailBinder pre) z [])) as H by (rewrite E; now left).
  unfold tailBinder in H. apply ends_mkSeq_app_in in H as (z1 & c1 & H1 & H).
  pose proof (ends_caps _ _ Gp _ _ _ _ H1) as ->.
  change (mkSeq (Plus sp :: ?l)) with (Seq (Plus sp) (mkSeq l)) in H.
  apply ends_seq_in in H as (z2 & c2 & H2 & H).
  apply ends_plus_class_in in H2 as [-> (ws & Hne1 & Hs1 & M1)].
  rewrite ends_capture_word in H. apply in_map_iff in H as ([z3 c3] & E3 & H).
  cbn [fst snd] in E3. injection E3 as <- <-.
  apply ends_plus_class_in in H as [-> (nm & Hne & Hw & M2)].
  rewrite (moved_consumed _ _ _ M2).
  rewrite (forallb_ext_eq _ isSpace _ classMatch_sp) in Hs1.
  rewrite (forallb_ext_eq _ isWord _ classMatch_wd) in Hw.
  exists z1, ws, nm. split; [exact H1|]. split.
  - destruct M1 as [A1 _], M2 as [A2 _]. now rewrite A1, A2.
  - repeat split; auto.
Qed.

Lemma export_tail_site l content m :
  groupFree (mkSeq l) = true ->
  In m (execAll false (tailBinder (lits "export" ++ l)) content) ->
  exportSite content (group 1 m).
Proof.
  intros Gl H. apply execLoop_in in H as [R (rest & E)].
  apply reach_subject in R. cbn [subject before after rev app] in R.
  apply tailBinder_at in E as (z1 & ws & nm & H1 & A & Hne & Hb & Hid & L & Hmax).
  - unfold lits in H1. apply ends_lits_in in H1 as (z0 & [A0 _] & H1).
    apply ends_reach in H1 as (run & A1 & _).
    destruct (exists_last Hne) as (ws0 & sp0 & ->).
    unfold blank in Hb. rewrite forallb_app in Hb. apply andb_true_iff in Hb as [_ Hsp].
    simpl in Hsp. rewrite andb_true_r in Hsp.
    unfold group. rewrite L.
    exists (rev (before (mstart m))), (run ++ ws0), sp0, (after (mend m)).
    split; [|split; [exact Hsp|split; [exact Hid|]]].
    + rewrite <- R. unfold subject. rewrite A0, A1, A. now rewrite <- !app_assoc.
    + unfold wordAfter in Hmax. now destruct (after (mend m)).
  - unfold lits. clear - Gl. induction (u "export") as [|x w IH]; [exact Gl|exact IH].
Qed.

Lemma exportSite_wholeWord s nm : exportSite s nm -> wholeWord nm s.
Proof.
  intros (pre & mid & sp0 & post & -> & Hsp & Hid & Hpost).
  exists (pre ++ u "export" ++ mid ++ [sp0]), post. split; [|split].
  - rewrite <- !app_assoc. reflexivity.
  - unfold atBoundary, wordBefore, wordAfter. cbn [before after].
    rewrite !app_assoc, rev_app_distr. cbn [rev app].
    rewrite (space_not_word _ Hsp). destruct Hid as [Hne Hw].
    destruct nm as [|h t]; [congruence|]. simpl in Hw.
    apply andb_true_iff in Hw as [Hh _]. cbn [app]. now rewrite Hh.
  - unfold atBoundary, wordBefore, wordAfter. cbn [before after].
    apply identifier_rev in Hid as [Hne Hw].
    destruct (rev nm) as [|h t]; [congruence|]. simpl in Hw.
    apply andb_true_iff in Hw as [Hh _]. cbn [app]. rewrite Hh.
    destruct post as [|x post]; [reflexivity|]. now rewrite Hpost.
Qed.

Lemma namedExports_site content f d :
  In d (namedExports content f) -> exportSite content (name d).
Proof.
  unfold namedExports. intro H. apply in_map_iff in H as (m & <- & H). cbn [name].
  apply (export_tail_site
           [Plus sp;
            mkAlt [word "const"; word "let"; word "var"; word "function"; word "class";
                   mkSeq (lits "async" ++ Plus sp :: lits "function")]]);
    [reflexivity|exact H].
Qed.

Lemma defaultExports_site content f d :
  In d (defaultExports content f) -> exportSite content (name d).
Proof.
  unfold defaultExports. intro H. apply in_map_iff in H as (m & <- & H). cbn [name].
  apply (export_tail_site
           (Plus sp :: lits "default" ++
            [Plus sp;
             mkAlt [word "function"; word "class";
                    mkSeq (lits "async" ++ Plus sp :: lits "function")]]));
    [reflexivity|exact H].
Qed.

(** ** Where declarations come from *)

(** X7. Every plain-function declaration recorded for a file carries the
    path of the file and comes from a place of its content that reads
    [function], white space, an identifier, optional white space and an
    opening parenthesis, where the text before [function] does not end with
    [export] and white space: the look-behind of the pattern keeps the
    directly exported functions out. *)
Theorem plain_function_sites content f d :
  In d (extractFunctions content f) -> type d = function ->
  file d = f
  /\ exists pre, funcSite content pre (name d) /\ ~ afterExport pre.
Proof.
  intros H T. split; [now apply extractFunctions_file in H|].
  unfold extractFunctions in H. apply in_app_or in H as [H|H].
  - apply in_map_iff in H as (m & <- & H). cbn [name].
    apply execAll_in in H as [S H].
    apply funcRegex_at in H as (Hno & nm & L & Hs).
    exists (rev (before (mstart m))). unfold group. rewrite L, <- S. now split.
  - apply in_app_or in H as [H|H]; apply in_map_iff in H as (m & <- & _);
      discriminate.
Qed.

Lemma plain_function_sites_witness :
  map name (extractFunctions (u "export function a(){} function b(){}") (u "src/f.js"))
  = [u "b"]
  /\ exists pre,
       funcSite (u "export function a(){} function b(){}") pre (u "b")
       /\ ~ afterExport pre.
Proof.
  split; [vm_compute; reflexivity|].
  apply (plain_function_sites (u "export function a(){} function b(){}") (u "src/f.js")
           (Decl (u "b") function (u "src/f.js"))).
  - vm_compute. auto.
  - reflexivity.
Defined.

(** X8. Every declaration recorded by [extractExports] carries the path of
    the file, a name that is not empty and the type [named] or [default].
    A default declaration, and a named one that does not come from an export
    list, is named by an identifier that the content holds as a whole word:
    it stands after [export] and a white-space character and takes every
    word character that follows. *)
Theorem declared_export_names content f d :
  In d (extractExports content f) ->
  file d = f /\ name d <> []
  /\ match type d with
     | named =>
         In d (listExports content f)
         \/ (exportSite content (name d) /\ wholeWord (name d) content)
     | default => exportSite content (name d) /\ wholeWord (name d) content
     | _ => False
     end.
Proof.
  intro H. split; [now apply extractExports_file in H|].
  unfold extractExports in H. apply in_app_or in H as [H|H]; [|apply in_app_or in H as [H|H]].
  - pose proof (namedExports_site _ _ _ H) as S.
    unfold namedExports in H. apply in_map_iff in H as (m & <- & _). cbn [name type] in *.
    split; [destruct S as (_ & _ & _ & _ & _ & _ & [Hne _] & _); exact Hne|].
    right. split; [exact S|now apply exportSite_wholeWord].
  - split.
    + unfold listExports in H. apply in_flat_map in H as (m & _ & H).
      apply in_map_iff in H as (n & <- & H). cbn [name].
      apply filter_In in H as [H _]. unfold exportListNames in H.
      apply filter_In in H as [_ H]. now destruct n.
    + pose proof H as H'. unfold listExports in H'.
      apply in_flat_map in H' as (m & _ & H'). apply in_map_iff in H' as (n & <- & _).
      cbn [type]. now left.
  - pose proof (defaultExports_site _ _ _ H) as S.
    unfold defaultExports in H. apply in_map_iff in H as (m & <- & _). cbn [name type] in *.
    split; [destruct S as (_ & _ & _ & _ & _ & _ & [Hne _] & _); exact Hne|].
    split; [exact S|now apply exportSite_wholeWord].
Qed.

Lemma declared_export_names_witness :
  extractExports (u "export const total = 1") (u "src/a.js")
  = [Decl (u "total") named (u "src/a.js")]
  /\ wholeWord (u "total") (u "export const total = 1").
Proof.
  split; [vm_compute; reflexivity|].
  destruct (declared_export_names (u "export const total = 1") (u "src/a.js")
              (Decl (u "total") named (u "src/a.js"))) as (_ & _ & [H|[_ H]]).
  - vm_compute. auto.
  - vm_compute in H. destruct H.
  - exact H.
Defined.

(** X9. Only the names of export lists can make [new RegExp] throw: when
    every name recorded from an export list of a readable file is free of
    pattern syntax, the run gets past both checks, and it returns unless it
    has a report to write and [fs.writeFileSync] throws.  That error and the
    [SyntaxError] of a pattern are the only two ways in which the scan of the
    files ends early. *)
Theorem scan_throws_only_on_list_names relative readFileSync writeFileSync opts files now :
  (forall f content d, In f files -> readFileSync f = Some content ->
       In d (listExports content f) -> plain (name d) = true) ->
  (exists out, main relative readFileSync writeFileSync opts files now = Normal out)
  \/ writeFails writeFileSync opts (main relative readFileSync writeFileSync opts files now).
Proof.
  intro HL. apply main_ends_when. intros e He. apply exports_check_returns.
  apply in_allExports in He as (content & Hf & R & He).
  unfold extractExports in He.
  apply in_app_or in He as [He|He]; [|apply in_app_or in He as [He|He]].
  - apply namedExports_site in He as (_ & _ & _ & _ & _ & _ & [_ Hw] & _).
    now apply wordOnly_plain.
  - exact (HL (file e) content e Hf R He).
  - apply defaultExports_site in He as (_ & _ & _ & _ & _ & _ & [_ Hw] & _).
    now apply wordOnly_plain.
Qed.

Lemma scan_throws_only_on_list_names_witness :
  (exists out, scan false None dualProject = Normal out)
  /\ main cwd (disk dualProject) readOnly (Options false (Some (u "dead-code.json")))
          (paths dualProject) (u "2024-01-01T00:00:00.000Z") = SystemError.
Proof.
  assert (forall f content d, In f (paths dualProject) ->
            disk dualProject f = Some content ->
            In d (listExports content f) -> plain (name d) = true) as HL.
  { intros f content d [<-|[<-|[]]] R Hd;
      (assert (Some content = disk dualProject _) as R' by (rewrite <- R; reflexivity));
      vm_compute in R'; injection R' as ->; vm_compute in Hd.
    - destruct Hd as [<-|[]]. reflexivity.
    - destruct Hd. }
  split.
  - destruct (scan_throws_only_on_list_names cwd (disk dualProject) writes
                (Options false None) (paths dualProject)
                (u "2024-01-01T00:00:00.000Z") HL) as [H|(_ & T & _)];
      [exact H|discriminate T].
  - destruct (scan_throws_only_on_list_names cwd (disk dualProject) readOnly
                (Options false (Some (u "dead-code.json"))) (paths dualProject)
                (u "2024-01-01T00:00:00.000Z") HL) as [(out & H)|(H & _)];
      [vm_compute in H; discriminate H|exact H].
Defined.

(** ** The pattern of [findUsages] *)

Lemma RegExp_usage nm :
  plain nm = true -> RegExp (usagePatternOf nm) = Normal (usageRegex nm).
Proof.
  intro P. unfold RegExp, usagePatternOf. rewrite psteps_app.
  replace (psteps pinit
             (u "(?<!(?:export\s+(?:const|let|var|function|class|async\s+function)\s+|function\s+|const|let|var\s+))\b"))
    with (Normal (PState MNormal
                    (Frame GTop [] [(Assertion, WordB);
                                    (Assertion, LookBehind true usageGuard)]) [] 0))
    by (vm_compute; reflexivity).
  cbn [bind]. rewrite psteps_app, psteps_plain by (auto || reflexivity). cbn [bind].
  cbn -[usageGuard]. rewrite (rev_terms nm [(Assertion, WordB);
                                             (Assertion, LookBehind true usageGuard)]).
  reflexivity.
Qed.

(** X10. For a name free of pattern syntax [findUsages] returns whatever
    the content is, and it counts nothing unless the content holds the name
    as a whole word: its look-behind only takes occurrences away from those
    the exports check of the scan goes by. *)
Theorem findUsages_whole_words nm content definingFile currentFile :
  plain nm = true ->
  exists n,
    findUsages nm content definingFile currentFile = Normal n
    /\ (0 < n -> wholeWord nm content)
    /\ (test false (wordBoundaryRegex nm) content = false -> n = 0).
Proof.
  intro P. unfold findUsages. rewrite (RegExp_usage nm P). cbn [bind].
  eexists. split; [reflexivity|].
  assert (matchAll false (usageRegex nm) content <> None ->
          test false (wordBoundaryRegex nm) content = true) as Hsub.
  { intro H. destruct (test false (usageRegex nm) content) eqn:T;
      [|now apply matchAll_none in T].
    apply test_iff in T as (pre & suf & E & T). apply test_iff. exists pre, suf.
    split; [exact E|].
    destruct (ends false (usageRegex nm) (Cur (rev pre) suf) []) as [|y l] eqn:Ey;
      [congruence|].
    assert (In y (ends false (usageRegex nm) (Cur (rev pre) suf) [])) as Hy
      by (rewrite Ey; now left).
    unfold usageRegex in Hy.
    change (mkSeq (LookBehind true ?a :: ?l)) with (Seq (LookBehind true a) (mkSeq l)) in Hy.
    apply ends_seq_in in Hy as (z1 & c1 & H1 & Hy).
    apply lookbehind_neg_in in H1 as [E1 _]. injection E1 as -> ->.
    intro En. unfold wordBoundaryRegex in En. rewrite En in Hy. destruct Hy. }
  split.
  - intro Hn. apply wordBoundary_test. apply Hsub.
    destruct (matchAll false (usageRegex nm) content); [discriminate|simpl in Hn; lia].
  - intro T. destruct (matchAll false (usageRegex nm) content) eqn:M; [|reflexivity].
    rewrite Hsub in T by discriminate. discriminate.
Qed.

Lemma findUsages_whole_words_witness :
  findUsages (u "foo")
    (u "const foo = 1; let foo; var foo; function foo(){} export const foo; foo(); x.foo")
    (u "src/a.js") (u "src/b.js") = Normal 4
  /\ exists n,
       findUsages (u "foo") (u "var foo; function foo(){}") (u "src/a.js") (u "src/b.js")
       = Normal n
       /\ (0 < n -> wholeWord (u "foo") (u "var foo; function foo(){}"))
       /\ (test false (wordBoundaryRegex (u "foo")) (u "var foo; function foo(){}") = false
           -> n = 0).
Proof.
  split; [vm_compute; reflexivity|].
  apply (findUsages_whole_words (u "foo") (u "var foo; function foo(){}")
           (u "src/a.js") (u "src/b.js")).
  reflexivity.
Defined.

(** ** Trimming and splitting *)

Lemma trimStart_suffix s : exists lead, s = lead ++ trimStart s /\ blank lead.
Proof.
  induction s as [|x s (lead & E & B)]; simpl; [now exists []|].
  destruct (isSpace x) eqn:Ex.
  - exists (x :: lead). split; [simpl; now rewrite <- E|].
    unfold blank. simpl. now rewrite Ex.
  - now exists [].
Qed.

Lemma trim_parts s : exists lead trail, s = lead ++ trim s ++ trail.
Proof.
  unfold trim. destruct (trimStart_suffix s) as (lead & E & _).
  destruct (trimStart_suffix (rev (trimStart s))) as (trail & E' & _).
  exists lead, (rev trail). rewrite <- rev_app_distr, <- E', rev_involutive. exact E.
Qed.

(** ** The options of [scanFiles], entry by entry *)

Lemma trim_blank w : blank w -> trim w = [].
Proof.
  intro H. unfold trim.
  replace (trimStart w) with (@nil char); [reflexivity|].
  rewrite <- (app_nil_r w). now rewrite trimStart_blank.
Qed.

Lemma padded_trim body e : padded body e -> trim e = body.
Proof.
  intros (lead & trail & Hl & Ht & -> & [->|Hs]).
  - apply trim_blank. unfold blank in *. now rewrite !forallb_app, Hl, Ht.
  - now apply trim_solid.
Qed.

Lemma padded_no_comma body e : padded body e -> ~ In comma body -> ~ In comma e.
Proof.
  intros (lead & trail & Hl & Ht & -> & _) Hb H.
  unfold blank in *. rewrite forallb_forall in Hl, Ht.
  apply in_app_or in H as [H|H]; [apply Hl in H; discriminate H|].
  apply in_app_or in H as [H|H]; [now apply Hb|apply Ht in H; discriminate H].
Qed.

Lemma padded_entries bodies entries :
  Forall2 padded bodies entries -> (forall b, In b bodies -> ~ In comma b) ->
  map trim entries = bodies /\ forall e, In e entries -> ~ In comma e.
Proof.
  induction 1 as [|b e bs es Hbe _ IH]; intro Hc; [split; [reflexivity|intros e []]|].
  destruct IH as [IH1 IH2]; [intros b' Hb'; apply Hc; now right|]. split.
  - simpl. now rewrite (padded_trim _ _ Hbe), IH1.
  - intros e' [E|He']; [subst e'|now apply IH2].
    apply (padded_no_comma b e Hbe). apply Hc. now left.
Qed.

(** X11. The options of [scanFiles], entry by entry.  For an [--extensions]
    value made of entries separated by commas, each an extension with white
    space around it, [glob] is asked for exactly the directory followed by
    [/**/*.] and the extension, for each entry in order (an entry of white
    space alone gives the pattern that ends with the dot).  It is told to
    ignore the nine built-in patterns and then, unless [--ignore] is empty,
    the entries of [--ignore] without the white space around them, in
    order. *)
Theorem scanFiles_patterns glob opts exts entries ignores ignoreEntries :
  entries <> [] ->
  Forall2 padded exts entries -> (forall b, In b exts -> ~ In comma b) ->
  Search.extensions opts = join comma entries ->
  Forall2 padded ignores ignoreEntries -> (forall b, In b ignores -> ~ In comma b) ->
  Search.ignore opts = join comma ignoreEntries ->
  scanFiles glob opts
  = glob (map (fun ext => Search.dir opts ++ u "/**/*." ++ ext) exts)
         (defaultIgnores ++ (if nonEmpty (Search.ignore opts) then ignores else [])).
Proof.
  intros Hne He Hce Ee Hi Hci Ei. unfold scanFiles.
  destruct (padded_entries exts entries He Hce) as [Te Ne].
  destruct (padded_entries ignores ignoreEntries Hi Hci) as [Ti Ni].
  rewrite Ee, (splitOn_join comma entries Hne Ne), Te. f_equal.
  destruct (nonEmpty (Search.ignore opts)) eqn:N; [|now rewrite app_nil_r].
  f_equal. rewrite Ei. rewrite splitOn_join; [exact Ti| |exact Ni].
  intros ->. rewrite Ei in N. discriminate N.
Qed.

Lemma scanFiles_patterns_witness :
  scanFiles (fun patterns ignored => patterns ++ ignored) spacedOptions
  = [u "src/**/*.js"; u "src/**/*.ts"; u "src/**/*.jsx"]
    ++ defaultIgnores ++ [u "tmp"; u "**/*.min.js"].
Proof.
  assert (forall h t l r, isSpace h = false -> isSpace l = false ->
            rev (h :: t) = l :: r -> solidEnds (h :: t)) as Hsolid.
  { intros h t l r Hh Hl E. split; [now exists h, t|now exists l, r]. }
  apply (scanFiles_patterns (fun patterns ignored => patterns ++ ignored) spacedOptions
           [u "js"; u "ts"; u "jsx"] [u " js"; u " ts "; u "jsx"]
           [u "tmp"; u "**/*.min.js"] [u "tmp "; u " **/*.min.js"]).
  - discriminate.
  - constructor; [|constructor; [|constructor; [|constructor]]].
    + exists (u " "), []. repeat split; try reflexivity. right.
      now apply (Hsolid _ _ (N_of_ascii "s") [N_of_ascii "j"]).
    + exists (u " "), (u " "). repeat split; try reflexivity. right.
      now apply (Hsolid _ _ (N_of_ascii "s") [N_of_ascii "t"]).
    + exists [], []. repeat split; try reflexivity. right.
      now apply (Hsolid _ _ (N_of_ascii "x") (u "sj")).
  - intros b [<-|[<-|[<-|[]]]] H; vm_compute in H; intuition discriminate.
  - reflexivity.
  - constructor; [|constructor; [|constructor]].
    + exists [], (u " "). repeat split; try reflexivity. right.
      now apply (Hsolid _ _ (N_of_ascii "p") (u "mt")).
    + exists (u " "), []. repeat split; try reflexivity. right.
      now apply (Hsolid _ _ (N_of_ascii "s") (u "j.nim.*/**")).
  - intros b [<-|[<-|[]]] H; vm_compute in H; intuition discriminate.
  - reflexivity.
Defined.

(** ** Names are pieces of the text *)

Lemma infix_nil s : infix [] s.
Proof. now exists [], s. Qed.

Lemma infix_refl s : infix s s.
Proof. exists [], []. now rewrite app_nil_r. Qed.

Lemma infix_trans a b c : infix a b -> infix b c -> infix a c.
Proof.
  intros (p & q & ->) (p' & q' & ->). exists (p' ++ p), (q ++ q').
  now rewrite <- !app_assoc.
Qed.

Lemma infix_cons x a s : infix a s -> infix a (x :: s).
Proof. intros (p & q & ->). now exists (x :: p), q. Qed.

Lemma infix_app_r p a s : infix a s -> infix a (p ++ s).
Proof. intros (p' & q & ->). exists (p ++ p'), q. now rewrite <- app_assoc. Qed.

Lemma trim_infix s : infix (trim s) s.
Proof. destruct (trim_parts s) as (lead & trail & E). now exists lead, trail. Qed.

Lemma hd_infix l s : (forall p, In p l -> infix p s) -> infix (hd [] l) s.
Proof. destruct l as [|h t]; intro H; [apply infix_nil|apply H; now left]. Qed.

Lemma last_infix l s : (forall p, In p l -> infix p s) -> infix (last l []) s.
Proof.
  intro H. destruct l as [|h t]; [apply infix_nil|].
  destruct (exists_last (l := h :: t)) as (l' & x & E); [discriminate|].
  rewrite E, last_last. apply H. rewrite E. apply in_or_app. right. now left.
Qed.

Lemma splitOn_infix sep : forall s,
  (exists h t q, splitOn sep s = h :: t /\ s = h ++ q)
  /\ forall piece, In piece (splitOn sep s) -> infix piece s.
Proof.
  induction s as [|x s [(h & t & q & E & Es) IH]]; simpl.
  - split; [now exists [], [], []|]. intros piece [<-|[]]. apply infix_nil.
  - destruct (N.eqb x sep).
    + split; [now exists [], (splitOn sep s), (x :: s)|].
      intros piece [<-|H]; [apply infix_nil|]. apply infix_cons. now apply IH.
    + rewrite E. split; [exists (x :: h), t, q; now rewrite Es at 1|].
      intros piece [<-|H].
      * exists [], q. now rewrite Es at 1.
      * apply infix_cons, IH. rewrite E. now right.
Qed.

Lemma splitLoop_infix r : forall fuel piece b a p,
  In p (splitLoop fuel r piece b a) -> infix p (rev piece ++ a).
Proof.
  induction fuel as [|f IH]; intros piece b a p H; simpl in H.
  - destruct H as [<-|[]]. apply infix_refl.
  - destruct a as [|x a'].
    + destruct H as [<-|[]]. rewrite app_nil_r. apply infix_refl.
    + assert (infix p (rev (x :: piece) ++ a') -> infix p (rev piece ++ x :: a')) as Hstep
        by (simpl; now rewrite <- app_assoc).
      destruct (ends false r (Cur b (x :: a')) []) as [|[z1 c1] l] eqn:E.
      * apply Hstep. eapply IH. exact H.
      * assert (exists run, x :: a' = run ++ after z1) as (run & Ea).
        { assert (In (z1, c1) (ends false r (Cur b (x :: a')) [])) as Hin
            by (rewrite E; now left).
          apply ends_reach in Hin as (run & Ea & _). now exists run. }
        assert (In p (rev piece :: splitLoop f r [] (before z1) (after z1)) ->
                infix p (rev piece ++ x :: a')) as Hcut.
        { intros [<-|Hp].
          - exists [], (x :: a'). reflexivity.
          - apply IH in Hp. simpl in Hp. rewrite Ea.
            apply infix_app_r, infix_app_r. exact Hp. }
        destruct piece as [|y piece]; [|now apply Hcut].
        destruct (index z1 =? length b); [|now apply Hcut].
        apply (IH [x] (x :: b) a' p H).
Qed.

Lemma split_infix r s p : In p (split r s) -> infix p s.
Proof.
  unfold split. destruct s as [|x s].
  - destruct (ends false r (Cur [] []) []); [|intros []]. intros [<-|[]]. apply infix_nil.
  - intro H. now apply splitLoop_infix in H.
Qed.

Lemma star_captures (body : cursor -> caps -> list (cursor * caps)) s :
  (forall z c z1 c1, In (z1, c1) (body z c) -> subject z = s ->
                     subject z1 = s /\ capturedFrom s c c1) ->
  forall fuel z c z1 c1, In (z1, c1) (star body fuel z c) -> subject z = s ->
                         subject z1 = s /\ capturedFrom s c c1.
Proof.
  intro Hb. induction fuel as [|f IH]; intros z c z1 c1 H S; simpl in H.
  - destruct H as [E|[]]. injection E as <- <-. split; [exact S|]. intros n v L. now left.
  - apply in_app_or in H as [H|[E|[]]].
    + apply in_flat_map in H as ([z2 c2] & H2 & H). apply filter_In in H2 as [H2 _].
      apply Hb in H2 as [S2 C2]; [|exact S]. apply IH in H as [S1 C1]; [|exact S2].
      split; [exact S1|]. intros n v L. apply C1 in L as [L|L]; [now apply C2|now right].
    + injection E as <- <-. split; [exact S|]. intros n v L. now left.
Qed.

Lemma ends_captures ic s : forall r z c z1 c1,
  In (z1, c1) (ends ic r z c) -> subject z = s ->
  subject z1 = s /\ capturedFrom s c c1.
Proof.
  assert (forall c, capturedFrom s c c) as Hrefl by (intros c n v L; now left).
  assert (forall p z c z1 c1, In (z1, c1) (step1 p z c) -> subject z = s ->
            subject z1 = s /\ capturedFrom s c c1) as Hstep.
  { intros p z c z1 c1 H S. pose proof H as H'. apply step1_in in H' as (x & _ & _ & _ & ->).
    split; [|apply Hrefl]. rewrite <- S. apply reach_subject.
    apply step1_in in H as (y & Ha & Hb & _). exists [y]. now split. }
  induction r as [| a | | neg items | a IHa b IHb | a IHa b IHb | a IHa | a IHa | a IHa
                  | n a IHa | | | | | neg a IHa];
    intros z c z1 c1 H S; cbn [ends] in H.
  - destruct H as [E|[]]. injection E as <- <-. now split.
  - eapply Hstep; eassumption.
  - eapply Hstep; eassumption.
  - eapply Hstep; eassumption.
  - apply in_flat_map in H as ([z2 c2] & H2 & H). cbn [fst snd] in H.
    apply IHa in H2 as [S2 C2]; [|exact S]. apply IHb in H as [S1 C1]; [|exact S2].
    split; [exact S1|]. intros n v L. apply C1 in L as [L|L]; [now apply C2|now right].
  - apply in_app_or in H as [H|H]; [eapply IHa|eapply IHb]; eassumption.
  - eapply (star_captures (ends ic a) s IHa); eassumption.
  - apply in_flat_map in H as ([z2 c2] & H2 & H). cbn [fst snd] in H.
    apply IHa in H2 as [S2 C2]; [|exact S].
    apply (star_captures (ends ic a) s IHa) in H as [S1 C1]; [|exact S2].
    split; [exact S1|]. intros n v L. apply C1 in L as [L|L]; [now apply C2|now right].
  - apply in_app_or in H as [H|[E|[]]].
    + apply filter_In in H as [H _]. eapply IHa; eassumption.
    + injection E as <- <-. now split.
  - apply in_map_iff in H as ([z2 c2] & E & H). cbn [fst snd] in E. injection E as <- <-.
    apply IHa in H as [S2 C2]; [|exact S]. split; [exact S2|].
    intros k v L. cbn [lookup] in L. destruct (n =? k).
    + injection L as <-. right. rewrite <- S. unfold consumed, subject.
      exists (rev (before z)),
             (skipn (length (after z) - length (after z2)) (after z)).
      now rewrite firstn_skipn.
    + now apply C2.
  - destruct (before z); [|destruct H]. destruct H as [E|[]]. injection E as <- <-.
    now split.
  - destruct (after z); [|destruct H]. destruct H as [E|[]]. injection E as <- <-.
    now split.
  - destruct (atBoundary z); [|destruct H]. destruct H as [E|[]]. injection E as <- <-.
    now split.
  - destruct (atBoundary z); [destruct H|]. destruct H as [E|[]]. injection E as <- <-.
    now split.
  - match type of H with In _ (if ?b then _ else _) => destruct b end; [|destruct H].
    destruct H as [E|[]]. injection E as <- <-. now split.
Qed.

Lemma group_infix ic r s m n : In m (execAll ic r s) -> infix (group n m) s.
Proof.
  intro H. apply execAll_in in H as [S H].
  apply (ends_captures ic s) in H as [_ C]; [|exact S].
  unfold group. destruct (lookup n (mcaps m)) as [v|] eqn:L; [|apply infix_nil].
  apply C in L as [L|L]; [discriminate|exact L].
Qed.

Lemma capture_word pre rest z z' c' :
  groupFree (mkSeq pre) = true -> groupFree (mkSeq rest) = true ->
  In (z', c') (ends false (mkSeq (pre ++ Group 1 (mkSeq [Plus wd]) :: rest)) z []) ->
  exists nm, lookup 1 c' = Some nm /\ identifier nm.
Proof.
  intros Gp Gr H. apply ends_mkSeq_app_in in H as (z1 & c1 & H1 & H).
  pose proof (ends_caps _ _ Gp _ _ _ _ H1) as ->.
  change (mkSeq (Group 1 ?g :: ?l)) with (Seq (Group 1 g) (mkSeq l)) in H.
  apply ends_seq_in in H as (z3 & c3 & H3 & H).
  apply ends_group_in in H3 as (c0 & H3 & ->).
  apply ends_seq_in in H3 as (z3' & c3' & H3 & H3e).
  apply ends_empty_in in H3e. injection H3e as <- <-.
  apply ends_plus_class_in in H3 as [-> (nm & Hne & Hw & M2)].
  pose proof (ends_caps _ _ Gr _ _ _ _ H) as ->.
  rewrite (moved_consumed _ _ _ M2).
  rewrite (forallb_ext_eq _ isWord _ classMatch_wd) in Hw.
  exists nm. split; [simpl; reflexivity|now split].
Qed.

Lemma has_add s x y : has (add s x) y = (has s y || eqs y x)%bool.
Proof.
  unfold add, has. destruct (existsb (eqs x) s) eqn:E.
  - destruct (eqs y x) eqn:Ey; [|now rewrite orb_false_r].
    apply eqs_eq in Ey. subst y. now rewrite E.
  - rewrite existsb_app. simpl. now rewrite orb_false_r.
Qed.

Lemma has_addAll : forall xs s y,
  has (addAll s xs) y = true <-> has s y = true \/ In y xs.
Proof.
  unfold addAll. induction xs as [|x xs IH]; intros s y; simpl.
  - split; [now left|]. now intros [H|[]].
  - rewrite IH, has_add, orb_true_iff, eqs_eq. split.
    + intros [[H|H]|H]; auto.
    + intros [H|[H|H]]; auto.
Qed.

Lemma exportEntry_infix inner n :
  In n (exportListNames inner) -> n <> [] /\ infix n inner.
Proof.
  unfold exportListNames. intro H. apply filter_In in H as [H Hne].
  split; [now destruct n|]. apply in_map_iff in H as (e & <- & H).
  apply (splitOn_infix comma inner) in H.
  eapply infix_trans; [apply trim_infix|]. eapply infix_trans; [|exact H].
  eapply infix_trans; [|apply trim_infix]. apply hd_infix. apply split_infix.
Qed.

Lemma importEntry_infix inner n :
  In n (importListNames inner) -> n <> [] /\ infix n inner.
Proof.
  unfold importListNames. intro H. apply filter_In in H as [H Hne].
  split; [now destruct n|]. apply in_map_iff in H as (e & <- & H).
  apply (splitOn_infix comma inner) in H.
  eapply infix_trans; [apply trim_infix|]. eapply infix_trans; [|exact H].
  eapply infix_trans; [|apply trim_infix]. apply last_infix. apply split_infix.
Qed.

Lemma requireEntry_infix inner n :
  In n (requireListNames inner) -> n <> [] /\ infix n inner.
Proof.
  unfold requireListNames. intro H. apply filter_In in H as [H Hne].
  split; [now destruct n|]. apply in_map_iff in H as (e & <- & H).
  apply (splitOn_infix comma inner) in H.
  eapply infix_trans; [|exact H].
  eapply infix_trans; [|apply trim_infix]. apply hd_infix. apply split_infix.
Qed.

(** X12. No declaration carries a name of the scanner's making: the name
    of every export and of every function recorded for a file is a nonempty
    contiguous piece of the content of that file. *)
Theorem declared_names_from_text content f d :
  In d (extractExports content f ++ extractFunctions content f) ->
  name d <> [] /\ infix (name d) content.
Proof.
  intro H. apply in_app_or in H as [H|H].
  - unfold extractExports in H.
    apply in_app_or in H as [H|H]; [|apply in_app_or in H as [H|H]].
    + pose proof (namedExports_site _ _ _ H) as (_ & _ & _ & _ & _ & _ & [Hne _] & _).
      split; [exact Hne|]. unfold namedExports in H.
      apply in_map_iff in H as (m & <- & H). cbn [name]. eapply group_infix. exact H.
    + unfold listExports in H. apply in_flat_map in H as (m & Hm & H).
      apply in_map_iff in H as (n & <- & H). cbn [name].
      apply filter_In in H as [H _]. apply exportEntry_infix in H as [Hne H].
      split; [exact Hne|]. eapply infix_trans; [exact H|]. eapply group_infix. exact Hm.
    + pose proof (defaultExports_site _ _ _ H) as (_ & _ & _ & _ & _ & _ & [Hne _] & _).
      split; [exact Hne|]. unfold defaultExports in H.
      apply in_map_iff in H as (m & <- & H). cbn [name]. eapply group_infix. exact H.
  - split.
    + apply extractFunctions_site in H.
      destruct (type d); try contradiction; now apply declSite_word in H.
    + unfold extractFunctions in H.
      apply in_app_or in H as [H|H]; [|apply in_app_or in H as [H|H]];
        apply in_map_iff in H as (m & <- & H); cbn [name]; eapply group_infix; exact H.
Qed.

Lemma declared_names_from_text_witness :
  infix (u "b") (u "export { a as x, b }; function idle ( ) {}")
  /\ infix (u "idle") (u "export { a as x, b }; function idle ( ) {}").
Proof.
  split.
  - apply (declared_names_from_text
             (u "export { a as x, b }; function idle ( ) {}") (u "src/a.js")
             (Decl (u "b") named (u "src/a.js"))).
    vm_compute. auto.
  - apply (declared_names_from_text
             (u "export { a as x, b }; function idle ( ) {}") (u "src/a.js")
             (Decl (u "idle") function (u "src/a.js"))).
    vm_compute. auto.
Defined.

(** X13. The same for imports: every name in the set returned by
    [findImports] is a nonempty contiguous piece of the content, whichever
    of the four patterns recorded it. *)
Theorem imported_names_from_text content nm :
  has (findImports content) nm = true ->
  nm <> [] /\ infix nm content.
Proof.
  unfold findImports. intro H.
  apply has_addAll in H as [H|H]; [apply has_addAll in H as [H|H];
    [apply has_addAll in H as [H|H]; [apply has_addAll in H as [H|H]|]|]|].
  - discriminate.
  - apply in_flat_map in H as (m & Hm & H). apply importEntry_infix in H as [Hne H].
    split; [exact Hne|]. eapply infix_trans; [exact H|]. eapply group_infix. exact Hm.
  - apply in_map_iff in H as (m & <- & H). split; [|eapply group_infix; exact H].
    apply execAll_in in H as [_ H].
    apply (capture_word (lits "import" ++ [Plus sp]) (Plus sp :: lits "from")) in H
      as (v & L & [Hne _]); [|reflexivity|reflexivity].
    unfold group. now rewrite L.
  - apply in_map_iff in H as (m & <- & H). split; [|eapply group_infix; exact H].
    apply execAll_in in H as [_ H].
    apply (capture_word (lits "import" ++ [Plus sp; Chr (N_of_ascii "*"); Plus sp]
                         ++ lits "as" ++ [Plus sp]) (Plus sp :: lits "from")) in H
      as (v & L & [Hne _]); [|reflexivity|reflexivity].
    unfold group. now rewrite L.
  - apply in_flat_map in H as (m & Hm & H). unfold requireNames in H.
    destruct (truthy (lookup 1 (mcaps m))).
    + apply requireEntry_infix in H as [Hne H]. split; [exact Hne|].
      eapply infix_trans; [exact H|]. eapply group_infix. exact Hm.
    + destruct (truthy (lookup 2 (mcaps m))) eqn:T; [|destruct H].
      destruct H as [<-|[]]. split; [|eapply group_infix; exact Hm].
      unfold group. destruct (lookup 2 (mcaps m)) as [[|x v]|]; try discriminate.
Qed.

Lemma imported_names_from_text_witness :
  findImports (u "import { a as b } from 'm'; const { c: d } = require('n')")
  = [u "b"; u "c"]
  /\ infix (u "c") (u "import { a as b } from 'm'; const { c: d } = require('n')").
Proof.
  split; [vm_compute; reflexivity|].
  apply (imported_names_from_text
           (u "import { a as b } from 'm'; const { c: d } = require('n')") (u "c")).
  vm_compute. reflexivity.
Defined.

(** ** Declarations that are found *)

Lemma ends_lits_eq w l : forall b a c,
  ends false (mkSeq (map Chr w ++ l)) (Cur b (w ++ a)) c
  = ends false (mkSeq l) (Cur (rev w ++ b) a) c.
Proof.
  induction w as [|x w IH]; intros b a c; [reflexivity|].
  change (ends false (mkSeq (map Chr (x :: w) ++ l)) (Cur b ((x :: w) ++ a)) c)
    with (flat_map (fun zc => ends false (mkSeq (map Chr w ++ l)) (fst zc) (snd zc))
                   (if N.eqb x x then [(Cur (x :: b) (w ++ a), c)] else [])).
  rewrite N.eqb_refl. cbn [flat_map fst snd]. rewrite app_nil_r, IH.
  cbn [rev]. now rewrite <- app_assoc.
Qed.

Lemma lits_mismatch w l b a c :
  (forall q, a <> w ++ q) -> ends false (mkSeq (map Chr w ++ l)) (Cur b a) c = [].
Proof.
  intro H. destruct (ends false (mkSeq (map Chr w ++ l)) (Cur b a) c) as [|y tl] eqn:E;
    [reflexivity|].
  assert (In y (ends false (mkSeq (map Chr w ++ l)) (Cur b a) c)) as Hy
    by (rewrite E; now left).
  apply ends_lits_in in Hy as (z1 & [Ha _] & _). now apply H in Ha.
Qed.

Lemma seq_hd ic a b z c z1 c1 tl1 y tl2 :
  ends ic a z c = (z1, c1) :: tl1 -> ends ic b z1 c1 = y :: tl2 ->
  exists tl, ends ic (Seq a b) z c = y :: tl.
Proof. intros Ea Eb. cbn [ends]. rewrite Ea. cbn [flat_map fst snd]. rewrite Eb. now eexists. Qed.

Lemma alt_skip ic a b z c : ends ic a z c = [] -> ends ic (Alt a b) z c = ends ic b z c.
Proof. intro E. cbn [ends]. now rewrite E. Qed.

Lemma plus_run_hd neg items run b rest c :
  run <> [] -> forallb (classMatch false neg items) run = true ->
  match rest with [] => True | x :: _ => classMatch false neg items x = false end ->
  exists tl, ends false (Plus (Class neg items)) (Cur b (run ++ rest)) c
             = (Cur (rev run ++ b) rest, c) :: tl.
Proof.
  intros Hne Hb Hr. destruct run as [|x run]; [congruence|].
  simpl in Hb. apply andb_true_iff in Hb as [Hx Hb].
  change (ends false (Plus (Class neg items)) (Cur b ((x :: run) ++ rest)) c)
    with (flat_map (fun zc => star (step1 (classMatch false neg items))
                                   (length (after (fst zc))) (fst zc) (snd zc))
                   (if classMatch false neg items x
                    then [(Cur (x :: b) (run ++ rest), c)] else [])).
  rewrite Hx. cbn [flat_map fst snd after].
  destruct (star_step1_hd (classMatch false neg items) run
              (length (run ++ rest)) (x :: b) rest c Hb) as (tl & E);
    [rewrite length_app; lia|exact Hr|].
  rewrite E. cbn [rev]. rewrite <- (app_assoc (rev run) [x] b). simpl.
  eexists. reflexivity.
Qed.

Lemma plus_wd_hd run b rest c :
  identifier run ->
  match rest with [] => True | x :: _ => isWord x = false end ->
  exists tl, ends false (Plus wd) (Cur b (run ++ rest)) c
             = (Cur (rev run ++ b) rest, c) :: tl.
Proof.
  intros [Hne Hw] Hr. apply plus_run_hd; [exact Hne| |].
  - now rewrite (forallb_ext_eq _ isWord _ classMatch_wd).
  - destruct rest; [exact I|]. now rewrite classMatch_wd.
Qed.

Lemma star_sp_hd run b rest c :
  blank run ->
  match rest with [] => True | x :: _ => isSpace x = false end ->
  exists tl, ends false (Star sp) (Cur b (run ++ rest)) c
             = (Cur (rev run ++ b) rest, c) :: tl.
Proof.
  intros Hb Hr.
  change (ends false (Star sp) (Cur b (run ++ rest)) c)
    with (star (step1 (classMatch false false [CEsc ESpace])) (length (run ++ rest))
               (Cur b (run ++ rest)) c).
  apply star_step1_hd.
  - now rewrite (forallb_ext_eq _ isSpace _ classMatch_sp).
  - rewrite length_app. lia.
  - destruct rest; [exact I|]. now rewrite classMatch_sp.
Qed.

Lemma capture_hd nm b rest c :
  identifier nm ->
  match rest with [] => True | x :: _ => isWord x = false end ->
  exists tl, ends false (Group 1 (mkSeq [Plus wd])) (Cur b (nm ++ rest)) c
             = (Cur (rev nm ++ b) rest, (1, nm) :: c) :: tl.
Proof.
  intros Hid Hr. destruct (plus_wd_hd nm b rest c Hid Hr) as (tl & E).
  change (ends false (Group 1 (mkSeq [Plus wd])) (Cur b (nm ++ rest)) c)
    with (map (fun zc => (fst zc, (1, consumed (Cur b (nm ++ rest)) (fst zc)) :: snd zc))
              (flat_map (fun zc => [(fst zc, snd zc)])
                        (ends false (Plus wd) (Cur b (nm ++ rest)) c))).
  rewrite E. cbn [flat_map map fst snd app].
  rewrite (moved_consumed nm (Cur b (nm ++ rest)) (Cur (rev nm ++ b) rest))
    by (now split).
  now eexists.
Qed.

Lemma keyword_hd kw b a c :
  declaring kw ->
  exists tl, ends false exportKeywords (Cur b (kw ++ a)) c = (Cur (rev kw ++ b) a, c) :: tl.
Proof.
  intros [H|(ws & Hne & Hb & ->)].
  - destruct H as [<-|[<-|[<-|[<-|[<-|[]]]]]]; cbn; now eexists.
  - unfold exportKeywords. cbn [mkAlt].
    assert (forall w, (forall q, u "async" ++ ws ++ u "function" ++ a <> w ++ q) ->
              ends false (mkSeq (map Chr w ++ []))
                   (Cur b ((u "async" ++ ws ++ u "function") ++ a)) c = []) as Hskip.
    { intros w Hw. apply lits_mismatch. now rewrite <- !app_assoc. }
    rewrite (alt_skip false (word "const"))
      by (apply (Hskip (u "const")); intros q E; discriminate).
    rewrite (alt_skip false (word "let"))
      by (apply (Hskip (u "let")); intros q E; discriminate).
    rewrite (alt_skip false (word "var"))
      by (apply (Hskip (u "var")); intros q E; discriminate).
    rewrite (alt_skip false (word "function"))
      by (apply (Hskip (u "function")); intros q E; discriminate).
    rewrite (alt_skip false (word "class"))
      by (apply (Hskip (u "class")); intros q E; discriminate).
    unfold lits. rewrite <- !app_assoc, ends_lits_eq.
    destruct (plus_sp_hd ws (rev (u "async") ++ b) (u "function" ++ a) c Hne Hb)
      as (tl1 & E1); [reflexivity|].
    change (mkSeq (Plus sp :: ?l)) with (Seq (Plus sp) (mkSeq (l ++ []))).
    eapply seq_hd; [exact E1|]. rewrite ends_lits_eq.
    rewrite !rev_app_distr, <- !app_assoc. reflexivity.
Qed.

Lemma namedExportRegex_hd b ws1 kw ws2 nm rest :
  ws1 <> [] -> blank ws1 -> declaring kw -> ws2 <> [] -> blank ws2 -> identifier nm ->
  match rest with [] => True | x :: _ => isWord x = false end ->
  exists z1 tl,
    ends false namedExportRegex
         (Cur b (u "export" ++ ws1 ++ kw ++ ws2 ++ nm ++ rest)) []
    = (z1, [(1, nm)]) :: tl.
Proof.
  intros N1 B1 Hkw N2 B2 Hid Hr.
  assert (exists h t, kw = h :: t /\ isSpace h = false) as (h & t & Ekw & Hh).
  { destruct Hkw as [H|(ws & _ & _ & ->)];
      [destruct H as [<-|[<-|[<-|[<-|[<-|[]]]]]]|]; eexists; eexists;
      (split; [reflexivity|reflexivity]). }
  destruct (identifier_head nm Hid) as (h' & t' & Enm & Hh').
  change namedExportRegex
    with (mkSeq (map Chr (u "export") ++
                 [Plus sp; exportKeywords; Plus sp; Group 1 (mkSeq [Plus wd])])).
  rewrite ends_lits_eq.
  destruct (plus_sp_hd ws1 (rev (u "export") ++ b) (kw ++ ws2 ++ nm ++ rest) [] N1 B1)
    as (tl1 & E1); [now rewrite Ekw|].
  destruct (keyword_hd kw (rev ws1 ++ rev (u "export") ++ b) (ws2 ++ nm ++ rest) [] Hkw)
    as (tl2 & E2).
  destruct (plus_sp_hd ws2 (rev kw ++ rev ws1 ++ rev (u "export") ++ b) (nm ++ rest) []
              N2 B2) as (tl3 & E3); [now rewrite Enm|].
  destruct (capture_hd nm (rev ws2 ++ rev kw ++ rev ws1 ++ rev (u "export") ++ b) rest []
              Hid Hr) as (tl4 & E4).
  change (mkSeq [Plus sp; exportKeywords; Plus sp; Group 1 (mkSeq [Plus wd])])
    with (Seq (Plus sp) (Seq exportKeywords
            (Seq (Plus sp) (Seq (Group 1 (mkSeq [Plus wd])) Empty)))).
  assert (exists tl, ends false (Seq (Group 1 (mkSeq [Plus wd])) Empty)
                          (Cur (rev ws2 ++ rev kw ++ rev ws1 ++ rev (u "export") ++ b)
                               (nm ++ rest)) []
                     = (Cur (rev nm ++ rev ws2 ++ rev kw ++ rev ws1 ++ rev (u "export") ++ b)
                            rest, [(1, nm)]) :: tl) as (tl5 & E5)
    by (eapply seq_hd; [exact E4|reflexivity]).
  destruct (seq_hd _ _ _ _ _ _ _ _ _ _ E3 E5) as (tl6 & E6).
  destruct (seq_hd _ _ _ _ _ _ _ _ _ _ E2 E6) as (tl7 & E7).
  destruct (seq_hd _ _ _ _ _ _ _ _ _ _ E1 E7) as (tl8 & E8).
  rewrite E8. now eexists; eexists.
Qed.

Lemma searchFrom_skip ic r : forall pre b a,
  (forall p1 p2, pre = p1 ++ p2 -> p2 <> [] ->
                 ends ic r (Cur (rev p1 ++ b) (p2 ++ a)) [] = []) ->
  searchFrom ic r b (pre ++ a) = searchFrom ic r (rev pre ++ b) a.
Proof.
  induction pre as [|x pre IH]; intros b a H; [reflexivity|].
  assert (x :: pre <> []) as Hx by discriminate.
  pose proof (H [] (x :: pre) eq_refl Hx) as H0. cbn [rev app] in H0.
  cbn [app searchFrom]. rewrite H0, IH.
  - cbn [rev]. now rewrite <- app_assoc.
  - intros p1 p2 -> Hne. specialize (H (x :: p1) p2 eq_refl Hne).
    cbn [rev] in H. now rewrite <- app_assoc in H.
Qed.

Lemma no_export_before l pre b0 p1 p2 rest :
  ~ infix (u "export") pre -> pre = p1 ++ p2 -> p2 <> [] ->
  ends false (mkSeq (map Chr (u "export") ++ l)) (Cur b0 (p2 ++ u "export" ++ rest)) [] = [].
Proof.
  intros Hpre -> Hne. apply lits_mismatch. intros q E. apply Hpre.
  destruct p2 as [|a1 [|a2 [|a3 [|a4 [|a5 [|a6 p2]]]]]]; try congruence;
    try discriminate E.
  injection E as -> -> -> -> -> -> _. now exists p1, p2.
Qed.

Lemma searchFrom_here ic r b a z1 c1 tl :
  ends ic r (Cur b a) [] = (z1, c1) :: tl ->
  searchFrom ic r b a = Some (Found (Cur b a) z1 c1).
Proof. intro E. destruct a; cbn [searchFrom]; now rewrite E. Qed.

Lemma execAll_first ic r s m :
  searchFrom ic r [] s = Some m -> In m (execAll ic r s).
Proof. intro E. unfold execAll. cbn [execLoop]. rewrite E. now left. Qed.

(** X14. An export declaration is found.  Where the text before holds no
    [export], the keyword followed by white space, one of [const], [let],
    [var], [function], [class] or [async function], white space and an
    identifier that no word character follows is recorded as a named export
    of that identifier, whatever comes after. *)
Theorem named_export_found pre ws1 kw ws2 nm rest f :
  ~ infix (u "export") pre ->
  ws1 <> [] -> blank ws1 -> declaring kw -> ws2 <> [] -> blank ws2 -> identifier nm ->
  match rest with [] => True | x :: _ => isWord x = false end ->
  In (Decl nm named f)
     (extractExports (pre ++ u "export" ++ ws1 ++ kw ++ ws2 ++ nm ++ rest) f).
Proof.
  intros Hpre N1 B1 Hkw N2 B2 Hid Hr.
  destruct (namedExportRegex_hd (rev pre) ws1 kw ws2 nm rest N1 B1 Hkw N2 B2 Hid Hr)
    as (z1 & tl & E).
  unfold extractExports, namedExports. apply in_or_app. left.
  apply in_map_iff.
  exists (Found (Cur (rev pre) (u "export" ++ ws1 ++ kw ++ ws2 ++ nm ++ rest)) z1 [(1, nm)]).
  split; [reflexivity|]. apply execAll_first.
  rewrite searchFrom_skip.
  - rewrite app_nil_r. now apply searchFrom_here with (tl := tl).
  - intros p1 p2 Ep Hne.
    change namedExportRegex
      with (mkSeq (map Chr (u "export") ++
                   [Plus sp; exportKeywords; Plus sp; Group 1 (mkSeq [Plus wd])])).
    now apply (no_export_before _ pre _ p1 p2).
Qed.

Lemma named_export_found_witness :
  In (Decl (u "total") named (u "src/a.js"))
     (extractExports
        (u "let z = 1; " ++ u "export" ++ u " " ++ u "const" ++ u "  " ++ u "total" ++ u " = z")
        (u "src/a.js")).
Proof.
  apply (named_export_found (u "let z = 1; ") (u " ") (u "const") (u "  ") (u "total")
           (u " = z") (u "src/a.js")).
  - intros (p & q & E).
    repeat (destruct p as [|? p]; [discriminate E|first [discriminate E|injection E as _ E]]).
  - discriminate.
  - reflexivity.
  - left. simpl. auto.
  - discriminate.
  - reflexivity.
  - split; [discriminate|reflexivity].
  - reflexivity.
Defined.

Lemma leftsOf_reach : forall b a z0, In z0 (leftsOf b a) -> reach z0 (Cur b a).
Proof.
  induction b as [|x b IH]; intros a z0 H; cbn [leftsOf] in H.
  - destruct H as [<-|[]]. apply reach_refl.
  - destruct H as [<-|H]; [apply reach_refl|].
    eapply reach_trans; [apply IH; exact H|]. now exists [x].
Qed.

Lemma lookbehind_neg_pass ic a z c :
  (forall z0 z1 c1, reach z0 z -> In (z1, c1) (ends ic a z0 c) -> index z1 <> index z) ->
  ends ic (LookBehind true a) z c = [(z, c)].
Proof.
  intro Hno. cbn [ends].
  destruct (existsb (fun z0 => existsb (fun zc => index (fst zc) =? index z)
                                       (ends ic a z0 c))
                    (leftsOf (before z) (after z))) eqn:E; [exfalso|reflexivity].
  apply existsb_exists in E as (z0 & Hz0 & E).
  apply existsb_exists in E as ([z1 c1] & H & Hi). apply Nat.eqb_eq in Hi.
  apply (Hno z0 z1 c1); [|exact H|exact Hi].
  apply leftsOf_reach in Hz0. now destruct z.
Qed.

Lemma app_length_inj {A} : forall (l1 l2 r1 r2 : list A),
  l1 ++ r1 = l2 ++ r2 -> length l1 = length l2 -> l1 = l2.
Proof.
  induction l1 as [|x l1 IH]; intros [|y l2] r1 r2 E L; simpl in *;
    try discriminate; [reflexivity|].
  injection E as -> E. f_equal. eapply IH; [exact E|lia].
Qed.

Lemma reach_same_index z0 z z1 :
  reach z0 z -> reach z0 z1 -> index z1 = index z -> before z1 = before z.
Proof.
  intros (run & Ha & Hb) (run1 & Ha1 & Hb1) Hi. unfold index in Hi.
  rewrite Hb, Hb1, !length_app, !length_rev in Hi.
  assert (run1 = run) as ->
    by (apply (app_length_inj run1 run (after z1) (after z)); [congruence|lia]).
  congruence.
Qed.

Lemma export_behind z0 z z1 c1 :
  reach z0 z -> In (z1, c1) (ends false (mkSeq (lits "export" ++ [Plus sp])) z0 []) ->
  index z1 = index z -> afterExport (rev (before z)).
Proof.
  intros R H Hi. pose proof (ends_reach _ _ _ _ _ _ H) as R1.
  rewrite <- (reach_same_index z0 z z1 R R1 Hi).
  unfold lits in H. apply ends_lits_in in H as (z2 & [_ B2] & H).
  change (mkSeq [Plus sp]) with (Seq (Plus sp) Empty) in H.
  apply ends_seq_in in H as (z3 & c3 & H3 & H).
  apply ends_empty_in in H. injection H as -> ->.
  apply ends_plus_class_in in H3 as [_ (ws & Hne & Hs & [_ B3])].
  rewrite (forallb_ext_eq _ isSpace _ classMatch_sp) in Hs.
  exists (rev (before z0)), ws. split; [|now split].
  rewrite B3, B2, !rev_app_distr, !rev_involutive. now rewrite <- app_assoc.
Qed.

Lemma afterExport_infix pre : afterExport pre -> infix (u "export") pre.
Proof. intros (p & ws & E & _). now exists p, ws. Qed.

Lemma seq_empty ic a b z c :
  (forall z1 c1, In (z1, c1) (ends ic a z c) -> ends ic b z1 c1 = []) ->
  ends ic (Seq a b) z c = [].
Proof.
  intro H. cbn [ends]. induction (ends ic a z c) as [|[z1 c1] l IH]; [reflexivity|].
  cbn [flat_map fst snd]. rewrite (H z1 c1) by now left.
  apply IH. intros z2 c2 Hin. apply H. now right.
Qed.

Lemma no_function_before pre b0 p1 p2 rest :
  ~ infix (u "function") pre -> pre = p1 ++ p2 -> p2 <> [] ->
  ends false funcRegex (Cur b0 (p2 ++ u "function" ++ rest)) [] = [].
Proof.
  intros Hpre -> Hne.
  change funcRegex
    with (Seq (LookBehind true (mkSeq (lits "export" ++ [Plus sp])))
              (mkSeq (map Chr (u "function") ++
                      [Plus sp; Group 1 (mkSeq [Plus wd]); Star sp; Chr (N_of_ascii "(")]))).
  apply seq_empty. intros z1 c1 H. apply lookbehind_neg_in in H as [E _].
  injection E as -> ->. apply lits_mismatch. intros q E. apply Hpre.
  destruct p2 as [|a1 [|a2 [|a3 [|a4 [|a5 [|a6 [|a7 [|a8 p2]]]]]]]]; try congruence;
    try discriminate E.
  injection E as -> -> -> -> -> -> -> -> _. now exists p1, p2.
Qed.

Lemma funcRegex_hd pre ws1 nm ws2 rest :
  ~ afterExport pre -> ws1 <> [] -> blank ws1 -> identifier nm -> blank ws2 ->
  exists z1 tl,
    ends false funcRegex
         (Cur (rev pre) (u "function" ++ ws1 ++ nm ++ ws2 ++ N_of_ascii "(" :: rest)) []
    = (z1, [(1, nm)]) :: tl.
Proof.
  intros Hpre N1 B1 Hid B2.
  destruct (identifier_head nm Hid) as (h' & t' & Enm & Hh').
  set (z := Cur (rev pre) (u "function" ++ ws1 ++ nm ++ ws2 ++ N_of_ascii "(" :: rest)).
  assert (ends false (LookBehind true (mkSeq (lits "export" ++ [Plus sp]))) z [] = [(z, [])])
    as E0.
  { apply lookbehind_neg_pass. intros z0 z1 c1 R H Hi. apply Hpre.
    rewrite <- (rev_involutive pre). now apply (export_behind z0 z z1 c1). }
  destruct (plus_sp_hd ws1 (rev (u "function") ++ rev pre)
              (nm ++ ws2 ++ N_of_ascii "(" :: rest) [] N1 B1) as (tl1 & E1);
    [now rewrite Enm|].
  destruct (capture_hd nm (rev ws1 ++ rev (u "function") ++ rev pre)
              (ws2 ++ N_of_ascii "(" :: rest) [] Hid) as (tl2 & E2).
  { destruct ws2 as [|s0 ws2]; [reflexivity|]. unfold blank in B2. simpl in B2.
    apply andb_true_iff in B2 as [B2 _]. now apply space_not_word. }
  destruct (star_sp_hd ws2 (rev nm ++ rev ws1 ++ rev (u "function") ++ rev pre)
              (N_of_ascii "(" :: rest) [(1, nm)] B2) as (tl3 & E3); [reflexivity|].
  assert (exists tl, ends false (Seq (Chr (N_of_ascii "(")) Empty)
                          (Cur (rev ws2 ++ rev nm ++ rev ws1 ++ rev (u "function") ++ rev pre)
                               (N_of_ascii "(" :: rest)) [(1, nm)]
                     = (Cur (N_of_ascii "(" :: rev ws2 ++ rev nm ++ rev ws1
                             ++ rev (u "function") ++ rev pre) rest, [(1, nm)]) :: tl)
    as (tl4 & E4) by (eexists; reflexivity).
  destruct (seq_hd _ _ _ _ _ _ _ _ _ _ E3 E4) as (tl5 & E5).
  destruct (seq_hd _ _ _ _ _ _ _ _ _ _ E2 E5) as (tl6 & E6).
  destruct (seq_hd _ _ _ _ _ _ _ _ _ _ E1 E6) as (tl7 & E7).
  change funcRegex
    with (Seq (LookBehind true (mkSeq (lits "export" ++ [Plus sp])))
              (mkSeq (map Chr (u "function") ++
                      [Plus sp; Group 1 (mkSeq [Plus wd]); Star sp; Chr (N_of_ascii "(")]))).
  eexists. eapply seq_hd; [exact E0|]. unfold z. rewrite ends_lits_eq. exact E7.
Qed.

(** X15. A function definition is found.  Where the text before holds no
    [function] and does not end with [export] and white space, the keyword
    followed by white space, an identifier, optional white space and an
    opening parenthesis is recorded as a plain function of that name. *)
Theorem plain_function_found pre ws1 nm ws2 rest f :
  ~ infix (u "function") pre -> ~ afterExport pre ->
  ws1 <> [] -> blank ws1 -> identifier nm -> blank ws2 ->
  In (Decl nm function f)
     (extractFunctions (pre ++ u "function" ++ ws1 ++ nm ++ ws2 ++ N_of_ascii "(" :: rest) f).
Proof.
  intros Hpre Hexp N1 B1 Hid B2.
  destruct (funcRegex_hd pre ws1 nm ws2 rest Hexp N1 B1 Hid B2) as (z1 & tl & E).
  unfold extractFunctions. apply in_or_app. left. apply in_map_iff.
  exists (Found (Cur (rev pre) (u "function" ++ ws1 ++ nm ++ ws2 ++ N_of_ascii "(" :: rest))
                z1 [(1, nm)]).
  split; [reflexivity|]. apply execAll_first.
  rewrite searchFrom_skip.
  - rewrite app_nil_r. now apply searchFrom_here with (tl := tl).
  - intros p1 p2 Ep Hne. now apply (no_function_before pre _ p1 p2).
Qed.

Lemma plain_function_found_witness :
  In (Decl (u "idle") function (u "src/a.js"))
     (extractFunctions
        (u "let z = 1; " ++ u "function" ++ u " " ++ u "idle" ++ u " "
           ++ N_of_ascii "(" :: u ") {}")
        (u "src/a.js")).
Proof.
  apply (plain_function_found (u "let z = 1; ") (u " ") (u "idle") (u " ") (u ") {}")
           (u "src/a.js")).
  - intros (p & q & E).
    repeat (destruct p as [|? p]; [discriminate E|first [discriminate E|injection E as _ E]]).
  - intro H. apply afterExport_infix in H. revert H. intros (p & q & E).
    repeat (destruct p as [|? p]; [discriminate E|first [discriminate E|injection E as _ E]]).
  - discriminate.
  - reflexivity.
  - split; [discriminate|reflexivity].
  - reflexivity.
Defined.

Lemma defaultImportRegex_hd b ws1 nm ws2 rest :
  ws1 <> [] -> blank ws1 -> identifier nm -> ws2 <> [] -> blank ws2 ->
  exists z1 tl,
    ends false defaultImportRegex
         (Cur b (u "import" ++ ws1 ++ nm ++ ws2 ++ u "from" ++ rest)) []
    = (z1, [(1, nm)]) :: tl.
Proof.
  intros N1 B1 Hid N2 B2.
  destruct (identifier_head nm Hid) as (h' & t' & Enm & Hh').
  destruct (plus_sp_hd ws1 (rev (u "import") ++ b) (nm ++ ws2 ++ u "from" ++ rest) []
              N1 B1) as (tl1 & E1); [now rewrite Enm|].
  destruct (capture_hd nm (rev ws1 ++ rev (u "import") ++ b) (ws2 ++ u "from" ++ rest) []
              Hid) as (tl2 & E2).
  { destruct ws2 as [|s0 ws2]; [congruence|]. unfold blank in B2. simpl in B2.
    apply andb_true_iff in B2 as [B2 _]. now apply space_not_word. }
  destruct (plus_sp_hd ws2 (rev nm ++ rev ws1 ++ rev (u "import") ++ b) (u "from" ++ rest)
              [(1, nm)] N2 B2) as (tl3 & E3); [reflexivity|].
  assert (exists tl, ends false (mkSeq (map Chr (u "from") ++ []))
                          (Cur (rev ws2 ++ rev nm ++ rev ws1 ++ rev (u "import") ++ b)
                               (u "from" ++ rest)) [(1, nm)]
                     = (Cur (rev (u "from") ++ rev ws2 ++ rev nm ++ rev ws1
                             ++ rev (u "import") ++ b) rest, [(1, nm)]) :: tl)
    as (tl4 & E4) by (rewrite ends_lits_eq; eexists; reflexivity).
  destruct (seq_hd _ _ _ _ _ _ _ _ _ _ E3 E4) as (tl5 & E5).
  destruct (seq_hd _ _ _ _ _ _ _ _ _ _ E2 E5) as (tl6 & E6).
  destruct (seq_hd _ _ _ _ _ _ _ _ _ _ E1 E6) as (tl7 & E7).
  change defaultImportRegex
    with (mkSeq (map Chr (u "import") ++
                 Plus sp :: Group 1 (mkSeq [Plus wd]) :: Plus sp :: map Chr (u "from") ++ [])).
  rewrite ends_lits_eq. eexists. eexists. exact E7.
Qed.

Lemma no_import_before l pre b0 p1 p2 rest :
  ~ infix (u "import") pre -> pre = p1 ++ p2 -> p2 <> [] ->
  ends false (mkSeq (map Chr (u "import") ++ l)) (Cur b0 (p2 ++ u "import" ++ rest)) [] = [].
Proof.
  intros Hpre -> Hne. apply lits_mismatch. intros q E. apply Hpre.
  destruct p2 as [|a1 [|a2 [|a3 [|a4 [|a5 [|a6 p2]]]]]]; try congruence;
    try discriminate E.
  injection E as -> -> -> -> -> -> _. now exists p1, p2.
Qed.

(** X16. A default import is found.  Where the text before holds no
    [import], the keyword followed by white space, an identifier, white space
    and [from] puts the identifier into the set of imported names. *)
Theorem default_import_found pre ws1 nm ws2 rest :
  ~ infix (u "import") pre ->
  ws1 <> [] -> blank ws1 -> identifier nm -> ws2 <> [] -> blank ws2 ->
  has (findImports (pre ++ u "import" ++ ws1 ++ nm ++ ws2 ++ u "from" ++ rest)) nm = true.
Proof.
  intros Hpre N1 B1 Hid N2 B2.
  destruct (defaultImportRegex_hd (rev pre) ws1 nm ws2 rest N1 B1 Hid N2 B2)
    as (z1 & tl & E).
  unfold findImports. apply has_addAll. left. apply has_addAll. left.
  apply has_addAll. right. apply in_map_iff.
  exists (Found (Cur (rev pre) (u "import" ++ ws1 ++ nm ++ ws2 ++ u "from" ++ rest))
                z1 [(1, nm)]).
  split; [reflexivity|]. apply execAll_first.
  rewrite searchFrom_skip.
  - rewrite app_nil_r. now apply searchFrom_here with (tl := tl).
  - intros p1 p2 Ep Hne.
    change defaultImportRegex
      with (mkSeq (map Chr (u "import") ++
                   Plus sp :: Group 1 (mkSeq [Plus wd]) :: Plus sp :: map Chr (u "from") ++ [])).
    now apply (no_import_before _ pre _ p1 p2).
Qed.

Lemma default_import_found_witness :
  has (findImports (u "import" ++ u " " ++ u "React" ++ u " " ++ u "from" ++ u " 'react'"))
      (u "React") = true.
Proof.
  apply (default_import_found [] (u " ") (u "React") (u " ") (u " 'react'")).
  - intros (p & q & E). destruct p; discriminate E.
  - discriminate.
  - reflexivity.
  - split; [discriminate|reflexivity].
  - discriminate.
  - reflexivity.
Defined.

(** ** Export lists that are found *)








